(** * Matroska cue parser of adaptivedemux2: a shallow embedding

    The development follows [ext/adaptivedemux2/gstmatroska.c] and
    [gstmatroska.h].  Unsigned 64-bit and 32-bit integers are [Z] with the
    wrap-around written out; the bytes mapped from the [GstAdapter] are a
    [list byte]; a pointer into the mapped bytes is an index ([Z]) into
    that list, and a read outside the mapped bytes is the distinguished
    outcome [OutOfBounds].  The debug and error log lines of the C code
    have no effect on the parser and are left out. *)

From Stdlib Require Import ZArith Bool Lia.
From Stdlib.Strings Require Import Byte.
From stdpp Require Import base list.
Import ListNotations.
Open Scope Z_scope.

(** ** Machine integers *)

Definition wrap64 (x : Z) : Z := x mod 2 ^ 64.
Definition wrap32 (x : Z) : Z := x mod 2 ^ 32.

Definition byte_val (b : byte) : Z := Z.of_N (Byte.to_N b).

Definition byte_of_Z (z : Z) : byte :=
  match Byte.of_N (Z.to_N z) with
  | Some b => b
  | None => x00
  end.

(** ** Outcomes of a computation that reads memory

    [Ret a] is a normal return; [OutOfBounds] is a read or write outside the
    mapped bytes (or outside the cue array); [OutOfFuel] is only produced
    by the bounded unrolling of the [while (TRUE)] loop and is shown never to
    be the result of [gst_matroska_parser_extract_data]. *)

Inductive outcome (A : Type) : Type :=
| Ret (a : A)
| OutOfBounds
| OutOfFuel.

Arguments Ret {A} a.
Arguments OutOfBounds {A}.
Arguments OutOfFuel {A}.

Definition bind {A B : Type} (m : outcome A) (k : A -> outcome B) : outcome B :=
  match m with
  | Ret a => k a
  | OutOfBounds => OutOfBounds
  | OutOfFuel => OutOfFuel
  end.

Notation "x <- m ;; k" := (bind m (fun x => k))
  (at level 100, m at next level, right associativity).

(** ** The mapped bytes of the adapter *)

Definition GstAdapter := list byte.

Definition gst_adapter_available (adapter : GstAdapter) : Z :=
  Z.of_nat (length adapter).

(** [gst_adapter_map (adapter, len)]: the first [len] bytes, contiguous. *)
Definition gst_adapter_map (adapter : GstAdapter) (len : Z) : list byte :=
  take (Z.to_nat len) adapter.

(** Dereference of the pointer [p_buf + i] into the mapped bytes [w]. *)
Definition load (w : list byte) (i : Z) : outcome byte :=
  if i <? 0 then OutOfBounds
  else match w !! Z.to_nat i with
       | Some b => Ret b
       | None => OutOfBounds
       end.

(** ** Element identifiers *)

Definition GST_EBML_ID_HEADER : Z := 0x1A45DFA3.
Definition GST_MATROSKA_ID_SEGMENT : Z := 0x18538067.
Definition GST_MATROSKA_ID_CLUSTER : Z := 0x1F43B675.
Definition GST_MATROSKA_ID_SEEKHEAD : Z := 0x114D9B74.
Definition GST_MATROSKA_ID_SEGMENTINFO : Z := 0x1549A966.
Definition GST_MATROSKA_ID_TRACKS : Z := 0x1654AE6B.
Definition GST_MATROSKA_ID_CUES : Z := 0x1C53BB6B.
Definition GST_MATROSKA_ID_TAGS : Z := 0x1254C367.
Definition GST_MATROSKA_ID_ATTACHMENTS : Z := 0x1941A469.
Definition GST_MATROSKA_ID_CHAPTERS : Z := 0x1043A770.
Definition GST_MATROSKA_ID_TIMECODESCALE : Z := 0x2AD7B1.
Definition GST_MATROSKA_ID_DURATION : Z := 0x4489.
Definition GST_MATROSKA_ID_POINTENTRY : Z := 0xBB.
Definition GST_MATROSKA_ID_CUETIME : Z := 0xB3.
Definition GST_MATROSKA_ID_CUETRACKPOSITION : Z := 0xB7.
Definition GST_MATROSKA_ID_CUETRACK : Z := 0xF7.
Definition GST_MATROSKA_ID_CUECLUSTERPOSITION : Z := 0xF1.
Definition GST_MATROSKA_ID_CUEBLOCKNUMBER : Z := 0x5378.

(** ** The variable-length integer codec *)

(** [for (i = 0; i < 8; i++) if ((data & (0x80 >> i)) != 0) break;]
    with [n] the number of iterations still allowed. *)
Fixpoint read_len_loop (data i : Z) (n : nat) : Z :=
  match n with
  | O => i
  | S n' =>
      if Z.land data (Z.shiftr 0x80 i) =? 0
      then read_len_loop data (i + 1) n'
      else i
  end.

Definition gst_matroska_parser_read_len (data : byte) : Z :=
  read_len_loop (byte_val data) 0 8 + 1.

(** [while (len--) { data <<= 8; data |= p[0]; p++; }] *)
Fixpoint read_data_loop (w : list byte) (p : Z) (n : nat) (data : Z)
  : outcome Z :=
  match n with
  | O => Ret data
  | S n' =>
      b <- load w p ;;
      read_data_loop w (p + 1) n' (Z.lor (wrap64 (Z.shiftl data 8)) (byte_val b))
  end.

(** [p] is never a null pointer at the call sites: it points into the
    mapped bytes.  [len] is a [gint64]; the callers pass an id length or an
    element size, both below 2^63, so it is never negative. *)
Definition gst_matroska_parser_read_data (w : list byte) (p : Z) (len : Z)
  : outcome Z :=
  if (len =? 0) || (len >? 8) then Ret 0
  else read_data_loop w p (Z.to_nat len) 0.

(** [while (--len) data = (data << 8) | p8[0], p8++;] runs [len - 1]
    times. *)
Fixpoint read_data_len_loop (w : list byte) (p8 : Z) (n : nat) (data : Z)
  : outcome Z :=
  match n with
  | O => Ret data
  | S n' =>
      b <- load w p8 ;;
      read_data_len_loop w (p8 + 1) n'
        (Z.lor (wrap64 (Z.shiftl data 8)) (byte_val b))
  end.

Definition gst_matroska_parser_read_data_len (w : list byte) (p_buf : Z)
  (len : Z) : outcome Z :=
  if (len =? 0) || (len >? 8) then Ret 0
  else
    b <- load w p_buf ;;
    let data := wrap64 (byte_val b - Z.shiftl 1 (8 - len)) in
    read_data_len_loop w (p_buf + 1) (Z.to_nat (len - 1)) data.

(** ** Data model ([gstmatroska.h]) *)

Record GstMatroskaEbmlInfo := mkInfo {
  info_id : Z;            (* guint32 *)
  info_size : Z;          (* guint64 *)
  info_data_offset : Z;   (* gint64 *)
  info_data_buf : Z       (* guint8 *: index into the mapped bytes *)
}.

Inductive GstMatroskaParserResult :=
| GST_MATROSKA_PARSER_OK
| GST_MATROSKA_PARSER_DONE
| GST_MATROSKA_PARSER_NOT_SUPPORTED
| GST_MATROSKA_PARSER_ERROR_PARAM
| GST_MATROSKA_PARSER_INSUFFICIENT_DATA
| GST_MATROSKA_PARSER_ERROR.

Inductive GstMatroskaParserStatus :=
| GST_MATROSKA_PARSER_STATUS_INIT
| GST_MATROSKA_PARSER_STATUS_HEADER
| GST_MATROSKA_PARSER_STATUS_DATA
| GST_MATROSKA_PARSER_STATUS_FINISHED.

Record GstMatroskaTrackPosType := mkTrackPos {
  track : Z;
  cluster_pos : Z
}.

Record GstMatroskaPointData := mkPoint {
  cue_time : Z;
  track_pos : GstMatroskaTrackPosType
}.

(** The fields of [struct _GstMatroskaParser], in declaration order.  The
    [GArray *array] is [None] for the null pointer. *)
Record GstMatroskaParser := mkParser {
  parser_len : Z;
  parser_segment_offset : Z;
  parser_segment_head_offset : Z;
  parser_time_scale : Z;
  parser_duration : Z;
  parser_offset : Z;
  parser_consume : Z;
  parser_cue_point_num : Z;
  parser_array : option (list GstMatroskaPointData);
  parser_status : GstMatroskaParserStatus;
  parser_is_discard_ebml_header : bool;
  parser_total_length : Z
}.

Definition set_len (v : Z) (p : GstMatroskaParser) : GstMatroskaParser :=
  mkParser v (parser_segment_offset p) (parser_segment_head_offset p)
    (parser_time_scale p) (parser_duration p) (parser_offset p)
    (parser_consume p) (parser_cue_point_num p) (parser_array p)
    (parser_status p) (parser_is_discard_ebml_header p)
    (parser_total_length p).

Definition set_segment_offset (v : Z) (p : GstMatroskaParser)
  : GstMatroskaParser :=
  mkParser (parser_len p) v (parser_segment_head_offset p)
    (parser_time_scale p) (parser_duration p) (parser_offset p)
    (parser_consume p) (parser_cue_point_num p) (parser_array p)
    (parser_status p) (parser_is_discard_ebml_header p)
    (parser_total_length p).

Definition set_segment_head_offset (v : Z) (p : GstMatroskaParser)
  : GstMatroskaParser :=
  mkParser (parser_len p) (parser_segment_offset p) v
    (parser_time_scale p) (parser_duration p) (parser_offset p)
    (parser_consume p) (parser_cue_point_num p) (parser_array p)
    (parser_status p) (parser_is_discard_ebml_header p)
    (parser_total_length p).

Definition set_time_scale (v : Z) (p : GstMatroskaParser)
  : GstMatroskaParser :=
  mkParser (parser_len p) (parser_segment_offset p)
    (parser_segment_head_offset p) v (parser_duration p) (parser_offset p)
    (parser_consume p) (parser_cue_point_num p) (parser_array p)
    (parser_status p) (parser_is_discard_ebml_header p)
    (parser_total_length p).

Definition set_duration (v : Z) (p : GstMatroskaParser)
  : GstMatroskaParser :=
  mkParser (parser_len p) (parser_segment_offset p)
    (parser_segment_head_offset p) (parser_time_scale p) v (parser_offset p)
    (parser_consume p) (parser_cue_point_num p) (parser_array p)
    (parser_status p) (parser_is_discard_ebml_header p)
    (parser_total_length p).

Definition set_offset (v : Z) (p : GstMatroskaParser) : GstMatroskaParser :=
  mkParser (parser_len p) (parser_segment_offset p)
    (parser_segment_head_offset p) (parser_time_scale p) (parser_duration p)
    v (parser_consume p) (parser_cue_point_num p) (parser_array p)
    (parser_status p) (parser_is_discard_ebml_header p)
    (parser_total_length p).

Definition set_consume (v : Z) (p : GstMatroskaParser) : GstMatroskaParser :=
  mkParser (parser_len p) (parser_segment_offset p)
    (parser_segment_head_offset p) (parser_time_scale p) (parser_duration p)
    (parser_offset p) v (parser_cue_point_num p) (parser_array p)
    (parser_status p) (parser_is_discard_ebml_header p)
    (parser_total_length p).

Definition set_cue_point_num (v : Z) (p : GstMatroskaParser)
  : GstMatroskaParser :=
  mkParser (parser_len p) (parser_segment_offset p)
    (parser_segment_head_offset p) (parser_time_scale p) (parser_duration p)
    (parser_offset p) (parser_consume p) v (parser_array p)
    (parser_status p) (parser_is_discard_ebml_header p)
    (parser_total_length p).

Definition set_array (v : option (list GstMatroskaPointData))
  (p : GstMatroskaParser) : GstMatroskaParser :=
  mkParser (parser_len p) (parser_segment_offset p)
    (parser_segment_head_offset p) (parser_time_scale p) (parser_duration p)
    (parser_offset p) (parser_consume p) (parser_cue_point_num p) v
    (parser_status p) (parser_is_discard_ebml_header p)
    (parser_total_length p).

Definition set_status (v : GstMatroskaParserStatus) (p : GstMatroskaParser)
  : GstMatroskaParser :=
  mkParser (parser_len p) (parser_segment_offset p)
    (parser_segment_head_offset p) (parser_time_scale p) (parser_duration p)
    (parser_offset p) (parser_consume p) (parser_cue_point_num p)
    (parser_array p) v (parser_is_discard_ebml_header p)
    (parser_total_length p).

(** [memset (parser, 0, sizeof (GstMatroskaParser))]. *)
Definition zeroed_parser : GstMatroskaParser :=
  mkParser 0 0 0 0 0 0 0 0 None GST_MATROSKA_PARSER_STATUS_INIT false 0.

(** [memset (&point_data, 0, sizeof (GstMatroskaPointData))]. *)
Definition zeroed_point : GstMatroskaPointData :=
  mkPoint 0 (mkTrackPos 0 0).

(** [gst_matroska_parser_init]: the [GST_ERROR] about an array that was
    not freed is a log line only; the structure is zeroed either way. *)
Definition gst_matroska_parser_init (parser : GstMatroskaParser)
  : GstMatroskaParser :=
  zeroed_parser.

(** [gst_matroska_parser_clear]: frees the array, then zeroes. *)
Definition gst_matroska_parser_clear (parser : GstMatroskaParser)
  : GstMatroskaParser :=
  zeroed_parser.

(** ** Reading one element header *)

Definition unknown_length : list Z :=
  [0x7F; 0x3FFF; 0x1FFFFF; 0x0FFFFFFF; 0x07FFFFFFFF; 0x03FFFFFFFFFF;
   0x01FFFFFFFFFFFF; 0x00FFFFFFFFFFFFFF].

Definition UNKNOWN_SIZE : Z := 0x7FFFFFFFFFFFFFFF.

(** [if (unknown_length[len - 1] == p_info->size) p_info->size = 0x7FFF...] *)
Definition check_unknown_length (len size : Z) : Z :=
  if nth (Z.to_nat (len - 1)) unknown_length 0 =? size
  then UNKNOWN_SIZE
  else size.

(** [gst_matroska_read_one_ebml_info (buf, size, p_info)], with [buf] the
    index [p_buf + offset] into the mapped bytes [w].  [size] is the
    caller's [guint64] passed through a [gint64] parameter and copied back
    into the [guint64 rem_size]; it is kept as the unsigned value.  [buf]
    is a null pointer only when nothing is mapped, and then [size] is 0, so
    [!buf || !size] is [size == 0].  The result is the returned byte count
    together with the contents of [*p_info] on return. *)
Definition gst_matroska_read_one_ebml_info (w : list byte) (buf : Z)
  (size : Z) (p_info : GstMatroskaEbmlInfo)
  : outcome (Z * GstMatroskaEbmlInfo) :=
  if size =? 0 then Ret (0, p_info)
  else
    let rem_size := size in
    let p8 := buf in
    (* extract id field *)
    b <- load w p8 ;;
    let len := gst_matroska_parser_read_len b in
    if (rem_size <=? len) || (len >? 8) then Ret (0, p_info)
    else
      id <- gst_matroska_parser_read_data w p8 len ;;
      let p_info :=
        mkInfo (wrap32 id) (info_size p_info) (info_data_offset p_info)
          (info_data_buf p_info) in
      let p8 := p8 + len in
      let bytes := len in
      let rem_size := wrap64 (rem_size - len) in
      (* extract size field *)
      b <- load w p8 ;;
      let len := gst_matroska_parser_read_len b in
      if (rem_size <=? len) || (len >? 8) then Ret (0, p_info)
      else
        sz <- gst_matroska_parser_read_data_len w p8 len ;;
        (* check unknown length *)
        let sz := check_unknown_length len sz in
        let p8 := p8 + len in
        let bytes := bytes + len in
        (* extract data field *)
        let p_info := mkInfo (info_id p_info) sz (p8 - buf) p8 in
        let bytes := wrap64 (bytes + sz) in
        Ret (bytes, p_info).

(** [gst_matroska_parser_check_id (parser, id, len, adapter)]. *)
Definition gst_matroska_parser_check_id (parser : GstMatroskaParser)
  (id : Z) (len : Z) (adapter : GstAdapter)
  : outcome GstMatroskaParserResult :=
  let avail := gst_adapter_available adapter in
  if avail <? len then Ret GST_MATROSKA_PARSER_INSUFFICIENT_DATA
  else
    v <- gst_matroska_parser_read_data (gst_adapter_map adapter len) 0 len ;;
    if negb (v =? id) then Ret GST_MATROSKA_PARSER_NOT_SUPPORTED
    else Ret GST_MATROSKA_PARSER_OK.

(** ** The extraction loop *)

(** The local variables of [gst_matroska_parser_extract_data] that live
    across iterations of [while (TRUE)], together with the parser structure.
    [st_entry] is the pointer [entry] into the cue array, kept as the index
    of the element it points to ([None] is the null pointer). *)
Record loop_state := mkState {
  st_parser : GstMatroskaParser;
  st_offset : Z;
  st_len : Z;
  st_entry : option Z;
  st_info : GstMatroskaEbmlInfo
}.

Inductive step_result :=
| Continue (s : loop_state)
| Return (res : GstMatroskaParserResult) (parser : GstMatroskaParser).

Inductive switch_result :=
| Next (parser : GstMatroskaParser) (consume : Z)
| Leave (res : GstMatroskaParserResult) (parser : GstMatroskaParser).

(** An assignment through [entry]: a write outside the array is
    [OutOfBounds]. *)
Definition store_entry (i : Z)
  (f : GstMatroskaPointData -> GstMatroskaPointData)
  (parser : GstMatroskaParser) : outcome GstMatroskaParser :=
  match parser_array parser with
  | None => OutOfBounds
  | Some l =>
      match l !! Z.to_nat i with
      | None => OutOfBounds
      | Some e => Ret (set_array (Some (<[Z.to_nat i := f e]> l)) parser)
      end
  end.

(** [if (entry) entry->field = gst_matroska_parser_read_data (data_buf,
    size);] *)
Definition assign_entry (w : list byte) (entry : option Z)
  (embl_info : GstMatroskaEbmlInfo)
  (f : Z -> GstMatroskaPointData -> GstMatroskaPointData)
  (parser : GstMatroskaParser) : outcome GstMatroskaParser :=
  match entry with
  | None => Ret parser
  | Some i =>
      v <- gst_matroska_parser_read_data w (info_data_buf embl_info)
             (info_size embl_info) ;;
      store_entry i (f v) parser
  end.

(** The adjustment applied to a non-zero [consume] for the elements whose
    children are parsed. *)
Definition adjust_consume (consume : Z) (embl_info : GstMatroskaEbmlInfo) : Z :=
  if negb (consume =? 0) then
    if (info_id embl_info =? GST_MATROSKA_ID_SEGMENT)
       || (info_id embl_info =? GST_MATROSKA_ID_CUES)
       || (info_id embl_info =? GST_MATROSKA_ID_CLUSTER)
    then
      if consume >? info_size embl_info
      then wrap64 (consume - info_size embl_info)
      else consume
    else consume
  else consume.

(** [switch (embl_info.id)]. *)
Definition dispatch (w : list byte) (parser : GstMatroskaParser)
  (embl_info : GstMatroskaEbmlInfo) (consume : Z) (entry : option Z)
  : outcome switch_result :=
  let id := info_id embl_info in
  if id =? GST_EBML_ID_HEADER then
    Ret (Next (set_consume 0 parser) consume)
  else if id =? GST_MATROSKA_ID_SEGMENT then
    Ret (Next (set_segment_offset (parser_consume parser) parser)
           (info_data_offset embl_info))
  else if id =? GST_MATROSKA_ID_SEEKHEAD then
    Ret (Next (set_segment_head_offset (parser_consume parser) parser) consume)
  else if id =? GST_MATROSKA_ID_SEGMENTINFO then
    Ret (Next parser (info_data_offset embl_info))
  else if id =? GST_MATROSKA_ID_TIMECODESCALE then
    v <- gst_matroska_parser_read_data w (info_data_buf embl_info)
           (info_size embl_info) ;;
    Ret (Next (set_time_scale v parser) consume)
  else if id =? GST_MATROSKA_ID_DURATION then
    v <- gst_matroska_parser_read_data w (info_data_buf embl_info)
           (info_size embl_info) ;;
    Ret (Next (set_duration v parser) consume)
  else if id =? GST_MATROSKA_ID_CUES then
    let consume := info_data_offset embl_info in
    Ret (Next
           (set_len
              (wrap64 (parser_consume parser + consume + info_size embl_info))
              parser)
           consume)
  else if id =? GST_MATROSKA_ID_POINTENTRY then
    let arr :=
      match parser_array parser with
      | None => []
      | Some l => l
      end in
    let parser := set_array (Some (arr ++ [zeroed_point])) parser in
    let parser :=
      set_cue_point_num (wrap64 (parser_cue_point_num parser + 1)) parser in
    Ret (Next parser (info_data_offset embl_info))
  else if id =? GST_MATROSKA_ID_CUETIME then
    p <- assign_entry w entry embl_info
           (fun v e => mkPoint v (track_pos e)) parser ;;
    Ret (Next p consume)
  else if id =? GST_MATROSKA_ID_CUETRACKPOSITION then
    Ret (Next parser (info_data_offset embl_info))
  else if id =? GST_MATROSKA_ID_CUECLUSTERPOSITION then
    p <- assign_entry w entry embl_info
           (fun v e =>
              mkPoint (cue_time e) (mkTrackPos (track (track_pos e)) v))
           parser ;;
    Ret (Next p consume)
  else if id =? GST_MATROSKA_ID_CUETRACK then
    p <- assign_entry w entry embl_info
           (fun v e =>
              mkPoint (cue_time e) (mkTrackPos v (cluster_pos (track_pos e))))
           parser ;;
    Ret (Next p consume)
  else if id =? GST_MATROSKA_ID_CLUSTER then
    Ret (Leave GST_MATROSKA_PARSER_DONE parser)
  else
    Ret (Next parser consume).

(** The part of the loop body after the [switch]: advance the cursor and
    the consumed-byte counter, then test the end of the Cues element. *)
Definition advance (s : loop_state) (entry : option Z)
  (embl_info : GstMatroskaEbmlInfo) (parser : GstMatroskaParser)
  (consume : Z) : step_result :=
  let len := wrap64 (st_len s - consume) in
  let offset := wrap64 (st_offset s + consume) in
  let parser := set_consume (wrap64 (parser_consume parser + consume)) parser in
  if negb (parser_len parser =? 0) && (parser_consume parser >=? parser_len parser)
  then Return GST_MATROSKA_PARSER_DONE (set_offset offset parser)
  else Continue (mkState parser offset len entry embl_info).

(** [if (parser->array && parser->cue_point_num) entry = &g_array_index
    (parser->array, GstMatroskaPointData, parser->cue_point_num - 1);]
    otherwise [entry] keeps its value. *)
Definition current_entry (parser : GstMatroskaParser) (entry : option Z)
  : option Z :=
  match parser_array parser with
  | Some _ =>
      if negb (parser_cue_point_num parser =? 0)
      then Some (parser_cue_point_num parser - 1)
      else entry
  | None => entry
  end.

(** One iteration of [while (TRUE)]. *)
Definition extract_step (w : list byte) (s : loop_state)
  : outcome step_result :=
  let parser := st_parser s in
  let offset := st_offset s in
  let len := st_len s in
  (* Read one ebml *)
  r <- gst_matroska_read_one_ebml_info w offset len (st_info s) ;;
  let embl_info := snd r in
  let consume := adjust_consume (fst r) embl_info in
  (* Check data integrity *)
  if (consume =? 0) || (len <? consume) then
    Ret (Return GST_MATROSKA_PARSER_OK
           (if negb (offset =? 0) then set_offset offset parser else parser))
  else
    (* Get current cue to fill array list *)
    let entry := current_entry parser (st_entry s) in
    d <- dispatch w parser embl_info consume entry ;;
    match d with
    | Leave res parser => Ret (Return res parser)
    | Next parser consume => Ret (advance s entry embl_info parser consume)
    end.

Fixpoint extract_loop (fuel : nat) (w : list byte) (s : loop_state)
  : outcome (GstMatroskaParserResult * GstMatroskaParser) :=
  match fuel with
  | O => OutOfFuel
  | S fuel' =>
      r <- extract_step w s ;;
      match r with
      | Return res parser => Ret (res, parser)
      | Continue s' => extract_loop fuel' w s'
      end
  end.

(** The contents of the local [embl_info] before the first header is read:
    the C variable is uninitialised, and is only read after
    [gst_matroska_read_one_ebml_info] has filled it. *)
Definition uninit_info : GstMatroskaEbmlInfo := mkInfo 0 0 0 0.

Definition initial_state (parser : GstMatroskaParser) (adapter : GstAdapter)
  : loop_state :=
  mkState parser (parser_offset parser) (gst_adapter_available adapter)
    None uninit_info.

(** [gst_matroska_parser_extract_data]: every iteration that continues
    shortens [len], so [len + 1] iterations are enough. *)
Definition gst_matroska_parser_extract_data (parser : GstMatroskaParser)
  (adapter : GstAdapter)
  : outcome (GstMatroskaParserResult * GstMatroskaParser) :=
  let len := gst_adapter_available adapter in
  let p_buf := gst_adapter_map adapter len in
  extract_loop (S (Z.to_nat len)) p_buf (initial_state parser adapter).

(** ** The entry point: a [switch] on the status that falls through *)

Definition entry_finished (res : GstMatroskaParserResult)
  (parser : GstMatroskaParser)
  : outcome (GstMatroskaParserResult * option GstMatroskaParser) :=
  Ret (res, Some parser).

Definition entry_data (parser : GstMatroskaParser) (adapter : GstAdapter)
  : outcome (GstMatroskaParserResult * option GstMatroskaParser) :=
  r <- gst_matroska_parser_extract_data parser adapter ;;
  match fst r with
  | GST_MATROSKA_PARSER_DONE =>
      entry_finished (fst r)
        (set_status GST_MATROSKA_PARSER_STATUS_FINISHED (snd r))
  | _ => Ret (fst r, Some (snd r))
  end.

Definition entry_header (parser : GstMatroskaParser) (adapter : GstAdapter)
  : outcome (GstMatroskaParserResult * option GstMatroskaParser) :=
  res <- gst_matroska_parser_check_id parser GST_EBML_ID_HEADER 4 adapter ;;
  match res with
  | GST_MATROSKA_PARSER_OK =>
      entry_data (set_status GST_MATROSKA_PARSER_STATUS_DATA parser) adapter
  | _ => Ret (res, Some parser)
  end.

Definition entry_init (parser : GstMatroskaParser) (adapter : GstAdapter)
  : outcome (GstMatroskaParserResult * option GstMatroskaParser) :=
  let parser := gst_matroska_parser_init parser in
  entry_header (set_status GST_MATROSKA_PARSER_STATUS_HEADER parser) adapter.

(** [gst_matroska_parser_entry (parser, adapter)]: both arguments are
    pointers and may be null ([None]).  The result is the returned code and
    the parser structure after the call. *)
Definition gst_matroska_parser_entry (parser : option GstMatroskaParser)
  (adapter : option GstAdapter)
  : outcome (GstMatroskaParserResult * option GstMatroskaParser) :=
  match parser, adapter with
  | Some p, Some a =>
      match parser_status p with
      | GST_MATROSKA_PARSER_STATUS_INIT => entry_init p a
      | GST_MATROSKA_PARSER_STATUS_HEADER => entry_header p a
      | GST_MATROSKA_PARSER_STATUS_DATA => entry_data p a
      | GST_MATROSKA_PARSER_STATUS_FINISHED =>
          entry_finished GST_MATROSKA_PARSER_OK p
      end
  | _, _ => Ret (GST_MATROSKA_PARSER_NOT_SUPPORTED, parser)
  end.

(** ** Observing a run of the loop *)

(** The element header with which the [switch] is entered at loop state
    [s], if the data-integrity check lets the iteration go that far. *)
Definition header_at (w : list byte) (s : loop_state)
  : option GstMatroskaEbmlInfo :=
  match gst_matroska_read_one_ebml_info w (st_offset s) (st_len s) (st_info s)
  with
  | Ret r =>
      let consume := adjust_consume (fst r) (snd r) in
      if (consume =? 0) || (st_len s <? consume) then None else Some (snd r)
  | _ => None
  end.

(** The headers dispatched, in order, by the iterations of the loop. *)
Fixpoint dispatched (fuel : nat) (w : list byte) (s : loop_state)
  : list GstMatroskaEbmlInfo :=
  match fuel with
  | O => []
  | S fuel' =>
      match header_at w s with
      | None => []
      | Some info =>
          info ::
          match extract_step w s with
          | Ret (Continue s') => dispatched fuel' w s'
          | _ => []
          end
      end
  end.

(** The loop states an invocation passes through. *)
Inductive reaches (w : list byte) : loop_state -> loop_state -> Prop :=
| reaches_here s : reaches w s s
| reaches_step s s' s'' :
    extract_step w s = Ret (Continue s') ->
    reaches w s' s'' ->
    reaches w s s''.

(** The cue counter agrees with the cue array, as it does from
    [gst_matroska_parser_init] on. *)
Definition cue_array_consistent (p : GstMatroskaParser) : Prop :=
  match parser_array p with
  | None => parser_cue_point_num p = 0
  | Some l => parser_cue_point_num p = Z.of_nat (length l)
  end.

(** The cue list is still empty: no array yet, or no cue point counted. *)
Definition cue_list_empty (p : GstMatroskaParser) : Prop :=
  parser_array p = None \/ parser_cue_point_num p = 0.

(** A loop state whose cursor and announced length stay inside the mapped
    bytes [w], and whose [entry] pointer, if set, points into the array. *)
Definition safe_state (w : list byte) (s : loop_state) : Prop :=
  Z.of_nat (length w) < 2 ^ 64
  /\ 0 <= st_offset s
  /\ 0 <= st_len s
  /\ st_offset s + st_len s <= Z.of_nat (length w)
  /\ cue_array_consistent (st_parser s)
  /\ parser_cue_point_num (st_parser s) + st_len s < 2 ^ 64
  /\ (st_entry s <> None -> ~ cue_list_empty (st_parser s)).


(** The parser structure an iteration leaves behind. *)
Definition result_parser (sr : step_result) : GstMatroskaParser :=
  match sr with
  | Continue s => st_parser s
  | Return _ p => p
  end.

(** The parser structure with which [gst_matroska_parser_entry] calls
    [gst_matroska_parser_extract_data], if the status switch gets there. *)
Definition extraction_input (p : GstMatroskaParser) (a : GstAdapter)
  : option GstMatroskaParser :=
  let after_check q :=
    match gst_matroska_parser_check_id q GST_EBML_ID_HEADER 4 a with
    | Ret GST_MATROSKA_PARSER_OK =>
        Some (set_status GST_MATROSKA_PARSER_STATUS_DATA q)
    | _ => None
    end in
  match parser_status p with
  | GST_MATROSKA_PARSER_STATUS_INIT =>
      after_check
        (set_status GST_MATROSKA_PARSER_STATUS_HEADER
           (gst_matroska_parser_init p))
  | GST_MATROSKA_PARSER_STATUS_HEADER => after_check p
  | GST_MATROSKA_PARSER_STATUS_DATA => Some p
  | GST_MATROSKA_PARSER_STATUS_FINISHED => None
  end.

(** The headers dispatched during one call of the entry point. *)
Definition entry_dispatched (p : GstMatroskaParser) (a : GstAdapter)
  : list GstMatroskaEbmlInfo :=
  match extraction_input p a with
  | Some q =>
      let len := gst_adapter_available a in
      dispatched (S (Z.to_nat len)) (gst_adapter_map a len) (initial_state q a)
  | None => []
  end.

(** The headers dispatched, in order, by the iterations of the loop, each
    with the value [parser->consume] has when its iteration begins. *)
Fixpoint dispatched_at (fuel : nat) (w : list byte) (s : loop_state)
  : list (Z * GstMatroskaEbmlInfo) :=
  match fuel with
  | O => []
  | S fuel' =>
      match header_at w s with
      | None => []
      | Some info =>
          (parser_consume (st_parser s), info) ::
          match extract_step w s with
          | Ret (Continue s') => dispatched_at fuel' w s'
          | _ => []
          end
      end
  end.

(** The same for one call of the entry point. *)
Definition entry_dispatched_at (p : GstMatroskaParser) (a : GstAdapter)
  : list (Z * GstMatroskaEbmlInfo) :=
  match extraction_input p a with
  | Some q =>
      let len := gst_adapter_available a in
      dispatched_at (S (Z.to_nat len)) (gst_adapter_map a len)
        (initial_state q a)
  | None => []
  end.

(** A dispatched header that, if it is an EBML header, is met while the
    counter is still 0. *)
Definition header_at_zero (ci : Z * GstMatroskaEbmlInfo) : Prop :=
  info_id (snd ci) = GST_EBML_ID_HEADER -> fst ci = 0.

(** ** Notions taken from the specification's wording *)

(** [k] is the 1-indexed position of the first set bit of [b], scanning
    from bit 7 down to bit 0. *)
Definition first_set_bit_position (b : byte) (k : Z) : Prop :=
  1 <= k <= 8
  /\ Z.testbit (byte_val b) (8 - k) = true
  /\ forall j, 1 <= j < k -> Z.testbit (byte_val b) (8 - j) = false.

(** The byte sequence with the top [len] bits of its leading byte
    cleared. *)
Definition clear_marker_bits (len : Z) (bytes : list byte) : list byte :=
  match bytes with
  | [] => []
  | b :: rest => byte_of_Z (Z.land (byte_val b) (Z.ones (8 - len))) :: rest
  end.

(** "[decodeRaw] with the top [length] marker bits of the leading byte
    cleared before big-endian concatenation". *)
Definition decodeMasked_spec (bytes : list byte) (len : Z) : outcome Z :=
  gst_matroska_parser_read_data (clear_marker_bits len bytes) 0 len.

(** The reserved all-data-bits pattern of a size field of length [len]. *)
Definition reserved_pattern (len : Z) : Z := Z.ones (7 * len).

(** A field of encoded length greater than 8 is met by the header read at
    [buf] with [size] bytes announced: either the id field, or the size
    field that follows a well-formed id. *)
Definition field_length_error (w : list byte) (buf size : Z) : Prop :=
  size <> 0 /\
  exists b,
    load w buf = Ret b /\
    (gst_matroska_parser_read_len b > 8
     \/ (gst_matroska_parser_read_len b < size
         /\ exists id b',
              gst_matroska_parser_read_data w buf
                (gst_matroska_parser_read_len b) = Ret id
              /\ load w (buf + gst_matroska_parser_read_len b) = Ret b'
              /\ gst_matroska_parser_read_len b' > 8)).

(** Feeding a whole stream to a fresh parser in one call. *)
Definition feed_single (stream : list byte)
  : outcome (GstMatroskaParserResult * option GstMatroskaParser) :=
  gst_matroska_parser_entry (Some zeroed_parser) (Some stream).

(** Feeding a stream one byte at a time: the adapter holds the bytes
    pushed so far and the entry point is called after every push. *)
Fixpoint feed_bytewise_from (fed rest : list byte)
  (res : GstMatroskaParserResult) (parser : option GstMatroskaParser)
  : outcome (GstMatroskaParserResult * option GstMatroskaParser) :=
  match rest with
  | [] => Ret (res, parser)
  | b :: rest' =>
      let adapter := fed ++ [b] in
      r <- gst_matroska_parser_entry parser (Some adapter) ;;
      feed_bytewise_from adapter rest' (fst r) (snd r)
  end.

Definition feed_bytewise (stream : list byte)
  : outcome (GstMatroskaParserResult * option GstMatroskaParser) :=
  feed_bytewise_from [] stream GST_MATROSKA_PARSER_OK (Some zeroed_parser).

(** The extraction when the memory right after the mapped bytes is
    readable and holds [slack]: what a read past the mapping finds there.
    With no slack this is [gst_matroska_parser_extract_data]. *)
Definition extract_data_with_slack (slack : list byte)
  (parser : GstMatroskaParser) (adapter : GstAdapter)
  : outcome (GstMatroskaParserResult * GstMatroskaParser) :=
  let len := gst_adapter_available adapter in
  extract_loop (S (Z.to_nat len)) (adapter ++ slack)
    (initial_state parser adapter).

(** Byte-by-byte extraction over such memory, from a parser already in
    status [DATA], until [DONE]. *)
Fixpoint extract_bytewise_with_slack (slack fed rest : list byte)
  (parser : GstMatroskaParser)
  : outcome (GstMatroskaParserResult * GstMatroskaParser) :=
  match rest with
  | [] => Ret (GST_MATROSKA_PARSER_OK, parser)
  | b :: rest' =>
      let adapter := fed ++ [b] in
      r <- extract_data_with_slack slack parser adapter ;;
      match fst r with
      | GST_MATROSKA_PARSER_DONE => Ret r
      | _ => extract_bytewise_with_slack slack adapter rest' (snd r)
      end
  end.

(** ** Sample streams *)

Definition bytes_of (l : list Z) : list byte := map byte_of_Z l.

(** EBML header, 4 bytes of payload. *)
Definition ebml_header_bytes : list Z :=
  [0x1A; 0x45; 0xDF; 0xA3; 0x84; 0x42; 0x86; 0x81; 0x01].

(** Segment of unknown length. *)
Definition segment_bytes : list Z :=
  [0x18; 0x53; 0x80; 0x67; 0x01; 0xFF; 0xFF; 0xFF; 0xFF; 0xFF; 0xFF; 0xFF].

(** SegmentInfo holding TimecodeScale = 1000000. *)
Definition segment_info_bytes : list Z :=
  [0x15; 0x49; 0xA9; 0x66; 0x87; 0x2A; 0xD7; 0xB1; 0x83; 0x0F; 0x42; 0x40].

(** CuePoint: time 0, track 1, cluster position 0. *)
Definition cue_point_1_bytes : list Z :=
  [0xBB; 0x8B; 0xB3; 0x81; 0x00; 0xB7; 0x86; 0xF7; 0x81; 0x01; 0xF1; 0x81;
   0x00].

(** CuePoint: time 5000000000, track 1, cluster position 4096. *)
Definition cue_point_2_bytes : list Z :=
  [0xBB; 0x90; 0xB3; 0x85; 0x01; 0x2A; 0x05; 0xF2; 0x00; 0xB7; 0x87; 0xF7;
   0x81; 0x01; 0xF1; 0x82; 0x10; 0x00].

(** Cues header announcing the 31 bytes of the two cue points. *)
Definition cues_header_bytes : list Z := [0x1C; 0x53; 0xBB; 0x6B; 0x9F].

Definition cluster_bytes : list Z := [0x1F; 0x43; 0xB6; 0x75; 0x81; 0x00].

(** A Void element with one byte of payload. *)
Definition void_bytes : list Z := [0xEC; 0x81; 0x00].

(** The scenario of the specification: header, Segment, SegmentInfo, Cues
    with two cue points, Cluster. *)
Definition sample_stream : list byte :=
  bytes_of (ebml_header_bytes ++ segment_bytes ++ segment_info_bytes
            ++ cues_header_bytes ++ cue_point_1_bytes ++ cue_point_2_bytes
            ++ cluster_bytes).

Definition sample_cues : list GstMatroskaPointData :=
  [mkPoint 0 (mkTrackPos 1 0); mkPoint 5000000000 (mkTrackPos 1 4096)].

(** A parser that has finished on [sample_stream]. *)
Definition sample_finished_parser : GstMatroskaParser :=
  mkParser 69 9 0 1000000 0 69 69 2 (Some sample_cues)
    GST_MATROSKA_PARSER_STATUS_FINISHED false 0.

(** A stream whose second element starts with the byte 0x00. *)
Definition bad_length_stream : list byte :=
  bytes_of (ebml_header_bytes ++ [0x00; 0x00; 0x00]).

(** A Cues element cut short by a Cluster. *)
Definition truncated_cues_stream : list byte :=
  bytes_of (ebml_header_bytes ++ segment_bytes ++ cues_header_bytes
            ++ cluster_bytes).


(** Two windows of a stream that carries a second EBML header. *)
Definition chained_window_1 : list byte :=
  bytes_of (ebml_header_bytes ++ void_bytes).

Definition chained_window_2 : list byte :=
  bytes_of (ebml_header_bytes ++ void_bytes ++ ebml_header_bytes
            ++ cluster_bytes).

(** The same two windows with a Void element in place of the second
    header. *)
Definition plain_window_2 : list byte :=
  bytes_of (ebml_header_bytes ++ void_bytes ++ void_bytes ++ cluster_bytes).

(** The parser after a first call on [chained_window_1]. *)
Definition parser_after_window_1 : GstMatroskaParser :=
  mkParser 0 0 0 0 0 12 12 0 None GST_MATROSKA_PARSER_STATUS_DATA false 0.

(** The magic followed by a size field that starts with the byte 0x00. *)
Definition header_size_error_stream : list byte :=
  bytes_of [0x1A; 0x45; 0xDF; 0xA3; 0x00; 0x00].

(** An EBML header without payload, then the first two bytes of an 8-byte
    id. *)
Definition long_id_window : list byte :=
  bytes_of [0x1A; 0x45; 0xDF; 0xA3; 0x80; 0x01; 0x00].

(** The parser after a first call on the first six bytes of
    [long_id_window]. *)
Definition parser_after_empty_header : GstMatroskaParser :=
  mkParser 0 0 0 0 0 5 5 0 None GST_MATROSKA_PARSER_STATUS_DATA false 0.

(** A stream that ends with the header of an empty Cues element. *)
Definition empty_cues_stream : list byte :=
  bytes_of (ebml_header_bytes ++ segment_bytes ++ segment_info_bytes
            ++ [0x1C; 0x53; 0xBB; 0x6B; 0x80]).

(** ** Big-endian values and encodings *)

(** The unsigned number a byte sequence denotes, most significant byte
    first. *)
Definition be_value (bytes : list byte) : Z :=
  fold_left (fun acc b => acc * 256 + byte_val b) bytes 0.

(** The [n] bytes of the window that start at index [p]. *)
Definition slice (w : list byte) (p : Z) (n : nat) : list byte :=
  take n (drop (Z.to_nat p) w).

(** The [n] low-order bytes of [v], most significant first. *)
Fixpoint be_bytes (n : nat) (v : Z) : list byte :=
  match n with
  | O => []
  | S n' => byte_of_Z ((v / 256 ^ Z.of_nat n') mod 256) :: be_bytes n' v
  end.

(** The EBML coding of the size [m] on [len] bytes: the marker bit in front
    of [7 * len] data bits. *)
Definition encode_vint (len : Z) (m : Z) : list byte :=
  be_bytes (Z.to_nat len) (m + 2 ^ (7 * len)).

(** The order of the statuses in [GstMatroskaParserStatus]. *)
Definition status_rank (st : GstMatroskaParserStatus) : Z :=
  match st with
  | GST_MATROSKA_PARSER_STATUS_INIT => 0
  | GST_MATROSKA_PARSER_STATUS_HEADER => 1
  | GST_MATROSKA_PARSER_STATUS_DATA => 2
  | GST_MATROSKA_PARSER_STATUS_FINISHED => 3
  end.

(** The bytes of an element id as they stand in a stream: at most 8, the
    first one announcing their number. *)
Definition well_formed_id (idb : list byte) : Prop :=
  exists b tl,
    idb = b :: tl
    /\ gst_matroska_parser_read_len b = Z.of_nat (length idb)
    /\ Z.of_nat (length idb) <= 8.

(** The bytes of a size field as they stand in a stream: at most 8, the
    first one announcing their number. *)
Definition well_formed_size (sf : list byte) : Prop :=
  exists b tl,
    sf = b :: tl
    /\ gst_matroska_parser_read_len b = Z.of_nat (length sf)
    /\ Z.of_nat (length sf) <= 8.

(** The masked value of a size field: the number its bytes denote, most
    significant first, without the marker bit that announces the length. *)
Definition masked_value (sf : list byte) : Z :=
  be_value sf - 2 ^ (7 * Z.of_nat (length sf)).

(** The four bytes of [GST_EBML_ID_HEADER]. *)
Definition ebml_magic : list byte := [x1a; x45; xdf; xa3].

(** The cue array as a list: a null [parser->array] holds no cue. *)
Definition cue_list (p : GstMatroskaParser) : list GstMatroskaPointData :=
  match parser_array p with
  | None => []
  | Some l => l
  end.

(** The number of headers with a given id among the dispatched ones. *)
Fixpoint count_id (id : Z) (l : list GstMatroskaEbmlInfo) : Z :=
  match l with
  | [] => 0
  | i :: l' => (if info_id i =? id then 1 else 0) + count_id id l'
  end.

(** ** Well-formed streams *)

(** An element as it lies in a stream: the id bytes, the length of the
    payload coded on [k] bytes, the payload. *)
Definition element (idb : list byte) (k : Z) (payload : list byte)
  : list byte :=
  idb ++ encode_vint k (Z.of_nat (length payload)) ++ payload.

(** The bytes of the ids the loop knows. *)
Definition id_segment : list byte := be_bytes 4 GST_MATROSKA_ID_SEGMENT.
Definition id_segmentinfo : list byte :=
  be_bytes 4 GST_MATROSKA_ID_SEGMENTINFO.
Definition id_timecodescale : list byte :=
  be_bytes 3 GST_MATROSKA_ID_TIMECODESCALE.
Definition id_cues : list byte := be_bytes 4 GST_MATROSKA_ID_CUES.
Definition id_pointentry : list byte :=
  be_bytes 1 GST_MATROSKA_ID_POINTENTRY.
Definition id_cuetime : list byte := be_bytes 1 GST_MATROSKA_ID_CUETIME.
Definition id_cuetrackposition : list byte :=
  be_bytes 1 GST_MATROSKA_ID_CUETRACKPOSITION.
Definition id_cuetrack : list byte := be_bytes 1 GST_MATROSKA_ID_CUETRACK.
Definition id_cueclusterposition : list byte :=
  be_bytes 1 GST_MATROSKA_ID_CUECLUSTERPOSITION.

(** A cue point to be written to a stream: its three numbers, each with
    the number of bytes it is stored on. *)
Record cue_source := mkCue {
  src_time : Z;
  n_time : nat;
  src_track : Z;
  n_track : nat;
  src_pos : Z;
  n_pos : nat
}.

(** A number that fits its [n] bytes, [n] between 1 and 8. *)
Definition uint_fits (n : nat) (v : Z) : Prop :=
  (1 <= n <= 8)%nat /\ 0 <= v < 256 ^ Z.of_nat n.

Definition cue_fits (c : cue_source) : Prop :=
  uint_fits (n_time c) (src_time c)
  /\ uint_fits (n_track c) (src_track c)
  /\ uint_fits (n_pos c) (src_pos c).

(** The array element [c] is parsed into. *)
Definition cue_of (c : cue_source) : GstMatroskaPointData :=
  mkPoint (src_time c) (mkTrackPos (src_track c) (src_pos c)).

(** CuePoint ( CueTime, CueTrackPositions ( CueTrack,
    CueClusterPosition ) ), all sizes coded on [k] bytes. *)
Definition encode_cue (k : Z) (c : cue_source) : list byte :=
  element id_pointentry k
    (element id_cuetime k (be_bytes (n_time c) (src_time c))
     ++ element id_cuetrackposition k
          (element id_cuetrack k (be_bytes (n_track c) (src_track c))
           ++ element id_cueclusterposition k
                (be_bytes (n_pos c) (src_pos c)))).

Fixpoint encode_cues (k : Z) (cs : list cue_source) : list byte :=
  match cs with
  | [] => []
  | c :: cs' => encode_cue k c ++ encode_cues k cs'
  end.

(** A stream that carries its cues in front of its clusters: EBML header
    ([header_payload] is not looked at), the header of a Segment whose size
    field, on [ks] bytes, holds [segment_size] (any value, the reserved
    pattern of an unknown size included), a SegmentInfo holding the
    TimecodeScale [ts] on [n_ts] bytes, the Cues, and whatever follows. *)
Definition cues_first_stream (k ks : Z) (header_payload : list byte)
  (segment_size : Z) (n_ts : nat) (ts : Z) (cs : list cue_source)
  (rest : list byte) : list byte :=
  element ebml_magic k header_payload
  ++ (id_segment ++ encode_vint ks segment_size)
  ++ element id_segmentinfo k
       (element id_timecodescale k (be_bytes n_ts ts))
  ++ element id_cues k (encode_cues k cs)
  ++ rest.

(** The parser [p] with the cue array [arr], the matching count, and the
    consumed-byte counter [consume]. *)
Definition with_cues (p : GstMatroskaParser)
  (arr : list GstMatroskaPointData) (consume : Z) : GstMatroskaParser :=
  set_consume consume
    (set_cue_point_num (Z.of_nat (length arr)) (set_array (Some arr) p)).

(** Where the cue points of [cues_first_stream] start. *)
Definition cues_start (k ks : Z) (header_payload : list byte) (n_ts : nat)
  : Z :=
  (4 + k + Z.of_nat (length header_payload)) + (4 + ks) + (4 + k)
  + (3 + k + Z.of_nat n_ts) + (4 + k).



(** The parser a call leaves behind on a window of [cues_first_stream]
    that ends inside the cue point that follows the cue points [done]:
    the cue points that are complete, the end of the Cues element as
    announced, and the place to resume at. *)
Definition cues_window_result (k ks : Z) (header_payload : list byte)
  (n_ts : nat) (ts : Z) (cs done : list cue_source) : GstMatroskaParser :=
  let header_end := 4 + k + Z.of_nat (length header_payload) in
  let cues_end :=
    cues_start k ks header_payload n_ts
    + Z.of_nat (length (encode_cues k cs)) in
  let resume :=
    cues_start k ks header_payload n_ts
    + Z.of_nat (length (encode_cues k done)) in
  mkParser cues_end header_end 0 ts 0 resume resume
    (Z.of_nat (length done))
    (match done with
     | [] => None
     | _ => Some (map cue_of done)
     end)
    GST_MATROSKA_PARSER_STATUS_DATA false 0.

(** The ids the [switch] of the loop has a case for. *)
Definition handled_ids : list Z :=
  [GST_EBML_ID_HEADER; GST_MATROSKA_ID_SEGMENT; GST_MATROSKA_ID_SEEKHEAD;
   GST_MATROSKA_ID_SEGMENTINFO; GST_MATROSKA_ID_TIMECODESCALE;
   GST_MATROSKA_ID_DURATION; GST_MATROSKA_ID_CUES;
   GST_MATROSKA_ID_POINTENTRY; GST_MATROSKA_ID_CUETIME;
   GST_MATROSKA_ID_CUETRACKPOSITION; GST_MATROSKA_ID_CUECLUSTERPOSITION;
   GST_MATROSKA_ID_CUETRACK; GST_MATROSKA_ID_CLUSTER].

(** An element the loop has no case for, given by its id bytes and its
    payload, with a size that fits [k] bytes. *)
Definition unhandled (k : Z) (e : list byte * list byte) : Prop :=
  well_formed_id (fst e)
  /\ Forall (fun id => be_value (fst e) mod 2 ^ 32 <> id) handled_ids
  /\ Z.of_nat (length (snd e)) < 2 ^ (7 * k) - 1.

Fixpoint encode_others (k : Z) (es : list (list byte * list byte))
  : list byte :=
  match es with
  | [] => []
  | e :: es' => element (fst e) k (snd e) ++ encode_others k es'
  end.

(** A stream whose second element is a Void element of unknown size. *)
Definition unknown_size_stream : list byte :=
  bytes_of (ebml_header_bytes ++ [0xEC; 0xFF; 0x00; 0x00]).

(** * Properties *)

(** ** Bits and bytes *)

Lemma byte_val_range (b : byte) : 0 <= byte_val b < 256.
Proof.
  unfold byte_val. pose proof (Byte.to_N_bounded b) as H. lia.
Qed.

Lemma land_pow2_eqb (a k : Z) :
  0 <= k -> (Z.land a (2 ^ k) =? 0) = negb (Z.testbit a k).
Proof.
  intros Hk. destruct (Z.testbit a k) eqn:Hbit; simpl.
  - apply Z.eqb_neq. intros H0.
    assert (Hk' : Z.testbit (Z.land a (2 ^ k)) k = true).
    { rewrite Z.land_spec, Hbit, Z.pow2_bits_true; auto. }
    rewrite H0, Z.bits_0 in Hk'. discriminate.
  - apply Z.eqb_eq. apply Z.bits_inj'. intros n Hn.
    rewrite Z.land_spec, Z.bits_0, Z.pow2_bits_eqb by assumption.
    destruct (Z.eqb_spec k n) as [->|]; [rewrite Hbit|]; auto using andb_false_r.
Qed.

Lemma shiftr_0x80 (i : Z) : 0 <= i <= 7 -> Z.shiftr 0x80 i = 2 ^ (7 - i).
Proof.
  intros Hi.
  assert (Hc : i = 0 \/ i = 1 \/ i = 2 \/ i = 3 \/ i = 4 \/ i = 5 \/ i = 6
               \/ i = 7) by lia.
  repeat (destruct Hc as [-> | Hc]; [reflexivity|]). subst. reflexivity.
Qed.

(** The scan stops at the first set bit, or runs off after bit 0. *)
Lemma read_len_loop_spec (data : Z) (n : nat) :
  forall i, 0 <= i -> i + Z.of_nat n = 8 ->
    let r := read_len_loop data i n in
    i <= r <= 8
    /\ (forall j, i <= j < r -> Z.testbit data (7 - j) = false)
    /\ (r < 8 -> Z.testbit data (7 - r) = true).
Proof.
  induction n as [|n IH]; intros i Hi Hsum; simpl.
  - split; [lia|]. split; intros; lia.
  - rewrite shiftr_0x80, land_pow2_eqb by lia.
    destruct (Z.testbit data (7 - i)) eqn:Hbit; simpl.
    + split; [lia|]. split; [intros; lia | auto].
    + destruct (IH (i + 1)) as (Hr & Hlow & Hhit); try lia.
      split; [lia|]. split; [|exact Hhit].
      intros j Hj. destruct (Z.eq_dec j i) as [->|Hne]; auto.
      apply Hlow. lia.
Qed.

Lemma read_len_range (b : byte) : 1 <= gst_matroska_parser_read_len b <= 9.
Proof.
  unfold gst_matroska_parser_read_len.
  pose proof (read_len_loop_spec (byte_val b) 8 0) as H.
  cbv zeta in H. destruct H as (H & _); [lia | reflexivity | lia].
Qed.

Lemma read_len_zero_byte (b : byte) :
  gst_matroska_parser_read_len b > 8 <-> b = x00.
Proof.
  split.
  - destruct b; vm_compute; intros H; try reflexivity; discriminate H.
  - intros ->. vm_compute. reflexivity.
Qed.

(** ** Reads through the mapped bytes *)

Lemma load_cons_succ (b : byte) (w : list byte) (p : Z) :
  1 <= p -> load (b :: w) p = load w (p - 1).
Proof.
  intros Hp. unfold load.
  destruct (Z.ltb_spec p 0), (Z.ltb_spec (p - 1) 0); try lia.
  replace (Z.to_nat p) with (S (Z.to_nat (p - 1))) by lia. reflexivity.
Qed.

Lemma read_data_loop_tail (b b' : byte) (rest : list byte) (n : nat) :
  forall p d, 1 <= p ->
    read_data_loop (b :: rest) p n d = read_data_loop (b' :: rest) p n d.
Proof.
  induction n as [|n IH]; intros p d Hp; simpl; auto.
  rewrite !load_cons_succ by lia.
  destruct (load rest (p - 1)); simpl; auto. apply IH. lia.
Qed.

Lemma read_data_len_loop_eq (w : list byte) (n : nat) :
  forall p d, read_data_len_loop w p n d = read_data_loop w p n d.
Proof.
  induction n as [|n IH]; intros p d; simpl; [reflexivity|].
  destruct (load w p); simpl; [apply IH | reflexivity | reflexivity].
Qed.

(** Subtracting the marker bit clears the top [len] bits when [len] is the
    length announced by the byte itself. *)
Lemma marker_subtracted (b : byte) :
  let len := gst_matroska_parser_read_len b in
  len <= 8 ->
  wrap64 (byte_val b - Z.shiftl 1 (8 - len))
  = byte_val (byte_of_Z (Z.land (byte_val b) (Z.ones (8 - len))))
  /\ 0 <= wrap64 (byte_val b - Z.shiftl 1 (8 - len)) < 2 ^ (8 - len).
Proof.
  destruct b; vm_compute; intros H;
    solve [ exfalso; apply H; reflexivity
          | repeat split; discriminate ].
Qed.

(** ** The length prefix *)

(** A header read that starts on the byte 0x00 reports 0 bytes. *)
Lemma read_one_zero_byte (w : list byte) (buf size : Z)
  (p_info : GstMatroskaEbmlInfo) :
  load w buf = Ret x00 ->
  gst_matroska_read_one_ebml_info w buf size p_info = Ret (0, p_info).
Proof.
  intros Hload. unfold gst_matroska_read_one_ebml_info.
  destruct (size =? 0); [reflexivity|].
  rewrite Hload. cbn [bind].
  change (gst_matroska_parser_read_len x00) with 9.
  change (9 >? 8) with true. rewrite orb_true_r. reflexivity.
Qed.

(** C5.  For a byte with at least one set bit, the length returned by
    [gst_matroska_parser_read_len] lies in 1..8 and is the 1-indexed
    position of the first set bit, scanning from bit 7 down to bit 0.  For
    the byte 0x00 the scan finds nothing and the function returns 9, the one
    result outside 1..8, which is how it signals the length error: a header
    read starting on that byte reports 0 bytes. *)
Theorem C5_read_len_first_set_bit (b : byte) :
  (b <> x00 ->
   first_set_bit_position b (gst_matroska_parser_read_len b))
  /\ (b = x00 ->
      gst_matroska_parser_read_len b = 9
      /\ ~ (1 <= gst_matroska_parser_read_len b <= 8)
      /\ forall w buf size p_info,
           load w buf = Ret b ->
           gst_matroska_read_one_ebml_info w buf size p_info
           = Ret (0, p_info)).
Proof.
  split.
  - intros Hb.
    assert (Hle : gst_matroska_parser_read_len b <= 8).
    { destruct (Z_le_gt_dec (gst_matroska_parser_read_len b) 8) as [|Hgt];
        [assumption|].
      apply read_len_zero_byte in Hgt. contradiction. }
    unfold gst_matroska_parser_read_len in *.
    pose proof (read_len_loop_spec (byte_val b) 8 0) as H. cbv zeta in H.
    destruct H as (Hr & Hlow & Hhit); [lia | reflexivity |].
    set (r := read_len_loop (byte_val b) 0 8) in *.
    split; [lia|]. split.
    + replace (8 - (r + 1)) with (7 - r) by lia. apply Hhit. lia.
    + intros j Hj. replace (8 - j) with (7 - (j - 1)) by lia.
      apply Hlow. lia.
  - intros ->. split; [reflexivity|]. split.
    + change (gst_matroska_parser_read_len x00) with 9. lia.
    + intros w buf size p_info. apply read_one_zero_byte.
Qed.

Lemma C5_read_len_first_set_bit_witness :
  first_set_bit_position x1a 4
  /\ gst_matroska_parser_read_len x00 = 9.
Proof.
  split.
  - apply (proj1 (C5_read_len_first_set_bit x1a)). discriminate.
  - apply (proj2 (C5_read_len_first_set_bit x00)). reflexivity.
Defined.

(** ** Masked and raw decoding *)

(** C6, as stated, fails: for the bytes FF 00 and length 2 the code
    subtracts the marker bit of a two-byte field (0x40) from 0xFF and gets
    0xBF00, while clearing the top two bits first gives 0x3F00. *)
Lemma C6_counterexample :
  1 <= 2 <= 8
  /\ gst_matroska_parser_read_data_len (bytes_of [0xFF; 0x00]) 0 2
     = Ret 0xBF00
  /\ decodeMasked_spec (bytes_of [0xFF; 0x00]) 2 = Ret 0x3F00
  /\ gst_matroska_parser_read_data_len (bytes_of [0xFF; 0x00]) 0 2
     <> decodeMasked_spec (bytes_of [0xFF; 0x00]) 2.
Proof.
  split; [lia|]. split; [reflexivity|]. split; [reflexivity|].
  vm_compute. discriminate.
Qed.

(** C6, amended.  For every byte sequence, with [len] the length announced
    by its leading byte (the only way the header reader calls it),
    [gst_matroska_parser_read_data_len] equals
    [gst_matroska_parser_read_data] applied to the sequence whose leading
    byte has its top [len] bits cleared. *)
Theorem C6_masked_is_raw_with_marker_cleared (b : byte) (rest : list byte) :
  gst_matroska_parser_read_data_len (b :: rest) 0
    (gst_matroska_parser_read_len b)
  = decodeMasked_spec (b :: rest) (gst_matroska_parser_read_len b).
Proof.
  unfold decodeMasked_spec, gst_matroska_parser_read_data_len,
    gst_matroska_parser_read_data, clear_marker_bits.
  pose proof (read_len_range b) as Hrange.
  set (len := gst_matroska_parser_read_len b) in *.
  destruct ((len =? 0) || (len >? 8)) eqn:Hguard; [reflexivity|].
  apply orb_false_elim in Hguard. destruct Hguard as [_ Hle].
  assert (Hlen : len <= 8) by lia.
  destruct (marker_subtracted b Hlen) as [Hsub _]. fold len in Hsub.
  change (load (b :: rest) 0) with (Ret b). cbn [bind].
  rewrite Hsub, read_data_len_loop_eq.
  replace (Z.to_nat len) with (S (Z.to_nat (len - 1))) by lia.
  cbn [read_data_loop].
  set (b' := byte_of_Z (Z.land (byte_val b) (Z.ones (8 - len)))).
  change (load (b' :: rest) 0) with (Ret b'). cbn [bind].
  change (wrap64 (Z.shiftl 0 8)) with 0. rewrite Z.lor_0_l.
  change (0 + 1) with 1.
  apply read_data_loop_tail. lia.
Qed.

(** ** Bounds on decoded values *)

Lemma lor_below_pow2 (a b n : Z) :
  0 <= n -> 0 <= a < 2 ^ n -> 0 <= b < 2 ^ n -> 0 <= Z.lor a b < 2 ^ n.
Proof.
  intros Hn Ha Hb.
  assert (Hnn : 0 <= Z.lor a b) by (apply Z.lor_nonneg; lia).
  split; [assumption|].
  destruct (Z.eq_dec (Z.lor a b) 0) as [->|Hne]; [lia|].
  apply Z.log2_lt_pow2; [lia|].
  rewrite Z.log2_lor by lia.
  assert (Hpos : 0 < n).
  { destruct (Z.eq_dec n 0) as [->|]; [|lia].
    change (2 ^ 0) with 1 in *.
    assert (a = 0) by lia. assert (b = 0) by lia. subst.
    exfalso. apply Hne. reflexivity. }
  apply Z.max_lub_lt.
  - destruct (Z.eq_dec a 0) as [->|]; [exact Hpos|].
    apply Z.log2_lt_pow2; lia.
  - destruct (Z.eq_dec b 0) as [->|]; [exact Hpos|].
    apply Z.log2_lt_pow2; lia.
Qed.

(** Shifting in one more byte keeps the accumulator below the next power
    of 256, as long as 64 bits are not exceeded. *)
Lemma shift_in_byte_bound (d k : Z) (b : byte) :
  0 <= k -> k + 8 <= 64 -> 0 <= d < 2 ^ k ->
  0 <= Z.lor (wrap64 (Z.shiftl d 8)) (byte_val b) < 2 ^ (k + 8).
Proof.
  intros Hk Hk8 Hd. pose proof (byte_val_range b) as Hb.
  assert (Hpow : 2 ^ (k + 8) = 2 ^ k * 256).
  { rewrite Z.pow_add_r by lia. reflexivity. }
  assert (Hmono : 2 ^ (k + 8) <= 2 ^ 64)
    by (apply Z.pow_le_mono_r; lia).
  assert (Hk1 : 1 <= 2 ^ k) by (pose proof (Z.pow_pos_nonneg 2 k); lia).
  apply lor_below_pow2; [lia| |lia].
  unfold wrap64. rewrite Z.shiftl_mul_pow2 by lia.
  change (2 ^ 8) with 256. rewrite Z.mod_small; lia.
Qed.

Lemma read_data_loop_bound (w : list byte) (n : nat) :
  forall p d k m,
    0 <= k -> k + 8 * Z.of_nat n <= 64 -> 0 <= d < 2 ^ k ->
    read_data_loop w p n d = Ret m ->
    0 <= m < 2 ^ (k + 8 * Z.of_nat n).
Proof.
  induction n as [|n IH]; intros p d k m Hk Hfit Hd Hrun; simpl in Hrun.
  - inversion Hrun; subst. replace (k + 8 * Z.of_nat 0) with k by lia.
    exact Hd.
  - destruct (load w p) as [b| |]; simpl in Hrun; try discriminate.
    replace (k + 8 * Z.of_nat (S n)) with ((k + 8) + 8 * Z.of_nat n) by lia.
    assert (Hk8 : k + 8 <= 64) by lia.
    pose proof (shift_in_byte_bound d k b Hk Hk8 Hd) as Hstep.
    eapply IH; [| |exact Hstep|exact Hrun]; lia.
Qed.

(** A size field of announced length [len] decodes to fewer than [7 * len]
    bits. *)
Lemma masked_value_bound (w : list byte) (p m : Z) (b : byte) :
  load w p = Ret b ->
  gst_matroska_parser_read_len b <= 8 ->
  gst_matroska_parser_read_data_len w p (gst_matroska_parser_read_len b)
  = Ret m ->
  0 <= m < 2 ^ (7 * gst_matroska_parser_read_len b).
Proof.
  intros Hload Hle Hrun.
  pose proof (read_len_range b) as Hrange.
  destruct (marker_subtracted b Hle) as [_ Hsub].
  unfold gst_matroska_parser_read_data_len in Hrun.
  set (len := gst_matroska_parser_read_len b) in *.
  destruct ((len =? 0) || (len >? 8)) eqn:Hguard.
  { apply orb_true_iff in Hguard. lia. }
  rewrite Hload in Hrun. cbn [bind] in Hrun.
  rewrite read_data_len_loop_eq in Hrun.
  apply read_data_loop_bound with (k := 8 - len) in Hrun; try lia.
  replace (8 - len + 8 * Z.of_nat (Z.to_nat (len - 1))) with (7 * len)
    in Hrun by lia.
  exact Hrun.
Qed.

Lemma unknown_length_table (len : Z) :
  1 <= len <= 8 ->
  nth (Z.to_nat (len - 1)) unknown_length 0 = reserved_pattern len.
Proof.
  intros Hlen.
  assert (Hc : len = 1 \/ len = 2 \/ len = 3 \/ len = 4 \/ len = 5
               \/ len = 6 \/ len = 7 \/ len = 8) by lia.
  repeat (destruct Hc as [-> | Hc]; [reflexivity|]). subst. reflexivity.
Qed.

Lemma reserved_pattern_bound (len : Z) :
  1 <= len <= 8 -> 0 < reserved_pattern len < UNKNOWN_SIZE.
Proof.
  intros Hlen.
  assert (Hc : len = 1 \/ len = 2 \/ len = 3 \/ len = 4 \/ len = 5
               \/ len = 6 \/ len = 7 \/ len = 8) by lia.
  repeat (destruct Hc as [-> | Hc]; [vm_compute; split; reflexivity|]).
  subst. vm_compute; split; reflexivity.
Qed.

(** ** What a successful header read has done *)

Lemma read_one_success (w : list byte) (buf size : Z)
  (p_info info : GstMatroskaEbmlInfo) (bytes : Z) :
  gst_matroska_read_one_ebml_info w buf size p_info = Ret (bytes, info) ->
  bytes <> 0 ->
  exists b1 b2 id m,
    let len1 := gst_matroska_parser_read_len b1 in
    let len2 := gst_matroska_parser_read_len b2 in
    load w buf = Ret b1
    /\ 1 <= len1 <= 8 /\ len1 < size
    /\ gst_matroska_parser_read_data w buf len1 = Ret id
    /\ load w (buf + len1) = Ret b2
    /\ 1 <= len2 <= 8 /\ len2 < wrap64 (size - len1)
    /\ gst_matroska_parser_read_data_len w (buf + len1) len2 = Ret m
    /\ info = mkInfo (wrap32 id) (check_unknown_length len2 m)
                (len1 + len2) (buf + len1 + len2)
    /\ bytes = wrap64 (len1 + len2 + check_unknown_length len2 m).
Proof.
  unfold gst_matroska_read_one_ebml_info. intros Hrun Hbytes.
  destruct (size =? 0); [inversion Hrun; subst; contradiction|].
  destruct (load w buf) as [b1| |] eqn:Hb1; cbn [bind] in Hrun;
    try discriminate.
  pose proof (read_len_range b1) as Hr1.
  destruct ((size <=? gst_matroska_parser_read_len b1)
            || (gst_matroska_parser_read_len b1 >? 8)) eqn:Hg1;
    [inversion Hrun; subst; contradiction|].
  apply orb_false_elim in Hg1. destruct Hg1 as [Hg1a Hg1b].
  destruct (gst_matroska_parser_read_data w buf
              (gst_matroska_parser_read_len b1)) as [id| |] eqn:Hid;
    cbn [bind] in Hrun; try discriminate.
  destruct (load w (buf + gst_matroska_parser_read_len b1)) as [b2| |]
    eqn:Hb2; cbn [bind] in Hrun; try discriminate.
  pose proof (read_len_range b2) as Hr2.
  destruct ((wrap64 (size - gst_matroska_parser_read_len b1)
             <=? gst_matroska_parser_read_len b2)
            || (gst_matroska_parser_read_len b2 >? 8)) eqn:Hg2;
    [inversion Hrun; subst; contradiction|].
  apply orb_false_elim in Hg2. destruct Hg2 as [Hg2a Hg2b].
  destruct (gst_matroska_parser_read_data_len w
              (buf + gst_matroska_parser_read_len b1)
              (gst_matroska_parser_read_len b2)) as [m| |] eqn:Hm;
    cbn [bind] in Hrun; try discriminate.
  inversion Hrun; subst. cbn [info_id].
  exists b1, b2, id, m. cbv zeta.
  repeat split;
    first [assumption | lia | reflexivity | f_equal; lia].
Qed.

(** ** The unknown-length sentinel *)

(** Each reserved pattern, fed through the header reader, comes out as
    the sentinel; a neighbouring value comes out as itself. *)
Example unknown_length_each_size :
  map (fun size_field =>
         r <- gst_matroska_read_one_ebml_info
                (bytes_of ([0xEC] ++ size_field ++ [0])) 0
                (Z.of_nat (length size_field) + 2) uninit_info ;;
         Ret (info_size (snd r)))
    [[0xFF]; [0x7F; 0xFF]; [0x3F; 0xFF; 0xFF]; [0x1F; 0xFF; 0xFF; 0xFF];
     [0x0F; 0xFF; 0xFF; 0xFF; 0xFF]; [0x07; 0xFF; 0xFF; 0xFF; 0xFF; 0xFF];
     [0x03; 0xFF; 0xFF; 0xFF; 0xFF; 0xFF; 0xFF];
     [0x01; 0xFF; 0xFF; 0xFF; 0xFF; 0xFF; 0xFF; 0xFF];
     [0xFE]; [0x7F; 0xFE]; [0x01; 0xFF; 0xFF; 0xFF; 0xFF; 0xFF; 0xFF; 0xFE]]
  = [Ret UNKNOWN_SIZE; Ret UNKNOWN_SIZE; Ret UNKNOWN_SIZE; Ret UNKNOWN_SIZE;
     Ret UNKNOWN_SIZE; Ret UNKNOWN_SIZE; Ret UNKNOWN_SIZE; Ret UNKNOWN_SIZE;
     Ret 0x7E; Ret 0x3FFE; Ret 0x00FFFFFFFFFFFFFE].
Proof. vm_compute. reflexivity. Qed.

(** ** One iteration of the loop *)

Lemma wrap64_nonneg (x : Z) : 0 <= wrap64 x < 2 ^ 64.
Proof. unfold wrap64. apply Z.mod_pos_bound. reflexivity. Qed.

Lemma wrap64_le (x : Z) : 0 <= x -> wrap64 x <= x.
Proof. intros Hx. unfold wrap64. apply Z.mod_le; [assumption|reflexivity]. Qed.

Lemma wrap64_small (x : Z) : 0 <= x < 2 ^ 64 -> wrap64 x = x.
Proof. intros Hx. unfold wrap64. apply Z.mod_small. assumption. Qed.

Lemma check_unknown_length_bound (len m : Z) :
  1 <= len <= 8 -> 0 <= m < 2 ^ (7 * len) ->
  0 <= check_unknown_length len m < 2 ^ 63.
Proof.
  intros Hlen Hm. unfold check_unknown_length.
  destruct (_ =? _); [vm_compute; split; [discriminate|reflexivity]|].
  assert (2 ^ (7 * len) <= 2 ^ 63) by (apply Z.pow_le_mono_r; lia).
  lia.
Qed.

(** What is known of the header when the [switch] is entered. *)
Lemma header_at_some (w : list byte) (s : loop_state)
  (info : GstMatroskaEbmlInfo) :
  header_at w s = Some info ->
  exists bytes,
    gst_matroska_read_one_ebml_info w (st_offset s) (st_len s) (st_info s)
    = Ret (bytes, info)
    /\ bytes = info_data_offset info + info_size info
    /\ 2 <= info_data_offset info <= 16
    /\ info_data_offset info < st_len s
    /\ 0 <= info_size info < 2 ^ 63
    /\ 0 < adjust_consume bytes info <= st_len s
    /\ (adjust_consume bytes info = bytes
        \/ adjust_consume bytes info = info_data_offset info).
Proof.
  unfold header_at. intros H.
  destruct (gst_matroska_read_one_ebml_info w (st_offset s) (st_len s)
              (st_info s)) as [[bytes info']| |] eqn:Hread; try discriminate.
  cbn [fst snd] in H.
  destruct ((adjust_consume bytes info' =? 0)
            || (st_len s <? adjust_consume bytes info')) eqn:Hcheck;
    [discriminate|].
  inversion H; subst info'. clear H.
  apply orb_false_elim in Hcheck. destruct Hcheck as [Hnz Hfit].
  apply Z.eqb_neq in Hnz. apply Z.ltb_ge in Hfit.
  assert (Hbytes : bytes <> 0).
  { intros ->. apply Hnz. reflexivity. }
  destruct (read_one_success _ _ _ _ _ _ Hread Hbytes)
    as (b1 & b2 & id & m & Hs). cbv zeta in Hs.
  destruct Hs as (Hb1 & Hr1 & Hlt1 & _ & Hb2 & Hr2 & Hlt2 & Hm & Hinfo & Hb).
  pose proof (masked_value_bound _ _ _ _ Hb2 (proj2 Hr2) Hm) as Hbound.
  pose proof (check_unknown_length_bound _ _ Hr2 Hbound) as Hsz.
  pose proof (wrap64_le (st_len s - gst_matroska_parser_read_len b1)) as Hw.
  assert (Hexact : bytes = info_data_offset info + info_size info).
  { subst info bytes. cbn [info_data_offset info_size].
    apply wrap64_small. change (2 ^ 64) with (2 * 2 ^ 63). lia. }
  assert (Hadj : adjust_consume bytes info = bytes
                 \/ adjust_consume bytes info = info_data_offset info).
  { unfold adjust_consume.
    destruct (negb (bytes =? 0)); [|left; reflexivity].
    destruct (_ || _); [|left; reflexivity].
    destruct (bytes >? info_size info); [|left; reflexivity].
    right. rewrite Hexact.
    replace (info_data_offset info + info_size info - info_size info)
      with (info_data_offset info) by lia.
    subst info. cbn [info_data_offset]. apply wrap64_small.
    change (2 ^ 64) with 18446744073709551616. lia. }
  exists bytes. split; [reflexivity|]. split; [exact Hexact|].
  subst info. cbn [info_data_offset info_size] in *.
  repeat split; lia.
Qed.

Lemma assign_entry_inv (w : list byte) (entry : option Z)
  (info : GstMatroskaEbmlInfo)
  (f : Z -> GstMatroskaPointData -> GstMatroskaPointData)
  (p p1 : GstMatroskaParser) :
  assign_entry w entry info f p = Ret p1 ->
  (entry = None /\ p1 = p)
  \/ (exists i v l e,
        entry = Some i
        /\ gst_matroska_parser_read_data w (info_data_buf info)
             (info_size info) = Ret v
        /\ parser_array p = Some l
        /\ l !! Z.to_nat i = Some e
        /\ p1 = set_array (Some (<[Z.to_nat i := f v e]> l)) p).
Proof.
  unfold assign_entry, store_entry. intros H.
  destruct entry as [i|]; [right | left; inversion H; auto].
  destruct (gst_matroska_parser_read_data w (info_data_buf info)
              (info_size info)) as [v| |]; cbn [bind] in H;
    try discriminate.
  destruct (parser_array p) as [l|]; try discriminate.
  destruct (l !! Z.to_nat i) as [e|] eqn:He; try discriminate.
  inversion H. exists i, v, l, e. auto.
Qed.

Ltac id_facts :=
  repeat match goal with
         | E : (_ =? _) = true |- _ => apply Z.eqb_eq in E
         | E : (_ =? _) = false |- _ => apply Z.eqb_neq in E
         end.

Ltac unfold_ids :=
  unfold GST_EBML_ID_HEADER, GST_MATROSKA_ID_SEGMENT,
    GST_MATROSKA_ID_CLUSTER, GST_MATROSKA_ID_SEEKHEAD,
    GST_MATROSKA_ID_SEGMENTINFO, GST_MATROSKA_ID_TIMECODESCALE,
    GST_MATROSKA_ID_DURATION, GST_MATROSKA_ID_CUES,
    GST_MATROSKA_ID_POINTENTRY, GST_MATROSKA_ID_CUETIME,
    GST_MATROSKA_ID_CUETRACKPOSITION, GST_MATROSKA_ID_CUECLUSTERPOSITION,
    GST_MATROSKA_ID_CUETRACK in *.

Ltac dispatch_cases H :=
  unfold dispatch in H;
  repeat match type of H with
         | context [if ?c then _ else _] => destruct c eqn:?
         end;
  repeat match type of H with
         | context [bind ?m _] =>
             let E := fresh "Hm" in
             destruct m eqn:E; cbn [bind] in H; try discriminate H
         end;
  try (inversion H; subst; clear H);
  repeat match goal with
         | E : assign_entry _ _ _ _ _ = Ret _ |- _ =>
             apply assign_entry_inv in E;
             destruct E as [[? ?] | (? & ? & ? & ? & ? & ? & ? & ? & ?)];
             subst
         end;
  id_facts.

(** What the [switch] leaves alone. *)
Lemma dispatch_next (w : list byte) (p p1 : GstMatroskaParser)
  (info : GstMatroskaEbmlInfo) (c0 c : Z) (entry : option Z) :
  dispatch w p info c0 entry = Ret (Next p1 c) ->
  (c = c0 \/ c = info_data_offset info)
  /\ parser_status p1 = parser_status p
  /\ parser_offset p1 = parser_offset p
  /\ (info_id info <> GST_EBML_ID_HEADER ->
      parser_consume p1 = parser_consume p)
  /\ (info_id info <> GST_MATROSKA_ID_CUES -> parser_len p1 = parser_len p)
  /\ info_id info <> GST_MATROSKA_ID_CLUSTER.
Proof.
  intros H. dispatch_cases H; cbn;
    repeat split; auto; try congruence;
    unfold_ids; lia.
Qed.

Lemma dispatch_leave (w : list byte) (p p1 : GstMatroskaParser)
  (info : GstMatroskaEbmlInfo) (c0 : Z) (entry : option Z)
  (res : GstMatroskaParserResult) :
  dispatch w p info c0 entry = Ret (Leave res p1) ->
  info_id info = GST_MATROSKA_ID_CLUSTER
  /\ res = GST_MATROSKA_PARSER_DONE /\ p1 = p.
Proof.
  intros H. dispatch_cases H. auto.
Qed.

(** The consumed length the [switch] is entered with. *)
Lemma extract_step_inv (w : list byte) (s : loop_state) (sr : step_result) :
  extract_step w s = Ret sr ->
  match header_at w s with
  | None =>
      sr = Return GST_MATROSKA_PARSER_OK
             (if negb (st_offset s =? 0)
              then set_offset (st_offset s) (st_parser s)
              else st_parser s)
  | Some info =>
      let c0 :=
        adjust_consume (info_data_offset info + info_size info) info in
      let entry := current_entry (st_parser s) (st_entry s) in
      exists d,
        dispatch w (st_parser s) info c0 entry = Ret d
        /\ sr = match d with
                | Leave res p => Return res p
                | Next p c => advance s entry info p c
                end
  end.
Proof.
  intros Hstep.
  destruct (header_at w s) as [info|] eqn:Hh.
  - destruct (header_at_some _ _ _ Hh) as (bytes & Hread & Hbytes & _).
    unfold header_at in Hh. unfold extract_step in Hstep.
    rewrite Hread in Hh, Hstep. cbn [bind fst snd] in Hh, Hstep.
    destruct ((adjust_consume bytes info =? 0)
              || (st_len s <? adjust_consume bytes info)); [discriminate|].
    subst bytes. cbv zeta.
    destruct (dispatch w (st_parser s) info _ _) as [d| |];
      cbn [bind] in Hstep; try discriminate.
    exists d. split; [reflexivity|].
    destruct d; inversion Hstep; reflexivity.
  - unfold header_at in Hh. unfold extract_step in Hstep.
    destruct (gst_matroska_read_one_ebml_info w (st_offset s) (st_len s)
                (st_info s)) as [r| |]; cbn [bind] in Hstep;
      try discriminate.
    destruct ((adjust_consume (fst r) (snd r) =? 0)
              || (st_len s <? adjust_consume (fst r) (snd r)));
      [|discriminate].
    inversion Hstep. reflexivity.
Qed.

(** An iteration that goes round again has dispatched a header other than
    a Cluster and has shortened [len] by a positive amount. *)
Lemma extract_step_continue (w : list byte) (s s' : loop_state) :
  extract_step w s = Ret (Continue s') ->
  exists info p1 c,
    header_at w s = Some info
    /\ info_id info <> GST_MATROSKA_ID_CLUSTER
    /\ dispatch w (st_parser s) info
         (adjust_consume (info_data_offset info + info_size info) info)
         (current_entry (st_parser s) (st_entry s)) = Ret (Next p1 c)
    /\ 0 < c <= st_len s
    /\ s' = mkState (set_consume (wrap64 (parser_consume p1 + c)) p1)
              (wrap64 (st_offset s + c)) (wrap64 (st_len s - c))
              (current_entry (st_parser s) (st_entry s)) info
    /\ (parser_len p1 = 0
        \/ wrap64 (parser_consume p1 + c) < parser_len p1).
Proof.
  intros Hstep. pose proof (extract_step_inv _ _ _ Hstep) as Hinv.
  destruct (header_at w s) as [info|] eqn:Hh; [|discriminate].
  cbv zeta in Hinv. destruct Hinv as (d & Hd & Hsr).
  destruct d as [p1 c | res p1]; [|discriminate].
  destruct (dispatch_next _ _ _ _ _ _ _ Hd) as (Hc & _ & _ & _ & _ & Hnc).
  destruct (header_at_some _ _ _ Hh)
    as (bytes & _ & Hbytes & Hoff & Hofflt & _ & Hadj & _).
  rewrite Hbytes in Hadj.
  exists info, p1, c. split; [reflexivity|]. split; [exact Hnc|].
  split; [exact Hd|]. split; [destruct Hc as [-> | ->]; lia|].
  unfold advance in Hsr. cbn [parser_len parser_consume set_consume] in Hsr.
  destruct (negb (parser_len p1 =? 0)
            && (wrap64 (parser_consume p1 + c) >=? parser_len p1)) eqn:Hend;
    [discriminate|].
  inversion Hsr. split; [reflexivity|].
  apply andb_false_iff in Hend. destruct Hend as [Hz | Hlt].
  - left. apply negb_false_iff in Hz. apply Z.eqb_eq. exact Hz.
  - right. lia.
Qed.

(** ** The loop as a whole *)

(** Only the bounded unrolling of the loop can run out of fuel. *)
Lemma load_fuel (w : list byte) (i : Z) : load w i <> OutOfFuel.
Proof.
  unfold load. destruct (i <? 0); [discriminate|].
  destruct (w !! Z.to_nat i); discriminate.
Qed.

Lemma bind_fuel {A B : Type} (m : outcome A) (k : A -> outcome B) :
  m <> OutOfFuel -> (forall a, k a <> OutOfFuel) -> bind m k <> OutOfFuel.
Proof.
  intros Hm Hk. destruct m; cbn [bind]; [apply Hk | discriminate |].
  exfalso. apply Hm. reflexivity.
Qed.

Lemma read_data_loop_fuel (w : list byte) (n : nat) :
  forall p d, read_data_loop w p n d <> OutOfFuel.
Proof.
  induction n as [|n IH]; intros p d; cbn [read_data_loop]; [discriminate|].
  apply bind_fuel; [apply load_fuel | intros b; apply IH].
Qed.

Lemma read_data_fuel (w : list byte) (p len : Z) :
  gst_matroska_parser_read_data w p len <> OutOfFuel.
Proof.
  unfold gst_matroska_parser_read_data.
  destruct (_ || _); [discriminate | apply read_data_loop_fuel].
Qed.

Lemma read_data_len_fuel (w : list byte) (p len : Z) :
  gst_matroska_parser_read_data_len w p len <> OutOfFuel.
Proof.
  unfold gst_matroska_parser_read_data_len.
  destruct (_ || _); [discriminate|].
  apply bind_fuel; [apply load_fuel|]. intros b.
  rewrite read_data_len_loop_eq. apply read_data_loop_fuel.
Qed.

Lemma read_one_fuel (w : list byte) (buf size : Z)
  (p_info : GstMatroskaEbmlInfo) :
  gst_matroska_read_one_ebml_info w buf size p_info <> OutOfFuel.
Proof.
  unfold gst_matroska_read_one_ebml_info.
  destruct (size =? 0); [discriminate|].
  apply bind_fuel; [apply load_fuel|]. intros b1.
  destruct (_ || _); [discriminate|].
  apply bind_fuel; [apply read_data_fuel|]. intros id.
  apply bind_fuel; [apply load_fuel|]. intros b2.
  destruct (_ || _); [discriminate|].
  apply bind_fuel; [apply read_data_len_fuel|]. intros m. discriminate.
Qed.

Lemma assign_entry_fuel (w : list byte) (entry : option Z)
  (info : GstMatroskaEbmlInfo)
  (f : Z -> GstMatroskaPointData -> GstMatroskaPointData)
  (p : GstMatroskaParser) :
  assign_entry w entry info f p <> OutOfFuel.
Proof.
  unfold assign_entry, store_entry. destruct entry as [i|]; [|discriminate].
  apply bind_fuel; [apply read_data_fuel|]. intros v.
  destruct (parser_array p) as [l|]; [|discriminate].
  destruct (l !! Z.to_nat i); discriminate.
Qed.

Lemma dispatch_fuel (w : list byte) (p : GstMatroskaParser)
  (info : GstMatroskaEbmlInfo) (c0 : Z) (entry : option Z) :
  dispatch w p info c0 entry <> OutOfFuel.
Proof.
  unfold dispatch.
  repeat match goal with
         | |- context [if ?c then _ else _] => destruct c
         end;
    try discriminate;
    (apply bind_fuel;
     [first [apply read_data_fuel | apply assign_entry_fuel]
     | intros; discriminate]).
Qed.

Lemma extract_step_fuel (w : list byte) (s : loop_state) :
  extract_step w s <> OutOfFuel.
Proof.
  unfold extract_step.
  apply bind_fuel; [apply read_one_fuel|]. intros r.
  destruct (_ || _); [discriminate|].
  apply bind_fuel; [apply dispatch_fuel|]. intros [p c | res p]; discriminate.
Qed.

(** [len + 1] iterations are enough: the loop never runs out of fuel. *)
Lemma extract_loop_fuel (w : list byte) (fuel : nat) :
  forall s, (Z.to_nat (st_len s) < fuel)%nat ->
    extract_loop fuel w s <> OutOfFuel.
Proof.
  induction fuel as [|fuel IH]; intros s Hfuel; [lia|].
  cbn [extract_loop].
  destruct (extract_step w s) as [[s'|res p]| |] eqn:Hstep; cbn [bind];
    try discriminate.
  - apply IH.
    destruct (extract_step_continue _ _ _ Hstep)
      as (info & p1 & c & _ & _ & _ & Hc & -> & _).
    cbn [st_len].
    pose proof (wrap64_le (st_len s - c)).
    pose proof (wrap64_nonneg (st_len s - c)).
    lia.
  - exfalso. exact (extract_step_fuel _ _ Hstep).
Qed.

Theorem extract_data_total (parser : GstMatroskaParser) (adapter : GstAdapter) :
  gst_matroska_parser_extract_data parser adapter <> OutOfFuel.
Proof.
  unfold gst_matroska_parser_extract_data. apply extract_loop_fuel.
  unfold initial_state. cbn [st_len]. lia.
Qed.

(** More fuel does not change a result. *)
Lemma extract_loop_more_fuel (w : list byte) (fuel : nat) :
  forall s r, extract_loop fuel w s = Ret r ->
    forall fuel', (fuel <= fuel')%nat -> extract_loop fuel' w s = Ret r.
Proof.
  induction fuel as [|fuel IH]; intros s r Hrun fuel' Hle; [discriminate|].
  destruct fuel' as [|fuel']; [lia|].
  cbn [extract_loop] in *.
  destruct (extract_step w s) as [[s'|res p]| |]; cbn [bind] in *;
    try discriminate; [|assumption].
  apply IH with (fuel' := fuel') in Hrun; [assumption | lia].
Qed.

Lemma extract_loop_continue (w : list byte) (fuel : nat)
  (s s' : loop_state) :
  extract_step w s = Ret (Continue s') ->
  extract_loop (S fuel) w s = extract_loop fuel w s'.
Proof. intros H. cbn [extract_loop]. rewrite H. reflexivity. Qed.

(** The loop only ever returns [OK] or [DONE], and does not touch the
    status. *)
Lemma extract_loop_result (w : list byte) (fuel : nat) :
  forall s res p,
    extract_loop fuel w s = Ret (res, p) ->
    (res = GST_MATROSKA_PARSER_OK \/ res = GST_MATROSKA_PARSER_DONE)
    /\ parser_status p = parser_status (st_parser s).
Proof.
  induction fuel as [|fuel IH]; intros s res p Hrun; [discriminate|].
  cbn [extract_loop] in Hrun.
  destruct (extract_step w s) as [[s'|res' p']| |] eqn:Hstep;
    cbn [bind] in Hrun; try discriminate.
  - destruct (IH _ _ _ Hrun) as [Hres Hst]. split; [exact Hres|].
    rewrite Hst.
    destruct (extract_step_continue _ _ _ Hstep)
      as (info & p1 & c & _ & _ & Hd & _ & -> & _).
    destruct (dispatch_next _ _ _ _ _ _ _ Hd) as (_ & Hs & _).
    cbn. exact Hs.
  - inversion Hrun; subst res' p'. clear Hrun.
    pose proof (extract_step_inv _ _ _ Hstep) as Hinv.
    destruct (header_at w s) as [info|].
    + cbv zeta in Hinv. destruct Hinv as (d & Hd & Hsr).
      destruct d as [p1 c | res1 p1].
      * destruct (dispatch_next _ _ _ _ _ _ _ Hd) as (_ & Hs & _).
        unfold advance in Hsr.
        destruct (_ && _); inversion Hsr; subst. split; [auto|]. exact Hs.
      * destruct (dispatch_leave _ _ _ _ _ _ _ Hd) as (_ & -> & ->).
        inversion Hsr; subst. auto.
    + inversion Hinv; subst. split; [auto|].
      destruct (negb _); reflexivity.
Qed.

(** An iteration that leaves the loop does so for one of three reasons:
    the header read or the integrity check failed, a Cluster was dispatched,
    or the consumed-byte counter has reached the recorded end of the Cues
    element. *)
Lemma extract_step_return (w : list byte) (s : loop_state)
  (res : GstMatroskaParserResult) (p' : GstMatroskaParser) :
  extract_step w s = Ret (Return res p') ->
  (header_at w s = None
   /\ res = GST_MATROSKA_PARSER_OK
   /\ p' = (if negb (st_offset s =? 0)
            then set_offset (st_offset s) (st_parser s)
            else st_parser s))
  \/ (exists info,
        header_at w s = Some info
        /\ info_id info = GST_MATROSKA_ID_CLUSTER
        /\ res = GST_MATROSKA_PARSER_DONE
        /\ p' = st_parser s)
  \/ (exists info p1 c,
        header_at w s = Some info
        /\ info_id info <> GST_MATROSKA_ID_CLUSTER
        /\ dispatch w (st_parser s) info
             (adjust_consume (info_data_offset info + info_size info) info)
             (current_entry (st_parser s) (st_entry s)) = Ret (Next p1 c)
        /\ 0 < c <= st_len s
        /\ res = GST_MATROSKA_PARSER_DONE
        /\ p' = set_offset (wrap64 (st_offset s + c))
                  (set_consume (wrap64 (parser_consume p1 + c)) p1)
        /\ parser_len p1 <> 0
        /\ parser_len p1 <= wrap64 (parser_consume p1 + c)).
Proof.
  intros Hstep. pose proof (extract_step_inv _ _ _ Hstep) as Hinv.
  destruct (header_at w s) as [info|] eqn:Hh.
  - right. cbv zeta in Hinv. destruct Hinv as (d & Hd & Hsr).
    destruct d as [p1 c | res1 p1].
    + right.
      destruct (dispatch_next _ _ _ _ _ _ _ Hd) as (Hc & _ & _ & _ & _ & Hnc).
      destruct (header_at_some _ _ _ Hh)
        as (bytes & _ & Hbytes & Hoff & Hofflt & _ & Hadj & _).
      rewrite Hbytes in Hadj.
      exists info, p1, c. split; [reflexivity|]. split; [exact Hnc|].
      split; [exact Hd|]. split; [destruct Hc as [-> | ->]; lia|].
      unfold advance in Hsr.
      cbn [parser_len parser_consume set_consume] in Hsr.
      destruct (negb (parser_len p1 =? 0)
                && (wrap64 (parser_consume p1 + c) >=? parser_len p1))
        eqn:Hend; [|discriminate].
      inversion Hsr. apply andb_true_iff in Hend. destruct Hend as [Hz Hge].
      apply negb_true_iff, Z.eqb_neq in Hz.
      repeat split; auto. lia.
    + left. destruct (dispatch_leave _ _ _ _ _ _ _ Hd) as (Hid & -> & ->).
      inversion Hsr. exists info. auto.
  - left. inversion Hinv. auto.
Qed.

Lemma dispatched_unfold (fuel : nat) (w : list byte) (s : loop_state)
  (info : GstMatroskaEbmlInfo) :
  header_at w s = Some info ->
  dispatched (S fuel) w s
  = info :: match extract_step w s with
            | Ret (Continue s') => dispatched fuel w s'
            | _ => []
            end.
Proof. intros H. cbn [dispatched]. rewrite H. reflexivity. Qed.

Lemma dispatched_at_headers (fuel : nat) (w : list byte) :
  forall s, map snd (dispatched_at fuel w s) = dispatched fuel w s.
Proof.
  induction fuel as [|fuel IH]; intros s; [reflexivity|].
  cbn [dispatched_at dispatched].
  destruct (header_at w s) as [info|]; [|reflexivity].
  cbn [map snd]. f_equal.
  destruct (extract_step w s) as [[s'|res p]| |]; try reflexivity.
  apply IH.
Qed.

Lemma dispatched_at_unfold (fuel : nat) (w : list byte) (s : loop_state)
  (info : GstMatroskaEbmlInfo) :
  header_at w s = Some info ->
  dispatched_at (S fuel) w s
  = (parser_consume (st_parser s), info)
    :: match extract_step w s with
       | Ret (Continue s') => dispatched_at fuel w s'
       | _ => []
       end.
Proof. intros H. cbn [dispatched_at]. rewrite H. reflexivity. Qed.

(** What the [switch] does to the counter: the EBML header case sets it to
    0, every other case leaves it. *)
Lemma dispatch_consume (w : list byte) (p p1 : GstMatroskaParser)
  (info : GstMatroskaEbmlInfo) (c0 c : Z) (entry : option Z) :
  dispatch w p info c0 entry = Ret (Next p1 c) ->
  parser_consume p1
  = if info_id info =? GST_EBML_ID_HEADER then 0 else parser_consume p.
Proof.
  intros H.
  destruct (Z.eqb_spec (info_id info) GST_EBML_ID_HEADER) as [Hid | Hid].
  - unfold dispatch in H. rewrite Hid in H.
    change (GST_EBML_ID_HEADER =? GST_EBML_ID_HEADER) with true in H.
    inversion H. reflexivity.
  - destruct (dispatch_next _ _ _ _ _ _ _ H) as (_ & _ & _ & Hc & _).
    exact (Hc Hid).
Qed.

(** As long as no EBML header is dispatched while the counter is non-zero,
    and the 64-bit counter cannot wrap, the loop only adds to
    [parser->consume]. *)
Lemma extract_loop_consume_mono (w : list byte) (fuel : nat) :
  forall s res p',
    extract_loop fuel w s = Ret (res, p') ->
    Forall header_at_zero (dispatched_at fuel w s) ->
    0 <= parser_consume (st_parser s) ->
    parser_consume (st_parser s) + st_len s < 2 ^ 64 ->
    parser_consume (st_parser s) <= parser_consume p'.
Proof.
  induction fuel as [|fuel IH]; intros s res p' Hrun Hids Hnn Hfit;
    [discriminate|].
  cbn [extract_loop] in Hrun.
  destruct (extract_step w s) as [[s'|res' p'']| |] eqn:Hstep;
    cbn [bind] in Hrun; try discriminate.
  - destruct (extract_step_continue _ _ _ Hstep)
      as (info & p1 & c & Hh & _ & Hd & Hc & Hs' & _).
    rewrite (dispatched_at_unfold _ _ _ _ Hh), Hstep in Hids.
    apply Forall_cons in Hids. destruct Hids as [Hid Hids].
    unfold header_at_zero in Hid. cbn [fst snd] in Hid.
    pose proof (dispatch_consume _ _ _ _ _ _ _ Hd) as Hcons.
    assert (Hp1 : parser_consume p1 = parser_consume (st_parser s)).
    { rewrite Hcons.
      destruct (Z.eqb_spec (info_id info) GST_EBML_ID_HEADER) as [He|];
        [symmetry; exact (Hid He) | reflexivity]. }
    assert (Hs'c : parser_consume (st_parser s')
                   = parser_consume (st_parser s) + c).
    { subst s'. cbn. rewrite Hp1. apply wrap64_small. lia. }
    assert (Hs'l : st_len s' = st_len s - c).
    { subst s'. cbn. apply wrap64_small. lia. }
    specialize (IH _ _ _ Hrun Hids). lia.
  - inversion Hrun; subst res' p''. clear Hrun.
    destruct (extract_step_return _ _ _ _ Hstep)
      as [(_ & _ & ->) | [(info & _ & _ & _ & ->)
                         | (info & p1 & c & Hh & _ & Hd & Hc & _ & -> & _)]].
    + destruct (negb _); cbn; lia.
    + lia.
    + rewrite (dispatched_at_unfold _ _ _ _ Hh) in Hids.
      apply Forall_cons in Hids. destruct Hids as [Hid _].
      unfold header_at_zero in Hid. cbn [fst snd] in Hid.
      pose proof (dispatch_consume _ _ _ _ _ _ _ Hd) as Hcons.
      assert (Hp1 : parser_consume p1 = parser_consume (st_parser s)).
      { rewrite Hcons.
        destruct (Z.eqb_spec (info_id info) GST_EBML_ID_HEADER) as [He|];
          [symmetry; exact (Hid He) | reflexivity]. }
      cbn. rewrite Hp1, wrap64_small; lia.
Qed.

(** The loop returns [DONE] only when the recorded end of the Cues element
    has been reached or a Cluster header has been dispatched. *)
Lemma extract_loop_done (w : list byte) (fuel : nat) :
  forall s p',
    extract_loop fuel w s = Ret (GST_MATROSKA_PARSER_DONE, p') ->
    (parser_len p' <> 0 /\ parser_len p' <= parser_consume p')
    \/ Exists (fun i => info_id i = GST_MATROSKA_ID_CLUSTER)
         (dispatched fuel w s).
Proof.
  induction fuel as [|fuel IH]; intros s p' Hrun; [discriminate|].
  cbn [extract_loop] in Hrun.
  destruct (extract_step w s) as [[s'|res' p'']| |] eqn:Hstep;
    cbn [bind] in Hrun; try discriminate.
  - destruct (extract_step_continue _ _ _ Hstep)
      as (info & p1 & c & Hh & _).
    rewrite (dispatched_unfold _ _ _ _ Hh), Hstep.
    destruct (IH _ _ Hrun) as [Hreached | Hcluster]; [left | right]; auto.
  - inversion Hrun; subst res' p''. clear Hrun.
    destruct (extract_step_return _ _ _ _ Hstep)
      as [(_ & Hres & _) | [(info & Hh & Hid & _)
                           | (info & p1 & c & _ & _ & _ & _ & _ & -> & Hnz & Hge)]].
    + discriminate.
    + right. rewrite (dispatched_unfold _ _ _ _ Hh). apply Exists_cons_hd.
      exact Hid.
    + left. cbn. auto.
Qed.

(** ** The entry point *)

Lemma set_status_same (p : GstMatroskaParser) :
  set_status (parser_status p) p = p.
Proof. destruct p; reflexivity. Qed.

Lemma set_offset_same (p : GstMatroskaParser) :
  set_offset (parser_offset p) p = p.
Proof. destruct p; reflexivity. Qed.

Lemma adapter_map_all (a : GstAdapter) :
  gst_adapter_map a (gst_adapter_available a) = a.
Proof.
  unfold gst_adapter_map, gst_adapter_available.
  rewrite Nat2Z.id. apply firstn_all.
Qed.

Lemma check_id_result (p : GstMatroskaParser) (id len : Z) (a : GstAdapter)
  (r : GstMatroskaParserResult) :
  gst_matroska_parser_check_id p id len a = Ret r ->
  r = GST_MATROSKA_PARSER_INSUFFICIENT_DATA
  \/ r = GST_MATROSKA_PARSER_NOT_SUPPORTED
  \/ r = GST_MATROSKA_PARSER_OK.
Proof.
  unfold gst_matroska_parser_check_id. intros H.
  destruct (_ <? _); [inversion H; auto|].
  destruct (gst_matroska_parser_read_data _ _ _); cbn [bind] in H;
    try discriminate.
  destruct (negb _); inversion H; auto.
Qed.

(** The parser with which the extraction runs is the caller's, with status
    [DATA]; on the first call it is the zeroed structure. *)
Lemma extraction_input_some (p q : GstMatroskaParser) (a : GstAdapter) :
  extraction_input p a = Some q ->
  parser_status p <> GST_MATROSKA_PARSER_STATUS_FINISHED
  /\ ((parser_status p = GST_MATROSKA_PARSER_STATUS_INIT
       /\ q = set_status GST_MATROSKA_PARSER_STATUS_DATA zeroed_parser)
      \/ (parser_status p <> GST_MATROSKA_PARSER_STATUS_INIT
          /\ q = set_status GST_MATROSKA_PARSER_STATUS_DATA p)).
Proof.
  unfold extraction_input. intros H.
  destruct (parser_status p) eqn:Hst.
  - destruct (gst_matroska_parser_check_id _ _ _ _) as [[]| |];
      try discriminate.
    inversion H. split; [discriminate|]. left. auto.
  - destruct (gst_matroska_parser_check_id _ _ _ _) as [[]| |];
      try discriminate.
    inversion H. split; [discriminate|]. right. split; [discriminate|auto].
  - inversion H; subst q. split; [discriminate|]. right.
    split; [discriminate|].
    rewrite <- Hst. symmetry. apply set_status_same.
  - discriminate.
Qed.

Lemma entry_data_inv (q : GstMatroskaParser) (a : GstAdapter)
  (r : GstMatroskaParserResult) (op' : option GstMatroskaParser) :
  entry_data q a = Ret (r, op') ->
  exists p0,
    gst_matroska_parser_extract_data q a = Ret (r, p0)
    /\ ((r = GST_MATROSKA_PARSER_DONE
         /\ op' = Some (set_status GST_MATROSKA_PARSER_STATUS_FINISHED p0))
        \/ (r = GST_MATROSKA_PARSER_OK /\ op' = Some p0)).
Proof.
  unfold entry_data, entry_finished. intros H.
  destruct (gst_matroska_parser_extract_data q a) as [[r0 p0]| |] eqn:Hx;
    cbn [bind fst snd] in H; try discriminate.
  unfold gst_matroska_parser_extract_data in Hx.
  destruct (extract_loop_result _ _ _ _ _ Hx) as [[-> | ->] _];
    inversion H; subst; exists p0; auto.
Qed.

(** How a call of the entry point on non-null arguments decomposes. *)
Lemma entry_inv (p : GstMatroskaParser) (a : GstAdapter)
  (r : GstMatroskaParserResult) (op' : option GstMatroskaParser) :
  gst_matroska_parser_entry (Some p) (Some a) = Ret (r, op') ->
  match extraction_input p a with
  | Some q => entry_data q a = Ret (r, op')
  | None =>
      r <> GST_MATROSKA_PARSER_DONE
      /\ r <> GST_MATROSKA_PARSER_ERROR
      /\ ((parser_status p <> GST_MATROSKA_PARSER_STATUS_INIT /\ op' = Some p)
          \/ (parser_status p = GST_MATROSKA_PARSER_STATUS_INIT
              /\ op' = Some (set_status GST_MATROSKA_PARSER_STATUS_HEADER
                               zeroed_parser)))
  end.
Proof.
  unfold gst_matroska_parser_entry, extraction_input, entry_init,
    entry_header, entry_finished, gst_matroska_parser_init.
  intros H. destruct (parser_status p) eqn:Hst.
  - destruct (gst_matroska_parser_check_id _ _ _ _) as [res| |] eqn:Hc;
      cbn [bind] in H; try discriminate.
    destruct (check_id_result _ _ _ _ _ Hc) as [-> | [-> | ->]];
      [inversion H; subst.. | exact H];
      (split; [discriminate|]; split; [discriminate|]; right; auto).
  - destruct (gst_matroska_parser_check_id _ _ _ _) as [res| |] eqn:Hc;
      cbn [bind] in H; try discriminate.
    destruct (check_id_result _ _ _ _ _ Hc) as [-> | [-> | ->]];
      [inversion H; subst.. | exact H];
      (split; [discriminate|]; split; [discriminate|]; left;
       split; [congruence | reflexivity]).
  - exact H.
  - inversion H; subst. split; [discriminate|]. split; [discriminate|].
    left. split; [congruence | reflexivity].
Qed.

(** ** From a state of the loop to the result of the call *)

Lemma reaches_loop (w : list byte) (s0 s : loop_state) :
  reaches w s0 s ->
  forall fuel r, extract_loop fuel w s = Ret r ->
  exists fuel0, extract_loop fuel0 w s0 = Ret r.
Proof.
  induction 1 as [s | s s' s'' Hstep _ IH]; intros fuel r Hr; [eauto|].
  destruct (IH _ _ Hr) as [f Hf]. exists (S f).
  rewrite (extract_loop_continue _ _ _ _ Hstep). exact Hf.
Qed.

Lemma extract_loop_any_fuel (w : list byte) (fuel : nat) :
  forall s r fuel',
    extract_loop fuel w s = Ret r ->
    extract_loop fuel' w s <> OutOfFuel ->
    extract_loop fuel' w s = Ret r.
Proof.
  induction fuel as [|fuel IH]; intros s r fuel' Hrun Hfuel;
    [discriminate|].
  destruct fuel' as [|fuel']; [exfalso; apply Hfuel; reflexivity|].
  cbn [extract_loop] in *.
  destruct (extract_step w s) as [[s'|res p]| |]; cbn [bind] in *;
    try discriminate; [|assumption].
  apply IH; assumption.
Qed.

Lemma extract_data_of_run (q : GstMatroskaParser) (a : GstAdapter)
  (fuel : nat) (r : GstMatroskaParserResult * GstMatroskaParser) :
  extract_loop fuel a (initial_state q a) = Ret r ->
  gst_matroska_parser_extract_data q a = Ret r.
Proof.
  intros Hrun. pose proof (extract_data_total q a) as Hfuel.
  unfold gst_matroska_parser_extract_data in *.
  rewrite adapter_map_all in *.
  exact (extract_loop_any_fuel _ _ _ _ _ Hrun Hfuel).
Qed.

Lemma entry_of_extract (p q p0 : GstMatroskaParser) (a : GstAdapter)
  (r : GstMatroskaParserResult) :
  extraction_input p a = Some q ->
  gst_matroska_parser_extract_data q a = Ret (r, p0) ->
  gst_matroska_parser_entry (Some p) (Some a)
  = Ret (r, Some (match r with
                  | GST_MATROSKA_PARSER_DONE =>
                      set_status GST_MATROSKA_PARSER_STATUS_FINISHED p0
                  | _ => p0
                  end)).
Proof.
  intros Hq Hx.
  assert (Hdata : entry_data q a
                  = Ret (r, Some (match r with
                                  | GST_MATROSKA_PARSER_DONE =>
                                      set_status
                                        GST_MATROSKA_PARSER_STATUS_FINISHED
                                        p0
                                  | _ => p0
                                  end))).
  { unfold entry_data, entry_finished. rewrite Hx. cbn [bind fst snd].
    destruct r; reflexivity. }
  unfold extraction_input in Hq. unfold gst_matroska_parser_entry.
  destruct (parser_status p).
  - unfold entry_init, entry_header.
    destruct (gst_matroska_parser_check_id _ _ _ _) as [[]| |];
      try discriminate.
    inversion Hq; subst q. exact Hdata.
  - unfold entry_header.
    destruct (gst_matroska_parser_check_id _ _ _ _) as [[]| |];
      try discriminate.
    inversion Hq; subst q. exact Hdata.
  - inversion Hq; subst q. exact Hdata.
  - discriminate.
Qed.

(** ** Reads that stay inside the mapped bytes *)

Lemma load_in_bounds (w : list byte) (i : Z) :
  0 <= i < Z.of_nat (length w) -> exists b, load w i = Ret b.
Proof.
  intros Hi. unfold load.
  destruct (Z.ltb_spec i 0); [lia|].
  destruct (w !! Z.to_nat i) as [b|] eqn:Hb; [eauto|].
  apply lookup_ge_None in Hb. lia.
Qed.

Lemma read_data_loop_in_bounds (w : list byte) (n : nat) :
  forall p d,
    0 <= p -> p + Z.of_nat n <= Z.of_nat (length w) ->
    exists m, read_data_loop w p n d = Ret m.
Proof.
  induction n as [|n IH]; intros p d Hp Hfit; cbn [read_data_loop];
    [eauto|].
  destruct (load_in_bounds w p) as [b ->]; [lia|]. cbn [bind].
  apply IH; lia.
Qed.

Lemma read_data_in_bounds (w : list byte) (p len : Z) :
  0 <= p ->
  (1 <= len <= 8 -> p + len <= Z.of_nat (length w)) ->
  exists m, gst_matroska_parser_read_data w p len = Ret m.
Proof.
  intros Hp Hfit. unfold gst_matroska_parser_read_data.
  destruct ((len =? 0) || (len >? 8)) eqn:Hguard; [eauto|].
  apply orb_false_elim in Hguard.
  destruct (Z_le_gt_dec 1 len) as [Hpos|Hneg].
  - apply read_data_loop_in_bounds; lia.
  - replace (Z.to_nat len) with O by lia. cbn. eauto.
Qed.

Lemma read_data_len_in_bounds (w : list byte) (p len : Z) :
  0 <= p -> 1 <= len -> p + len <= Z.of_nat (length w) ->
  exists m, gst_matroska_parser_read_data_len w p len = Ret m.
Proof.
  intros Hp Hlen Hfit. unfold gst_matroska_parser_read_data_len.
  destruct ((len =? 0) || (len >? 8)); [eauto|].
  destruct (load_in_bounds w p) as [b ->]; [lia|]. cbn [bind].
  rewrite read_data_len_loop_eq. apply read_data_loop_in_bounds; lia.
Qed.

(** A header read that is told no more than what is mapped stays inside
    the mapped bytes. *)
Lemma read_one_in_bounds (w : list byte) (buf size : Z)
  (p_info : GstMatroskaEbmlInfo) :
  0 <= buf -> 0 <= size -> buf + size <= Z.of_nat (length w) ->
  exists r, gst_matroska_read_one_ebml_info w buf size p_info = Ret r.
Proof.
  intros Hbuf Hsize Hfit. unfold gst_matroska_read_one_ebml_info.
  destruct (Z.eqb_spec size 0) as [|Hnz]; [eauto|].
  destruct (load_in_bounds w buf) as [b1 ->]; [lia|]. cbn [bind].
  pose proof (read_len_range b1) as Hr1.
  destruct ((size <=? gst_matroska_parser_read_len b1)
            || (gst_matroska_parser_read_len b1 >? 8)) eqn:Hg1; [eauto|].
  apply orb_false_elim in Hg1. destruct Hg1 as [Hg1a Hg1b].
  destruct (read_data_in_bounds w buf (gst_matroska_parser_read_len b1))
    as [id ->]; [lia | lia |]. cbn [bind].
  destruct (load_in_bounds w (buf + gst_matroska_parser_read_len b1))
    as [b2 ->]; [lia|]. cbn [bind].
  pose proof (read_len_range b2) as Hr2.
  pose proof (wrap64_le (size - gst_matroska_parser_read_len b1)) as Hw.
  destruct ((wrap64 (size - gst_matroska_parser_read_len b1)
             <=? gst_matroska_parser_read_len b2)
            || (gst_matroska_parser_read_len b2 >? 8)) eqn:Hg2; [eauto|].
  apply orb_false_elim in Hg2. destruct Hg2 as [Hg2a Hg2b].
  destruct (read_data_len_in_bounds w
              (buf + gst_matroska_parser_read_len b1)
              (gst_matroska_parser_read_len b2)) as [m ->]; [lia..|].
  cbn [bind]. eauto.
Qed.

(** ** The entry pointer and the cue array *)

Lemma current_entry_in_range (p : GstMatroskaParser) (e : option Z) (i : Z) :
  cue_array_consistent p ->
  (e <> None -> ~ cue_list_empty p) ->
  current_entry p e = Some i ->
  exists l x, parser_array p = Some l /\ l !! Z.to_nat i = Some x.
Proof.
  unfold cue_array_consistent, cue_list_empty, current_entry.
  intros Hcons Hentry Hcur.
  destruct (parser_array p) as [l|] eqn:Harr.
  - destruct (Z.eqb_spec (parser_cue_point_num p) 0) as [Hz|Hnz];
      cbn [negb] in Hcur.
    + exfalso. apply Hentry; [congruence | right; exact Hz].
    + inversion Hcur; subst i.
      destruct (l !! Z.to_nat (parser_cue_point_num p - 1)) as [x|] eqn:Hx;
        [eauto|].
      apply lookup_ge_None in Hx. lia.
  - exfalso. apply Hentry; [congruence | left; reflexivity].
Qed.

Lemma current_entry_some (p : GstMatroskaParser) (e : option Z) :
  (e <> None -> ~ cue_list_empty p) ->
  current_entry p e <> None ->
  parser_array p <> None /\ parser_cue_point_num p <> 0.
Proof.
  unfold cue_list_empty, current_entry. intros Hentry Hcur.
  destruct (parser_array p) as [l|] eqn:Harr.
  - split; [discriminate|].
    destruct (Z.eqb_spec (parser_cue_point_num p) 0) as [Hz|Hnz];
      [|exact Hnz].
    cbn [negb] in Hcur. exfalso. apply (Hentry Hcur). right. exact Hz.
  - exfalso. apply (Hentry Hcur). left. reflexivity.
Qed.

(** The [switch] adds at most one cue point and never drops the array. *)
Lemma dispatch_cue_count (w : list byte) (p p1 : GstMatroskaParser)
  (info : GstMatroskaEbmlInfo) (c0 c : Z) (entry : option Z) :
  dispatch w p info c0 entry = Ret (Next p1 c) ->
  0 <= parser_cue_point_num p ->
  parser_cue_point_num p + 1 < 2 ^ 64 ->
  parser_cue_point_num p <= parser_cue_point_num p1
                         <= parser_cue_point_num p + 1
  /\ (parser_array p <> None -> parser_array p1 <> None).
Proof.
  intros H Hnn Hfit. dispatch_cases H; cbn;
    try rewrite wrap64_small by lia;
    (split; [lia | first [intros _; discriminate | auto]]).
Qed.

Lemma dispatch_consistent (w : list byte) (p p1 : GstMatroskaParser)
  (info : GstMatroskaEbmlInfo) (c0 c : Z) (entry : option Z) :
  dispatch w p info c0 entry = Ret (Next p1 c) ->
  cue_array_consistent p ->
  parser_cue_point_num p + 1 < 2 ^ 64 ->
  cue_array_consistent p1.
Proof.
  unfold cue_array_consistent. intros H Hcons Hfit.
  dispatch_cases H; cbn; auto.
  - destruct (parser_array p) as [l|]; rewrite length_app; cbn [length];
      rewrite wrap64_small; lia.
  - match goal with E : parser_array p = Some _ |- _ => rewrite E in Hcons end.
    rewrite length_insert. exact Hcons.
  - match goal with E : parser_array p = Some _ |- _ => rewrite E in Hcons end.
    rewrite length_insert. exact Hcons.
  - match goal with E : parser_array p = Some _ |- _ => rewrite E in Hcons end.
    rewrite length_insert. exact Hcons.
Qed.

(** ** A call that starts at offset 0 stays inside the mapped bytes *)

Lemma header_at_data_buf (w : list byte) (s : loop_state)
  (info : GstMatroskaEbmlInfo) :
  header_at w s = Some info ->
  info_data_buf info = st_offset s + info_data_offset info.
Proof.
  intros Hh. destruct (header_at_some _ _ _ Hh) as (bytes & Hread & _ & _ & _ & _ & Hadj & _).
  assert (Hbytes : bytes <> 0).
  { intros ->. unfold adjust_consume in Hadj. cbn in Hadj. lia. }
  destruct (read_one_success _ _ _ _ _ _ Hread Hbytes)
    as (b1 & b2 & id & m & Hs). cbv zeta in Hs.
  destruct Hs as (_ & _ & _ & _ & _ & _ & _ & _ & -> & _).
  cbn. lia.
Qed.

(** The payload of a dispatched element that is not entered lies inside
    the announced length. *)
Lemma leaf_read_in_bounds (w : list byte) (s : loop_state)
  (info : GstMatroskaEbmlInfo) :
  header_at w s = Some info ->
  safe_state w s ->
  info_id info <> GST_MATROSKA_ID_SEGMENT ->
  info_id info <> GST_MATROSKA_ID_CUES ->
  info_id info <> GST_MATROSKA_ID_CLUSTER ->
  exists v,
    gst_matroska_parser_read_data w (info_data_buf info) (info_size info)
    = Ret v.
Proof.
  intros Hh (_ & Hoff & _ & Hfit & _) Hn1 Hn2 Hn3.
  rewrite (header_at_data_buf _ _ _ Hh).
  destruct (header_at_some _ _ _ Hh)
    as (bytes & _ & Hbytes & Hdo & _ & Hsz & Hadj & _).
  assert (Hsame : adjust_consume bytes info = bytes).
  { unfold adjust_consume. destruct (negb _); [|reflexivity].
    apply Z.eqb_neq in Hn1, Hn2, Hn3. rewrite Hn1, Hn2, Hn3. reflexivity. }
  rewrite Hsame in Hadj.
  apply read_data_in_bounds; lia.
Qed.

Lemma assign_entry_in_bounds (w : list byte) (s : loop_state)
  (info : GstMatroskaEbmlInfo)
  (f : Z -> GstMatroskaPointData -> GstMatroskaPointData) :
  header_at w s = Some info ->
  safe_state w s ->
  info_id info <> GST_MATROSKA_ID_SEGMENT ->
  info_id info <> GST_MATROSKA_ID_CUES ->
  info_id info <> GST_MATROSKA_ID_CLUSTER ->
  exists p1,
    assign_entry w (current_entry (st_parser s) (st_entry s)) info f
      (st_parser s) = Ret p1.
Proof.
  intros Hh Hsafe Hn1 Hn2 Hn3. unfold assign_entry, store_entry.
  destruct (current_entry (st_parser s) (st_entry s)) as [i|] eqn:Hcur;
    [|eauto].
  destruct (leaf_read_in_bounds _ _ _ Hh Hsafe Hn1 Hn2 Hn3) as [v ->].
  cbn [bind].
  destruct Hsafe as (_ & _ & _ & _ & Hcons & _ & Hentry).
  destruct (current_entry_in_range _ _ _ Hcons Hentry Hcur)
    as (l & x & -> & ->).
  eauto.
Qed.

Lemma dispatch_in_bounds (w : list byte) (s : loop_state)
  (info : GstMatroskaEbmlInfo) (c0 : Z) :
  header_at w s = Some info ->
  safe_state w s ->
  exists d,
    dispatch w (st_parser s) info c0
      (current_entry (st_parser s) (st_entry s)) = Ret d.
Proof.
  intros Hh Hsafe. unfold dispatch.
  repeat match goal with
         | |- context [if ?c then _ else _] => destruct c eqn:?
         end;
    id_facts; try (eexists; reflexivity).
  1-2: (destruct (leaf_read_in_bounds _ _ _ Hh Hsafe) as [v ->];
        [unfold_ids; lia..|]; cbn [bind]; eauto).
  all: match goal with
       | Hh' : header_at ?w' ?s' = Some ?i', Hs' : safe_state ?w' ?s'
         |- context [assign_entry _ _ _ ?f _] =>
           destruct (assign_entry_in_bounds w' s' i' f Hh' Hs') as [p1 ->];
           [unfold_ids; lia..|]; cbn [bind]; eauto
       end.
Qed.

Lemma extract_step_in_bounds (w : list byte) (s : loop_state) :
  safe_state w s -> exists sr, extract_step w s = Ret sr.
Proof.
  intros Hsafe.
  pose proof Hsafe as (_ & Hoff & Hlen & Hfit & _).
  destruct (read_one_in_bounds w (st_offset s) (st_len s) (st_info s))
    as [r Hread]; [lia..|].
  destruct (header_at w s) as [info|] eqn:Hh.
  - destruct (header_at_some _ _ _ Hh) as (bytes & Hread' & _).
    destruct (dispatch_in_bounds w s info (adjust_consume bytes info) Hh Hsafe)
      as [d Hd].
    unfold header_at in Hh. unfold extract_step.
    rewrite Hread' in Hh |- *. cbn [bind fst snd] in Hh |- *.
    destruct (_ || _); [discriminate|].
    rewrite Hd. cbn [bind]. destruct d; eauto.
  - unfold header_at in Hh. unfold extract_step.
    rewrite Hread in Hh |- *. cbn [bind] in Hh |- *.
    destruct (_ || _); [eauto | discriminate].
Qed.

Lemma extract_step_safe (w : list byte) (s s' : loop_state) :
  safe_state w s ->
  extract_step w s = Ret (Continue s') ->
  safe_state w s'.
Proof.
  intros (Hw & Hoff & Hlen & Hfit & Hcons & Hcnt & Hentry) Hstep.
  destruct (extract_step_continue _ _ _ Hstep)
    as (info & p1 & c & Hh & _ & Hd & Hc & -> & _).
  assert (Hnn : 0 <= parser_cue_point_num (st_parser s)).
  { unfold cue_array_consistent in Hcons.
    destruct (parser_array (st_parser s)); lia. }
  destruct (dispatch_cue_count _ _ _ _ _ _ _ Hd Hnn) as [Hcnt1 Harr1];
    [lia|].
  pose proof (dispatch_consistent _ _ _ _ _ _ _ Hd Hcons) as Hcons1.
  unfold safe_state. cbn [st_offset st_len st_parser st_entry].
  rewrite !wrap64_small by lia.
  repeat split; try lia.
  - unfold cue_array_consistent in *. cbn. apply Hcons1. lia.
  - cbn. lia.
  - intros Hcur [Hnone | Hzero].
    + destruct (current_entry_some _ _ Hentry Hcur) as [Ha _].
      cbn in Hnone. exact (Harr1 Ha Hnone).
    + destruct (current_entry_some _ _ Hentry Hcur) as [_ Hz].
      cbn in Hzero. lia.
Qed.

Lemma extract_loop_in_bounds (w : list byte) (fuel : nat) :
  forall s, safe_state w s -> extract_loop fuel w s <> OutOfBounds.
Proof.
  induction fuel as [|fuel IH]; intros s Hsafe; [discriminate|].
  cbn [extract_loop].
  destruct (extract_step_in_bounds _ _ Hsafe) as [sr Hstep].
  rewrite Hstep. cbn [bind]. destruct sr as [s'|res p]; [|discriminate].
  apply IH. exact (extract_step_safe _ _ _ Hsafe Hstep).
Qed.

(** A call of [gst_matroska_parser_extract_data] that starts at offset 0
    with a consistent cue array returns, without reading outside the mapped
    bytes. *)
Theorem extract_data_from_start_returns (p : GstMatroskaParser)
  (a : GstAdapter) :
  gst_adapter_available a < 2 ^ 64 ->
  parser_offset p = 0 ->
  cue_array_consistent p ->
  parser_cue_point_num p + gst_adapter_available a < 2 ^ 64 ->
  exists r, gst_matroska_parser_extract_data p a = Ret r.
Proof.
  intros Ha Hoff Hcons Hcnt.
  pose proof (extract_data_total p a) as Hfuel.
  assert (Hbounds : gst_matroska_parser_extract_data p a <> OutOfBounds).
  { unfold gst_matroska_parser_extract_data. rewrite adapter_map_all.
    apply extract_loop_in_bounds.
    unfold safe_state, initial_state, gst_adapter_available in *.
    cbn [st_offset st_len st_parser st_entry]. rewrite Hoff.
    repeat split; try lia; auto. }
  destruct (gst_matroska_parser_extract_data p a) as [r| |];
    [eauto | contradiction | contradiction].
Qed.

(** Feeding any stream to a fresh parser in one call returns a result. *)
Theorem feed_single_returns (stream : list byte) :
  gst_adapter_available stream < 2 ^ 64 ->
  exists r p, feed_single stream = Ret (r, Some p).
Proof.
  intros Ha.
  unfold feed_single, gst_matroska_parser_entry, entry_init, entry_header,
    gst_matroska_parser_init.
  cbn [parser_status zeroed_parser].
  unfold gst_matroska_parser_check_id.
  destruct (Z.ltb_spec (gst_adapter_available stream) 4) as [|Hfour];
    cbn [bind]; [eauto|].
  destruct (read_data_in_bounds (gst_adapter_map stream 4) 0 4)
    as [v ->]; [lia| |].
  { intros _. unfold gst_adapter_map, gst_adapter_available in *.
    rewrite length_take. lia. }
  cbn [bind]. destruct (negb (v =? GST_EBML_ID_HEADER)); cbn [bind]; [eauto|].
  unfold entry_data, entry_finished.
  destruct (extract_data_from_start_returns
              (set_status GST_MATROSKA_PARSER_STATUS_DATA
                 (set_status GST_MATROSKA_PARSER_STATUS_HEADER zeroed_parser))
              stream Ha) as [[r p] ->]; [reflexivity | reflexivity | cbn; lia |].
  cbn [bind fst snd]. destruct r; eauto.
Qed.

(** ** A parser that has finished *)

(** C1, as stated, fails: called again on a parser whose status is
    [FINISHED] (here the one left by a complete parse of [sample_stream]),
    the entry point returns [OK], not [DONE]. *)
Lemma C1_counterexample :
  feed_single sample_stream
  = Ret (GST_MATROSKA_PARSER_DONE, Some sample_finished_parser)
  /\ parser_status sample_finished_parser
     = GST_MATROSKA_PARSER_STATUS_FINISHED
  /\ gst_matroska_parser_entry (Some sample_finished_parser)
       (Some sample_stream)
     = Ret (GST_MATROSKA_PARSER_OK, Some sample_finished_parser)
  /\ GST_MATROSKA_PARSER_OK <> GST_MATROSKA_PARSER_DONE.
Proof.
  split; [vm_compute; reflexivity|]. split; [reflexivity|].
  split; [reflexivity | discriminate].
Qed.

(** C1, amended.  For every parser whose status is [FINISHED] and every
    byte window, the entry point returns [OK] and leaves the whole parser
    structure, cue array included, unchanged. *)
Theorem C1_finished_is_noop (p : GstMatroskaParser) (a : GstAdapter) :
  parser_status p = GST_MATROSKA_PARSER_STATUS_FINISHED ->
  gst_matroska_parser_entry (Some p) (Some a)
  = Ret (GST_MATROSKA_PARSER_OK, Some p).
Proof.
  intros Hst. unfold gst_matroska_parser_entry. rewrite Hst. reflexivity.
Qed.

Lemma C1_finished_is_noop_witness :
  gst_matroska_parser_entry (Some sample_finished_parser)
    (Some sample_stream)
  = Ret (GST_MATROSKA_PARSER_OK, Some sample_finished_parser).
Proof.
  apply (C1_finished_is_noop sample_finished_parser sample_stream).
  reflexivity.
Defined.

(** ** Null arguments *)

(** C8: the code at the failing inputs.  With a null parser or a null
    adapter the entry point returns [NOT_SUPPORTED]; the result
    [ERROR_PARAM] is never produced. *)
Theorem C8_null_arguments_not_supported :
  (forall adapter,
     gst_matroska_parser_entry None adapter
     = Ret (GST_MATROSKA_PARSER_NOT_SUPPORTED, None))
  /\ (forall parser,
        gst_matroska_parser_entry parser None
        = Ret (GST_MATROSKA_PARSER_NOT_SUPPORTED, parser))
  /\ GST_MATROSKA_PARSER_NOT_SUPPORTED <> GST_MATROSKA_PARSER_ERROR_PARAM.
Proof.
  split; [reflexivity|]. split; [|discriminate].
  intros [p|]; reflexivity.
Qed.

(** ** Fields longer than 8 bytes *)

Lemma field_length_error_read (w : list byte) (buf size : Z)
  (p_info : GstMatroskaEbmlInfo) :
  field_length_error w buf size ->
  exists info',
    gst_matroska_read_one_ebml_info w buf size p_info = Ret (0, info').
Proof.
  intros (Hsize & b & Hb & Hcase).
  unfold gst_matroska_read_one_ebml_info.
  apply Z.eqb_neq in Hsize. rewrite Hsize, Hb. cbn [bind].
  destruct Hcase as [Hlong | (Hfit & id & b' & Hid & Hb' & Hlong)].
  - replace (gst_matroska_parser_read_len b >? 8) with true by lia.
    rewrite orb_true_r. eauto.
  - destruct ((size <=? gst_matroska_parser_read_len b)
              || (gst_matroska_parser_read_len b >? 8)); [eauto|].
    rewrite Hid. cbn [bind]. rewrite Hb'. cbn [bind].
    replace (gst_matroska_parser_read_len b' >? 8) with true by lia.
    rewrite orb_true_r. eauto.
Qed.

Lemma extract_loop_first_return (w : list byte) (fuel : nat) (s : loop_state)
  (res : GstMatroskaParserResult) (p : GstMatroskaParser) :
  extract_step w s = Ret (Return res p) ->
  extract_loop (S fuel) w s = Ret (res, p).
Proof. intros H. cbn [extract_loop]. rewrite H. reflexivity. Qed.

(** C2, as stated, fails: in [bad_length_stream] the element after the
    EBML header starts with the byte 0x00, an id field of encoded length 9.
    The call returns [OK], not [ERROR], and both [offset] and [consume] have
    moved from 0 to 9. *)
Lemma C2_counterexample :
  field_length_error bad_length_stream 9 3
  /\ feed_single bad_length_stream
     = Ret (GST_MATROSKA_PARSER_OK,
            Some (mkParser 0 0 0 0 0 9 9 0 None
                    GST_MATROSKA_PARSER_STATUS_DATA false 0))
  /\ GST_MATROSKA_PARSER_OK <> GST_MATROSKA_PARSER_ERROR.
Proof.
  split; [|split; [vm_compute; reflexivity | discriminate]].
  split; [discriminate|]. exists x00. split; [reflexivity|].
  left. vm_compute. reflexivity.
Qed.

(** A field of encoded length greater than 8 in the first element the
    loop reads: the extraction returns [OK] and the parser it was given. *)
Lemma field_length_error_first (q : GstMatroskaParser) (a : GstAdapter) :
  field_length_error a (parser_offset q) (gst_adapter_available a) ->
  entry_data q a = Ret (GST_MATROSKA_PARSER_OK, Some q).
Proof.
  intros Herr.
  destruct (field_length_error_read _ _ _ uninit_info Herr)
    as (info' & Hread).
  assert (Hstep : extract_step a (initial_state q a)
                  = Ret (Return GST_MATROSKA_PARSER_OK
                           (if negb (parser_offset q =? 0)
                            then set_offset (parser_offset q) q
                            else q))).
  { unfold extract_step.
    cbn [initial_state st_offset st_len st_info st_parser].
    rewrite Hread. reflexivity. }
  unfold entry_data, gst_matroska_parser_extract_data.
  rewrite adapter_map_all.
  rewrite (extract_loop_first_return _ _ _ _ _ Hstep).
  cbn [bind fst snd]. rewrite set_offset_same.
  destruct (negb _); reflexivity.
Qed.

(** C2, amended.  The entry point never returns [ERROR].  When the header
    read at the cursor meets an id or size field of encoded length greater
    than 8, the iteration leaves the loop with [OK], exactly as for missing
    data, and so does the call, wherever in the call this happens: the
    cursor reached so far is stored in [parser->offset] (when it is not 0)
    and nothing else changes, so [parser->consume] stays as the elements
    dispatched earlier in the call left it.  When the offending element is
    the first one read by the call, the call returns [OK] and leaves the
    parser as it entered the loop: unchanged for a parser in DATA; with
    only the status moved to DATA for a parser in HEADER; zeroed, with
    status DATA, for a parser in INIT (from HEADER and INIT the loop is
    entered only when the magic has been recognised). *)
Theorem C2_field_length_error_returns_ok :
  (forall parser adapter r p',
     gst_matroska_parser_entry parser adapter = Ret (r, p') ->
     r <> GST_MATROSKA_PARSER_ERROR)
  /\ (forall w buf size p_info,
        field_length_error w buf size ->
        exists info',
          gst_matroska_read_one_ebml_info w buf size p_info
          = Ret (0, info'))
  /\ (forall w s,
        field_length_error w (st_offset s) (st_len s) ->
        extract_step w s
        = Ret (Return GST_MATROSKA_PARSER_OK
                 (if negb (st_offset s =? 0)
                  then set_offset (st_offset s) (st_parser s)
                  else st_parser s)))
  /\ (forall p q a s,
        extraction_input p a = Some q ->
        reaches a (initial_state q a) s ->
        field_length_error a (st_offset s) (st_len s) ->
        gst_matroska_parser_entry (Some p) (Some a)
        = Ret (GST_MATROSKA_PARSER_OK,
               Some (if negb (st_offset s =? 0)
                     then set_offset (st_offset s) (st_parser s)
                     else st_parser s)))
  /\ (forall p a,
        parser_status p = GST_MATROSKA_PARSER_STATUS_DATA ->
        field_length_error a (parser_offset p) (gst_adapter_available a) ->
        gst_matroska_parser_entry (Some p) (Some a)
        = Ret (GST_MATROSKA_PARSER_OK, Some p))
  /\ (forall p a,
        parser_status p = GST_MATROSKA_PARSER_STATUS_HEADER ->
        gst_matroska_parser_check_id p GST_EBML_ID_HEADER 4 a
        = Ret GST_MATROSKA_PARSER_OK ->
        field_length_error a (parser_offset p) (gst_adapter_available a) ->
        gst_matroska_parser_entry (Some p) (Some a)
        = Ret (GST_MATROSKA_PARSER_OK,
               Some (set_status GST_MATROSKA_PARSER_STATUS_DATA p)))
  /\ (forall p a,
        parser_status p = GST_MATROSKA_PARSER_STATUS_INIT ->
        gst_matroska_parser_check_id
          (set_status GST_MATROSKA_PARSER_STATUS_HEADER
             (gst_matroska_parser_init p))
          GST_EBML_ID_HEADER 4 a
        = Ret GST_MATROSKA_PARSER_OK ->
        field_length_error a 0 (gst_adapter_available a) ->
        gst_matroska_parser_entry (Some p) (Some a)
        = Ret (GST_MATROSKA_PARSER_OK,
               Some (set_status GST_MATROSKA_PARSER_STATUS_DATA
                       zeroed_parser))).
Proof.
  assert (Hstep : forall w s,
             field_length_error w (st_offset s) (st_len s) ->
             extract_step w s
             = Ret (Return GST_MATROSKA_PARSER_OK
                      (if negb (st_offset s =? 0)
                       then set_offset (st_offset s) (st_parser s)
                       else st_parser s))).
  { intros w s Herr.
    destruct (field_length_error_read _ _ _ (st_info s) Herr)
      as (info' & Hread).
    unfold extract_step. rewrite Hread. reflexivity. }
  split; [|split; [exact field_length_error_read|]].
  2: split; [exact Hstep|split; [|split; [|split]]].
  - intros [p|] [a|] r p' H; try (inversion H; discriminate).
    pose proof (entry_inv _ _ _ _ H) as Hinv.
    destruct (extraction_input p a) as [q|].
    + destruct (entry_data_inv _ _ _ _ Hinv) as (p0 & _ & [[-> _] | [-> _]]);
        discriminate.
    + destruct Hinv as (_ & Hne & _). exact Hne.
  - intros p q a s Hq Hreach Herr.
    pose proof (extract_loop_first_return a 0 s _ _ (Hstep a s Herr))
      as Hrun.
    destruct (reaches_loop _ _ _ Hreach _ _ Hrun) as [fuel0 Hrun0].
    pose proof (extract_data_of_run _ _ _ _ Hrun0) as Hx.
    exact (entry_of_extract _ _ _ _ _ Hq Hx).
  - intros p a Hst Herr.
    unfold gst_matroska_parser_entry. rewrite Hst.
    exact (field_length_error_first p a Herr).
  - intros p a Hst Hmagic Herr.
    unfold gst_matroska_parser_entry. rewrite Hst.
    unfold entry_header. rewrite Hmagic. cbn [bind].
    exact (field_length_error_first
             (set_status GST_MATROSKA_PARSER_STATUS_DATA p) a Herr).
  - intros p a Hst Hmagic Herr.
    unfold gst_matroska_parser_entry. rewrite Hst.
    unfold entry_init, entry_header. rewrite Hmagic. cbn [bind].
    exact (field_length_error_first
             (set_status GST_MATROSKA_PARSER_STATUS_DATA
                (set_status GST_MATROSKA_PARSER_STATUS_HEADER
                   (gst_matroska_parser_init p))) a Herr).
Qed.

Lemma C2_field_length_error_returns_ok_witness :
  gst_matroska_parser_entry (Some zeroed_parser) (Some bad_length_stream)
  = Ret (GST_MATROSKA_PARSER_OK,
         Some (mkParser 0 0 0 0 0 9 9 0 None
                 GST_MATROSKA_PARSER_STATUS_DATA false 0))
  /\ gst_matroska_parser_entry
       (Some (mkParser 0 0 0 0 0 9 9 0 None
                GST_MATROSKA_PARSER_STATUS_DATA false 0))
       (Some bad_length_stream)
     = Ret (GST_MATROSKA_PARSER_OK,
            Some (mkParser 0 0 0 0 0 9 9 0 None
                    GST_MATROSKA_PARSER_STATUS_DATA false 0))
  /\ gst_matroska_parser_entry
       (Some (set_status GST_MATROSKA_PARSER_STATUS_HEADER zeroed_parser))
       (Some header_size_error_stream)
     = Ret (GST_MATROSKA_PARSER_OK,
            Some (set_status GST_MATROSKA_PARSER_STATUS_DATA
                    (set_status GST_MATROSKA_PARSER_STATUS_HEADER
                       zeroed_parser)))
  /\ gst_matroska_parser_entry (Some zeroed_parser)
       (Some header_size_error_stream)
     = Ret (GST_MATROSKA_PARSER_OK,
            Some (set_status GST_MATROSKA_PARSER_STATUS_DATA zeroed_parser)).
Proof.
  pose proof C2_field_length_error_returns_ok
    as (_ & _ & _ & Hany & Hdata & Hheader & Hinit).
  split; [|split; [|split]].
  - apply (Hany zeroed_parser
             (set_status GST_MATROSKA_PARSER_STATUS_DATA
                (set_status GST_MATROSKA_PARSER_STATUS_HEADER zeroed_parser))
             bad_length_stream
             (mkState
                (mkParser 0 0 0 0 0 0 9 0 None
                   GST_MATROSKA_PARSER_STATUS_DATA false 0)
                9 3 None (mkInfo GST_EBML_ID_HEADER 4 5 5))).
    + vm_compute. reflexivity.
    + eapply reaches_step; [vm_compute; reflexivity|]. apply reaches_here.
    + split; [discriminate|]. exists x00. split; [reflexivity|].
      left. vm_compute. reflexivity.
  - apply Hdata.
    + reflexivity.
    + split; [discriminate|]. exists x00. split; [reflexivity|].
      left. vm_compute. reflexivity.
  - apply Hheader.
    + reflexivity.
    + vm_compute. reflexivity.
    + split; [discriminate|]. exists x1a. split; [reflexivity|].
      right. split; [vm_compute; reflexivity|].
      exists 0x1A45DFA3, x00.
      split; [vm_compute; reflexivity|].
      split; [reflexivity|]. vm_compute. reflexivity.
  - apply Hinit.
    + reflexivity.
    + vm_compute. reflexivity.
    + split; [discriminate|]. exists x1a. split; [reflexivity|].
      right. split; [vm_compute; reflexivity|].
      exists 0x1A45DFA3, x00.
      split; [vm_compute; reflexivity|].
      split; [reflexivity|]. vm_compute. reflexivity.
Defined.

(** ** The consumed-byte counter *)

(** C9, as stated, fails: a first call on [chained_window_1] leaves
    [consume = 12]; the next call, on the longer [chained_window_2],
    dispatches a second EBML header, which resets the counter, and leaves
    [consume = 9]. *)
Lemma C9_counterexample :
  feed_single chained_window_1
  = Ret (GST_MATROSKA_PARSER_OK, Some parser_after_window_1)
  /\ gst_matroska_parser_entry (Some parser_after_window_1)
       (Some chained_window_2)
     = Ret (GST_MATROSKA_PARSER_DONE,
            Some (mkParser 0 0 0 0 0 12 9 0 None
                    GST_MATROSKA_PARSER_STATUS_FINISHED false 0))
  /\ ~ (parser_consume parser_after_window_1
        <= parser_consume
             (mkParser 0 0 0 0 0 12 9 0 None
                GST_MATROSKA_PARSER_STATUS_FINISHED false 0)).
Proof.
  split; [vm_compute; reflexivity|]. split; [vm_compute; reflexivity|].
  cbn. lia.
Qed.

(** C9, amended.  Across a call of the entry point in which no EBML
    header element is dispatched while [parser->consume] is non-zero,
    [parser->consume] does not decrease, provided the 64-bit counter
    cannot wrap within the window (a parser still in status [INIT] is about
    to be zeroed, so its counter is taken to be 0).  This covers the
    ordinary first call, whose EBML header is dispatched with the counter
    at 0.  [entry_dispatched_at] lists the headers of [entry_dispatched],
    each with the counter its iteration starts with.  Dispatching an EBML
    header element resets the counter: after that iteration it is the
    length of the header element alone. *)
Theorem C9_consume_monotone_unless_reset :
  (forall (p p' : GstMatroskaParser) (a : GstAdapter)
          (r : GstMatroskaParserResult),
     (parser_status p = GST_MATROSKA_PARSER_STATUS_INIT ->
      parser_consume p = 0) ->
     0 <= parser_consume p ->
     parser_consume p + gst_adapter_available a < 2 ^ 64 ->
     Forall header_at_zero (entry_dispatched_at p a) ->
     gst_matroska_parser_entry (Some p) (Some a) = Ret (r, Some p') ->
     parser_consume p <= parser_consume p')
  /\ (forall p a,
        map snd (entry_dispatched_at p a) = entry_dispatched p a)
  /\ (forall w s info,
        header_at w s = Some info ->
        info_id info = GST_EBML_ID_HEADER ->
        exists sr,
          extract_step w s = Ret sr
          /\ parser_consume (result_parser sr)
             = info_data_offset info + info_size info).
Proof.
  split; [|split].
  - intros p p' a r Hinit Hnn Hfit Hids Hrun.
    pose proof (entry_inv _ _ _ _ Hrun) as Hinv.
    unfold entry_dispatched_at in Hids.
    destruct (extraction_input p a) as [q|] eqn:Hq.
    + destruct (entry_data_inv _ _ _ _ Hinv) as (p0 & Hx & Hp').
      assert (Hqc : parser_consume q = parser_consume p).
      { destruct (extraction_input_some _ _ _ Hq)
          as (_ & [(Hst & ->) | (_ & ->)]); [|reflexivity].
        rewrite (Hinit Hst). reflexivity. }
      unfold gst_matroska_parser_extract_data in Hx.
      apply extract_loop_consume_mono in Hx;
        [| exact Hids
         | cbn [initial_state st_parser]; lia
         | cbn [initial_state st_parser st_len]; lia].
      cbn [initial_state st_parser] in Hx.
      destruct Hp' as [(_ & Heq) | (_ & Heq)]; inversion Heq; subst p';
        cbn; lia.
    + destruct Hinv as (_ & _ & [(_ & Heq) | (Hst & Heq)]);
        inversion Heq; subst p'; [lia|].
      rewrite (Hinit Hst). cbn. lia.
  - intros p a. unfold entry_dispatched_at, entry_dispatched.
    destruct (extraction_input p a); [|reflexivity].
    apply dispatched_at_headers.
  - intros w s info Hh Hid.
    destruct (header_at_some _ _ _ Hh)
      as (bytes & Hread & Hbytes & Hoff & _ & Hsz & _).
    unfold header_at in Hh. unfold extract_step.
    rewrite Hread in Hh |- *. cbn [bind fst snd] in Hh |- *.
    destruct ((adjust_consume bytes info =? 0)
              || (st_len s <? adjust_consume bytes info)); [discriminate|].
    assert (Hadj : adjust_consume bytes info = bytes).
    { unfold adjust_consume. rewrite Hid. destruct (negb _); reflexivity. }
    rewrite Hadj. unfold dispatch. rewrite Hid.
    change (GST_EBML_ID_HEADER =? GST_EBML_ID_HEADER) with true.
    cbn [bind]. eexists. split; [reflexivity|].
    unfold advance. cbn [parser_consume set_consume].
    replace (wrap64 (0 + bytes)) with bytes
      by (symmetry; apply wrap64_small;
          change (2 ^ 64) with (2 * 2 ^ 63); lia).
    destruct (_ && _); cbn; exact Hbytes.
Qed.

Lemma C9_consume_monotone_unless_reset_witness :
  parser_consume zeroed_parser <= parser_consume parser_after_window_1
  /\ parser_consume parser_after_window_1
     <= parser_consume
          (mkParser 0 0 0 0 0 12 15 0 None
             GST_MATROSKA_PARSER_STATUS_FINISHED false 0).
Proof.
  split.
  - apply (proj1 C9_consume_monotone_unless_reset zeroed_parser
             parser_after_window_1 chained_window_1 GST_MATROSKA_PARSER_OK).
    + reflexivity.
    + cbn. lia.
    + vm_compute. reflexivity.
    + vm_compute. repeat constructor; discriminate.
    + vm_compute. reflexivity.
  - apply (proj1 C9_consume_monotone_unless_reset parser_after_window_1
             (mkParser 0 0 0 0 0 12 15 0 None
                GST_MATROSKA_PARSER_STATUS_FINISHED false 0)
             plain_window_2 GST_MATROSKA_PARSER_DONE).
    + discriminate.
    + cbn. lia.
    + vm_compute. reflexivity.
    + vm_compute. repeat constructor; discriminate.
    + vm_compute. reflexivity.
Defined.

(** ** The end of the Cues element *)

(** C7, as stated, fails: in [truncated_cues_stream] the Cues header
    records the end 57, and the Cluster header that follows completes the
    parse ([DONE], status [FINISHED]) with [consume = 26], short of 57. *)
Lemma C7_counterexample :
  feed_single truncated_cues_stream
  = Ret (GST_MATROSKA_PARSER_DONE,
         Some (mkParser 57 9 0 0 0 0 26 0 None
                 GST_MATROSKA_PARSER_STATUS_FINISHED false 0))
  /\ map info_id (entry_dispatched zeroed_parser truncated_cues_stream)
     = [GST_EBML_ID_HEADER; GST_MATROSKA_ID_SEGMENT; GST_MATROSKA_ID_CUES;
        GST_MATROSKA_ID_CLUSTER]
  /\ ~ (57 <= 26).
Proof.
  split; [vm_compute; reflexivity|]. split; [vm_compute; reflexivity|]. lia.
Qed.

(** C7, amended.  When a Cues header is dispatched, the iteration records
    [parser->len = parser->consume + data_offset + size] (in 64 bits: the
    plain sum whenever it fits), with [parser->consume] the count before the
    header's own bytes are added.  After the [switch] of every dispatched
    header other than a Cluster, the loop leaves, with [DONE], if the
    recorded value is non-zero and the updated [parser->consume] has reached
    or exceeded it, and goes round again otherwise.  A call of the entry
    point returns [DONE] exactly when it moves the parser to [FINISHED], and
    it does so only for that reason or because a Cluster header was
    dispatched. *)
Theorem C7_cues_region_end :
  (forall w s info,
     header_at w s = Some info ->
     info_id info = GST_MATROSKA_ID_CUES ->
     exists sr,
       extract_step w s = Ret sr
       /\ parser_len (result_parser sr)
          = wrap64 (parser_consume (st_parser s)
                    + info_data_offset info + info_size info)
       /\ (0 <= parser_consume (st_parser s) ->
           parser_consume (st_parser s)
           + info_data_offset info + info_size info < 2 ^ 64 ->
           parser_len (result_parser sr)
           = parser_consume (st_parser s)
             + info_data_offset info + info_size info))
  /\ (forall w s info sr,
        header_at w s = Some info ->
        info_id info <> GST_MATROSKA_ID_CLUSTER ->
        extract_step w s = Ret sr ->
        match sr with
        | Return res p' =>
            res = GST_MATROSKA_PARSER_DONE
            /\ parser_len p' <> 0
            /\ parser_len p' <= parser_consume p'
        | Continue s' =>
            parser_len (st_parser s') = 0
            \/ parser_consume (st_parser s') < parser_len (st_parser s')
        end)
  /\ (forall p a r p',
        parser_status p <> GST_MATROSKA_PARSER_STATUS_FINISHED ->
        gst_matroska_parser_entry (Some p) (Some a) = Ret (r, Some p') ->
        (r = GST_MATROSKA_PARSER_DONE
         <-> parser_status p' = GST_MATROSKA_PARSER_STATUS_FINISHED)
        /\ (r = GST_MATROSKA_PARSER_DONE ->
            (parser_len p' <> 0 /\ parser_len p' <= parser_consume p')
            \/ Exists (fun i => info_id i = GST_MATROSKA_ID_CLUSTER)
                 (entry_dispatched p a))).
Proof.
  split; [|split].
  - intros w s info Hh Hid.
    destruct (header_at_some _ _ _ Hh) as (bytes & Hread & Hbytes & Hoff & _ & Hsz & _).
    unfold header_at in Hh. unfold extract_step.
    rewrite Hread in Hh |- *. cbn [bind fst snd] in Hh |- *.
    destruct ((adjust_consume bytes info =? 0)
              || (st_len s <? adjust_consume bytes info)); [discriminate|].
    unfold dispatch. rewrite Hid.
    change (GST_MATROSKA_ID_CUES =? GST_EBML_ID_HEADER) with false.
    change (GST_MATROSKA_ID_CUES =? GST_MATROSKA_ID_SEGMENT) with false.
    change (GST_MATROSKA_ID_CUES =? GST_MATROSKA_ID_SEEKHEAD) with false.
    change (GST_MATROSKA_ID_CUES =? GST_MATROSKA_ID_SEGMENTINFO) with false.
    change (GST_MATROSKA_ID_CUES =? GST_MATROSKA_ID_TIMECODESCALE) with false.
    change (GST_MATROSKA_ID_CUES =? GST_MATROSKA_ID_DURATION) with false.
    change (GST_MATROSKA_ID_CUES =? GST_MATROSKA_ID_CUES) with true.
    cbn [bind]. eexists. split; [reflexivity|].
    assert (Hlen : forall sr',
               sr' = advance s (current_entry (st_parser s) (st_entry s)) info
                       (set_len
                          (wrap64 (parser_consume (st_parser s)
                                   + info_data_offset info + info_size info))
                          (st_parser s))
                       (info_data_offset info) ->
               parser_len (result_parser sr')
               = wrap64 (parser_consume (st_parser s)
                         + info_data_offset info + info_size info)).
    { intros sr' ->. unfold advance. destruct (_ && _); reflexivity. }
    split; [apply Hlen; reflexivity|].
    intros Hnn Hfit. rewrite (Hlen _ eq_refl). apply wrap64_small. lia.
  - intros w s info [s'|res p'] Hh Hnc Hstep.
    + destruct (extract_step_continue _ _ _ Hstep)
        as (info' & p1 & c & _ & _ & _ & _ & -> & Hnot).
      cbn. exact Hnot.
    + destruct (extract_step_return _ _ _ _ Hstep)
        as [(Hnone & _) | [(info' & Hh' & Hid & _)
                          | (info' & p1 & c & _ & _ & _ & _ & -> & -> & Hnz & Hge)]].
      * congruence.
      * congruence.
      * cbn. auto.
  - intros p a r p' Hnf Hrun.
    pose proof (entry_inv _ _ _ _ Hrun) as Hinv.
    unfold entry_dispatched.
    destruct (extraction_input p a) as [q|] eqn:Hq.
    + destruct (entry_data_inv _ _ _ _ Hinv) as (p0 & Hx & Hp').
      destruct (extraction_input_some _ _ _ Hq) as (_ & Hqs).
      assert (Hqst : parser_status q = GST_MATROSKA_PARSER_STATUS_DATA).
      { destruct Hqs as [(_ & ->) | (_ & ->)]; reflexivity. }
      unfold gst_matroska_parser_extract_data in Hx.
      destruct (extract_loop_result _ _ _ _ _ Hx) as [_ Hst0].
      cbn [initial_state st_parser] in Hst0. rewrite Hqst in Hst0.
      destruct Hp' as [(-> & Heq) | (-> & Heq)]; inversion Heq; subst p'.
      * split; [split; reflexivity|]. intros _.
        apply extract_loop_done in Hx. cbn. exact Hx.
      * split; [split; [discriminate | congruence]|]. discriminate.
    + destruct Hinv as (Hnd & _ & [(_ & Heq) | (_ & Heq)]);
        inversion Heq; subst p'; (split; [split|]; try contradiction);
        try discriminate.
Qed.

Lemma C7_cues_region_end_witness :
  (GST_MATROSKA_PARSER_DONE = GST_MATROSKA_PARSER_DONE
   <-> parser_status sample_finished_parser
       = GST_MATROSKA_PARSER_STATUS_FINISHED)
  /\ (GST_MATROSKA_PARSER_DONE = GST_MATROSKA_PARSER_DONE ->
      (parser_len sample_finished_parser <> 0
       /\ parser_len sample_finished_parser
          <= parser_consume sample_finished_parser)
      \/ Exists (fun i => info_id i = GST_MATROSKA_ID_CLUSTER)
           (entry_dispatched zeroed_parser sample_stream)).
Proof.
  apply (proj2 (proj2 C7_cues_region_end) zeroed_parser sample_stream
           GST_MATROSKA_PARSER_DONE sample_finished_parser).
  - discriminate.
  - vm_compute. reflexivity.
Defined.

(** ** Cue leaves met before any cue point *)







(** ** One call against byte-by-byte calls *)

(** A resumed call announces to the header reader all the mapped bytes,
    not those left after the saved offset.  When exactly one new byte has
    arrived since the saved offset and that byte opens an id of two bytes
    or more, the id is read past the end of the mapped bytes. *)
Lemma resumed_call_out_of_bounds (p : GstMatroskaParser) (a : GstAdapter)
  (b : byte) :
  parser_status p = GST_MATROSKA_PARSER_STATUS_DATA ->
  0 <= parser_offset p ->
  gst_adapter_available a = parser_offset p + 1 ->
  load a (parser_offset p) = Ret b ->
  2 <= gst_matroska_parser_read_len b <= 8 ->
  gst_matroska_parser_read_len b < gst_adapter_available a ->
  gst_matroska_parser_entry (Some p) (Some a) = OutOfBounds.
Proof.
  intros Hst Hoff Havail Hb Hlen Hfit.
  assert (Hid : gst_matroska_parser_read_data a (parser_offset p)
                  (gst_matroska_parser_read_len b) = OutOfBounds).
  { unfold gst_matroska_parser_read_data.
    replace ((gst_matroska_parser_read_len b =? 0)
             || (gst_matroska_parser_read_len b >? 8)) with false
      by (symmetry; apply orb_false_intro; lia).
    replace (Z.to_nat (gst_matroska_parser_read_len b))
      with (S (S (Z.to_nat (gst_matroska_parser_read_len b - 2)))) by lia.
    cbn [read_data_loop]. rewrite Hb. cbn [bind].
    assert (Hnext : load a (parser_offset p + 1) = OutOfBounds).
    { unfold load. destruct (Z.ltb_spec (parser_offset p + 1) 0); [lia|].
      rewrite (proj2 (lookup_ge_None a (Z.to_nat (parser_offset p + 1))));
        [reflexivity|].
      unfold gst_adapter_available in Havail. lia. }
    rewrite Hnext. reflexivity. }
  unfold gst_matroska_parser_entry. rewrite Hst.
  unfold entry_data, gst_matroska_parser_extract_data.
  rewrite adapter_map_all. cbn [extract_loop].
  unfold extract_step at 1, gst_matroska_read_one_ebml_info.
  cbn [initial_state st_offset st_len st_info st_parser].
  replace (gst_adapter_available a =? 0) with false by lia.
  rewrite Hb. cbn [bind].
  replace ((gst_adapter_available a <=? gst_matroska_parser_read_len b)
           || (gst_matroska_parser_read_len b >? 8)) with false
    by (symmetry; apply orb_false_intro; lia).
  rewrite Hid. reflexivity.
Qed.

Lemma extract_data_no_slack (parser : GstMatroskaParser)
  (adapter : GstAdapter) :
  extract_data_with_slack [] parser adapter
  = gst_matroska_parser_extract_data parser adapter.
Proof.
  unfold extract_data_with_slack, gst_matroska_parser_extract_data.
  rewrite app_nil_r, adapter_map_all. reflexivity.
Qed.

(** Where the bytes after the mapping can be read and happen to be zero,
    the byte-by-byte parse of [sample_stream] does complete, but on what it
    found there: the time scale is 0 instead of 1000000 and both cue points
    are all zero. *)
Example bytewise_feed_over_zero_slack :
  extract_bytewise_with_slack (repeat x00 16) [] sample_stream
    (set_status GST_MATROSKA_PARSER_STATUS_DATA zeroed_parser)
  = Ret (GST_MATROSKA_PARSER_DONE,
         mkParser 69 9 0 0 0 69 69 2
           (Some [zeroed_point; zeroed_point])
           GST_MATROSKA_PARSER_STATUS_DATA false 0).
Proof. vm_compute. reflexivity. Qed.

(** C3: the code at the failing input.  Fed in one call, [sample_stream]
    is parsed to completion with the expected time scale and cue list.  Fed
    one byte at a time, the tenth call resumes at the saved offset 9 but
    announces all 10 mapped bytes as available from there, and the header
    read goes past the end of the mapped bytes. *)
Theorem C3_bytewise_feed_reads_out_of_bounds :
  feed_single sample_stream
  = Ret (GST_MATROSKA_PARSER_DONE, Some sample_finished_parser)
  /\ parser_time_scale sample_finished_parser = 1000000
  /\ parser_array sample_finished_parser = Some sample_cues
  /\ feed_bytewise (take 9 sample_stream)
     = Ret (GST_MATROSKA_PARSER_OK,
            Some (mkParser 0 0 0 0 0 9 9 0 None
                    GST_MATROSKA_PARSER_STATUS_DATA false 0))
  /\ gst_matroska_parser_entry
       (Some (mkParser 0 0 0 0 0 9 9 0 None
                GST_MATROSKA_PARSER_STATUS_DATA false 0))
       (Some (take 10 sample_stream))
     = OutOfBounds
  /\ feed_bytewise sample_stream = OutOfBounds.
Proof.
  repeat split; vm_compute; reflexivity.
Qed.

(** * Further properties of the code *)

(** ** Big-endian decoding *)

Lemma byte_of_Z_val (t : Z) : 0 <= t < 256 -> byte_val (byte_of_Z t) = t.
Proof.
  intros Ht. unfold byte_val, byte_of_Z.
  destruct (Byte.of_N (Z.to_N t)) as [b|] eqn:Hb.
  - apply Byte.to_of_N in Hb. rewrite Hb. lia.
  - apply Byte.of_N_None_iff in Hb. lia.
Qed.

Lemma byte_of_Z_of_val (b : byte) : byte_of_Z (byte_val b) = b.
Proof.
  unfold byte_val, byte_of_Z. rewrite N2Z.id, Byte.of_to_N. reflexivity.
Qed.

(** Shifting the accumulator and or-ing a byte in is a multiplication and
    an addition. *)
Lemma lor_shift_byte (d : Z) (b : byte) :
  0 <= d ->
  Z.lor (Z.shiftl d 8) (byte_val b) = d * 256 + byte_val b.
Proof.
  intros Hd. pose proof (byte_val_range b) as Hb.
  rewrite Z.shiftl_mul_pow2 by lia. change (2 ^ 8) with 256.
  assert (Hland : Z.land (d * 256) (byte_val b) = 0).
  { apply Z.bits_inj'. intros n Hn. rewrite Z.land_spec, Z.bits_0.
    destruct (Z_lt_ge_dec n 8) as [Hlow|Hhigh].
    - change 256 with (2 ^ 8). rewrite Z.mul_pow2_bits_low by lia.
      reflexivity.
    - rewrite (Z.bits_above_log2 (byte_val b) n); [apply andb_false_r|lia|].
      destruct (Z.eq_dec (byte_val b) 0) as [->|Hnz]; [cbn; lia|].
      apply Z.log2_lt_pow2; [lia|].
      assert (2 ^ 8 <= 2 ^ n) by (apply Z.pow_le_mono_r; lia).
      change (2 ^ 8) with 256 in *. lia. }
  rewrite <- Z.lxor_lor by exact Hland.
  symmetry. apply Z.add_nocarry_lxor. exact Hland.
Qed.

Lemma fold_be_app (l : list byte) :
  forall acc,
    fold_left (fun a b => a * 256 + byte_val b) l acc
    = acc * 256 ^ Z.of_nat (length l) + be_value l.
Proof.
  unfold be_value. induction l as [|b l IH]; intros acc; cbn [fold_left length].
  - change (256 ^ Z.of_nat 0) with 1. lia.
  - rewrite IH, (IH (0 * 256 + byte_val b)).
    rewrite Nat2Z.inj_succ, Z.pow_succ_r by lia. lia.
Qed.

Lemma be_value_cons (b : byte) (l : list byte) :
  be_value (b :: l) = byte_val b * 256 ^ Z.of_nat (length l) + be_value l.
Proof.
  unfold be_value at 1. cbn [fold_left]. rewrite fold_be_app. lia.
Qed.

Lemma be_value_bound (l : list byte) :
  0 <= be_value l < 256 ^ Z.of_nat (length l).
Proof.
  induction l as [|b l IH].
  - cbn. lia.
  - rewrite be_value_cons. cbn [length].
    rewrite Nat2Z.inj_succ, Z.pow_succ_r by lia.
    pose proof (byte_val_range b). nia.
Qed.

Lemma load_drop (w : list byte) (p : Z) (b : byte) :
  load w p = Ret b ->
  0 <= p /\ drop (Z.to_nat p) w = b :: drop (Z.to_nat (p + 1)) w.
Proof.
  unfold load. intros H.
  destruct (Z.ltb_spec p 0); [discriminate|].
  destruct (w !! Z.to_nat p) as [b'|] eqn:Hb; [|discriminate].
  inversion H; subst b'. split; [assumption|].
  replace (Z.to_nat (p + 1)) with (S (Z.to_nat p)) by lia.
  apply drop_S. exact Hb.
Qed.

(** The loop of [gst_matroska_parser_read_data], when it returns, has
    accumulated the bytes it passed over, most significant first, as long
    as 64 bits are not exceeded. *)
Lemma read_data_loop_value (w : list byte) (n : nat) :
  forall p d k m,
    0 <= k -> k + 8 * Z.of_nat n <= 64 -> 0 <= d < 2 ^ k ->
    read_data_loop w p n d = Ret m ->
    length (slice w p n) = n
    /\ m = d * 256 ^ Z.of_nat n + be_value (slice w p n).
Proof.
  unfold slice.
  induction n as [|n IH]; intros p d k m Hk Hfit Hd Hrun;
    cbn [read_data_loop] in Hrun.
  - inversion Hrun; subst. rewrite take_0. cbn. split; [reflexivity|lia].
  - destruct (load w p) as [b| |] eqn:Hb; cbn [bind] in Hrun;
      try discriminate.
    destruct (load_drop _ _ _ Hb) as [Hp Hdrop].
    assert (Hk8 : k + 8 <= 64) by lia.
    pose proof (shift_in_byte_bound d k b Hk Hk8 Hd) as Hstep.
    assert (Hnew : Z.lor (wrap64 (Z.shiftl d 8)) (byte_val b)
                   = d * 256 + byte_val b).
    { rewrite wrap64_small; [apply lor_shift_byte; lia|].
      rewrite Z.shiftl_mul_pow2 by lia.
      assert (2 ^ k * 2 ^ 8 <= 2 ^ 64).
      { rewrite <- Z.pow_add_r by lia. apply Z.pow_le_mono_r; lia. }
      nia. }
    destruct (IH (p + 1) (Z.lor (wrap64 (Z.shiftl d 8)) (byte_val b))
                (k + 8) m) as [Hlen Hm];
      [lia | lia | exact Hstep | exact Hrun |].
    rewrite Hdrop, firstn_cons. cbn [length]. split; [lia|].
    rewrite be_value_cons, Hlen, Hm, Hnew.
    rewrite Nat2Z.inj_succ, Z.pow_succ_r by lia. lia.
Qed.

Lemma read_data_loop_out (w : list byte) (n : nat) :
  forall p d,
    0 <= p -> Z.of_nat (length w) < p + Z.of_nat (S n) ->
    read_data_loop w p (S n) d = OutOfBounds.
Proof.
  induction n as [|n IH]; intros p d Hp Hout;
    cbn [read_data_loop]; unfold load at 1;
    (destruct (Z.ltb_spec p 0); [lia|]);
    (destruct (w !! Z.to_nat p) as [b|] eqn:Hb; [|reflexivity]);
    cbn [bind]; apply lookup_lt_Some in Hb.
  - lia.
  - apply IH; lia.
Qed.

Lemma slice_app (pre l rest : list byte) :
  slice (pre ++ l ++ rest) (Z.of_nat (length pre)) (length l) = l.
Proof.
  unfold slice. rewrite Nat2Z.id, drop_app_length, take_app_length.
  reflexivity.
Qed.

(** The bytes found at a given place of the window are read back as the
    number they denote. *)
Lemma read_data_loop_at (pre l rest : list byte) (d k : Z) :
  0 <= k -> k + 8 * Z.of_nat (length l) <= 64 -> 0 <= d < 2 ^ k ->
  read_data_loop (pre ++ l ++ rest) (Z.of_nat (length pre)) (length l) d
  = Ret (d * 256 ^ Z.of_nat (length l) + be_value l).
Proof.
  intros Hk Hfit Hd.
  destruct (read_data_loop_in_bounds (pre ++ l ++ rest) (length l)
              (Z.of_nat (length pre)) d) as [m Hm]; [lia| |].
  { rewrite !length_app. lia. }
  rewrite Hm. f_equal.
  destruct (read_data_loop_value _ _ _ _ _ _ Hk Hfit Hd Hm) as [_ ->].
  rewrite slice_app. reflexivity.
Qed.

(** ** [gst_matroska_parser_read_data] *)

Lemma read_data_cases (w : list byte) (p len : Z) :
  0 <= p ->
  (1 <= len <= 8 ->
   (p + len <= Z.of_nat (length w) ->
    gst_matroska_parser_read_data w p len
    = Ret (be_value (slice w p (Z.to_nat len)))
    /\ 0 <= be_value (slice w p (Z.to_nat len)) < 256 ^ len)
   /\ (Z.of_nat (length w) < p + len ->
       gst_matroska_parser_read_data w p len = OutOfBounds))
  /\ (len = 0 \/ 8 < len -> gst_matroska_parser_read_data w p len = Ret 0).
Proof.
  intros Hp. unfold gst_matroska_parser_read_data. split.
  - intros Hlen.
    replace ((len =? 0) || (len >? 8)) with false
      by (symmetry; apply orb_false_intro; lia).
    split.
    + intros Hfit.
      destruct (read_data_loop_in_bounds w (Z.to_nat len) p 0) as [m Hm];
        [lia | lia |].
      destruct (read_data_loop_value w (Z.to_nat len) p 0 0 m) as [Hl Hv];
        [lia | lia | cbn; lia | exact Hm |].
      rewrite Hm. cbn in Hv. subst m. split; [reflexivity|].
      pose proof (be_value_bound (slice w p (Z.to_nat len))) as Hb.
      rewrite Hl in Hb. rewrite Z2Nat.id in Hb by lia. exact Hb.
    + intros Hout.
      replace (Z.to_nat len) with (S (Z.to_nat (len - 1))) by lia.
      apply read_data_loop_out; lia.
  - intros Hlen.
    replace ((len =? 0) || (len >? 8)) with true
      by (symmetry; apply orb_true_iff; lia).
    reflexivity.
Qed.

(** For a length in 1..8, [gst_matroska_parser_read_data] reads exactly the
    [len] bytes from [p]: it returns the number they denote, most
    significant byte first, when they are all mapped, and reads out of
    bounds otherwise.  For a length of 0 or above 8 it returns 0 and reads
    nothing. *)
Theorem read_data_big_endian (w : list byte) (p len : Z) :
  0 <= p ->
  (1 <= len <= 8 ->
   (p + len <= Z.of_nat (length w) ->
    gst_matroska_parser_read_data w p len
    = Ret (be_value (slice w p (Z.to_nat len)))
    /\ 0 <= be_value (slice w p (Z.to_nat len)) < 256 ^ len)
   /\ (Z.of_nat (length w) < p + len ->
       gst_matroska_parser_read_data w p len = OutOfBounds))
  /\ (len = 0 \/ 8 < len -> gst_matroska_parser_read_data w p len = Ret 0).
Proof. exact (read_data_cases w p len). Qed.

Lemma read_data_big_endian_witness :
  gst_matroska_parser_read_data sample_stream 26 3 = Ret 0x2AD7B1.
Proof.
  refine (proj1 (proj1 (proj1 (read_data_big_endian sample_stream 26 3 _) _)
                   _)).
  - lia.
  - lia.
  - vm_compute. discriminate.
Defined.

(** ** The coding of sizes *)

Lemma be_bytes_length (n : nat) (v : Z) : length (be_bytes n v) = n.
Proof. induction n as [|n IH]; cbn [be_bytes length]; congruence. Qed.

Lemma be_value_be_bytes (n : nat) (v : Z) :
  be_value (be_bytes n v) = v mod 256 ^ Z.of_nat n.
Proof.
  induction n as [|n IH]; cbn [be_bytes].
  - change (256 ^ Z.of_nat 0) with 1. rewrite Z.mod_1_r. reflexivity.
  - assert (Hpos : 0 < 256 ^ Z.of_nat n) by (apply Z.pow_pos_nonneg; lia).
    rewrite be_value_cons, be_bytes_length, IH, byte_of_Z_val
      by (apply Z.mod_pos_bound; lia).
    rewrite Nat2Z.inj_succ, Z.pow_succ_r by lia.
    rewrite (Z.mul_comm 256), Z.rem_mul_r by lia. lia.
Qed.

(** The announced length of a byte is read off its magnitude. *)
Lemma read_len_magnitude (b : byte) :
  gst_matroska_parser_read_len b <= 8 ->
  2 ^ (8 - gst_matroska_parser_read_len b) <= byte_val b
  < 2 ^ (9 - gst_matroska_parser_read_len b).
Proof.
  destruct b; vm_compute; intros H;
    solve [ exfalso; apply H; reflexivity
          | split; [discriminate | reflexivity] ].
Qed.

Lemma read_len_of_magnitude (b : byte) (len : Z) :
  1 <= len <= 8 ->
  2 ^ (8 - len) <= byte_val b < 2 ^ (9 - len) ->
  gst_matroska_parser_read_len b = len.
Proof.
  intros Hlen Hb. pose proof (read_len_range b) as Hr.
  destruct (Z_le_gt_dec (gst_matroska_parser_read_len b) 8) as [Hle|Hgt].
  - pose proof (read_len_magnitude b Hle) as Hm.
    set (l' := gst_matroska_parser_read_len b) in *.
    destruct (Z_lt_ge_dec len l') as [Hlt|Hge].
    + assert (2 ^ (9 - l') <= 2 ^ (8 - len))
        by (apply Z.pow_le_mono_r; lia). lia.
    + destruct (Z_lt_ge_dec l' len) as [Hlt'|Hge']; [|lia].
      assert (2 ^ (9 - len) <= 2 ^ (8 - l'))
        by (apply Z.pow_le_mono_r; lia). lia.
  - apply read_len_zero_byte in Hgt. subst b.
    assert (0 < 2 ^ (8 - len)) by (apply Z.pow_pos_nonneg; lia).
    change (byte_val x00) with 0 in Hb. lia.
Qed.

(** The leading byte of a coded size announces the coded length. *)
Lemma encode_vint_head (len m : Z) :
  1 <= len <= 8 -> 0 <= m < 2 ^ (7 * len) ->
  exists b tl,
    encode_vint len m = b :: tl
    /\ length tl = Z.to_nat (len - 1)
    /\ gst_matroska_parser_read_len b = len
    /\ byte_val b * 256 ^ (len - 1) + be_value tl = m + 2 ^ (7 * len).
Proof.
  intros Hlen Hm. unfold encode_vint.
  replace (Z.to_nat len) with (S (Z.to_nat (len - 1))) by lia.
  cbn [be_bytes]. rewrite Z2Nat.id by lia.
  set (v := m + 2 ^ (7 * len)).
  assert (Hp7 : 2 ^ (7 * len) = 2 ^ (8 - len) * 256 ^ (len - 1)).
  { change 256 with (2 ^ 8). rewrite <- Z.pow_mul_r, <- Z.pow_add_r by lia.
    f_equal. lia. }
  assert (Hpos : 0 < 256 ^ (len - 1)) by (apply Z.pow_pos_nonneg; lia).
  assert (Hp8 : 0 < 2 ^ (8 - len)) by (apply Z.pow_pos_nonneg; lia).
  assert (Htop : 2 ^ (8 - len) <= v / 256 ^ (len - 1) < 2 ^ (9 - len)).
  { replace (9 - len) with (Z.succ (8 - len)) by lia.
    rewrite Z.pow_succ_r by lia. split.
    - apply Z.div_le_lower_bound; [lia|]. unfold v. nia.
    - apply Z.div_lt_upper_bound; [lia|]. unfold v. nia. }
  assert (H256 : 2 ^ (9 - len) <= 256).
  { change 256 with (2 ^ 8). apply Z.pow_le_mono_r; lia. }
  assert (Hmod : (v / 256 ^ (len - 1)) mod 256 = v / 256 ^ (len - 1))
    by (apply Z.mod_small; lia).
  eexists _, _. split; [reflexivity|]. split; [apply be_bytes_length|].
  rewrite Hmod. split.
  - apply read_len_of_magnitude; [lia|].
    rewrite byte_of_Z_val by lia. exact Htop.
  - rewrite byte_of_Z_val, be_value_be_bytes, Z2Nat.id by lia.
    pose proof (Z.div_mod v (256 ^ (len - 1))). lia.
Qed.

(** Decoding a coded size gives the size back, wherever the coded bytes
    lie in the window. *)
Lemma read_data_len_encode_at (pre rest : list byte) (len m : Z) :
  1 <= len <= 8 -> 0 <= m < 2 ^ (7 * len) ->
  gst_matroska_parser_read_data_len (pre ++ encode_vint len m ++ rest)
    (Z.of_nat (length pre)) len = Ret m.
Proof.
  intros Hlen Hm.
  destruct (encode_vint_head len m Hlen Hm)
    as (b & tl & Henc & Htl & Hrl & Hval).
  rewrite Henc. unfold gst_matroska_parser_read_data_len.
  replace ((len =? 0) || (len >? 8)) with false
    by (symmetry; apply orb_false_intro; lia).
  assert (Hload : load (pre ++ (b :: tl) ++ rest) (Z.of_nat (length pre))
                  = Ret b).
  { unfold load. destruct (Z.ltb_spec (Z.of_nat (length pre)) 0); [lia|].
    rewrite Nat2Z.id, lookup_app_r by lia.
    rewrite Nat.sub_diag. reflexivity. }
  rewrite Hload. cbn [bind]. rewrite read_data_len_loop_eq.
  assert (Hle : gst_matroska_parser_read_len b <= 8) by lia.
  pose proof (read_len_magnitude b Hle) as Hmag. rewrite Hrl in Hmag.
  replace (9 - len) with (Z.succ (8 - len)) in Hmag by lia.
  rewrite Z.pow_succ_r in Hmag by lia.
  rewrite Z.shiftl_1_l.
  assert (H64 : 2 ^ (8 - len) <= 2 ^ 64) by (apply Z.pow_le_mono_r; lia).
  rewrite wrap64_small by lia.
  pose proof (read_data_loop_at (pre ++ [b]) tl rest
                (byte_val b - 2 ^ (8 - len)) (8 - len)) as Hloop.
  rewrite <- !app_assoc, length_app in Hloop. cbn [app length] in Hloop.
  replace (Z.of_nat (length pre + 1)) with (Z.of_nat (length pre) + 1)
    in Hloop by lia.
  rewrite Htl in Hloop. cbn [app]. rewrite Hloop by lia.
  f_equal. rewrite Z2Nat.id by lia.
  assert (Hp7 : 2 ^ (7 * len) = 2 ^ (8 - len) * 256 ^ (len - 1)).
  { change 256 with (2 ^ 8). rewrite <- Z.pow_mul_r, <- Z.pow_add_r by lia.
    f_equal. lia. }
  nia.
Qed.

(** Round trip of the size coding: for every length in 1..8 and every size
    that fits its [7 * len] data bits, the leading byte of the coded size
    announces [len], and [gst_matroska_parser_read_data_len] applied to the
    coded bytes, followed by anything, returns the size. *)
Theorem vint_round_trip (len m : Z) (rest : list byte) :
  1 <= len <= 8 -> 0 <= m < 2 ^ (7 * len) ->
  (exists b tl,
     encode_vint len m = b :: tl
     /\ gst_matroska_parser_read_len b = len)
  /\ gst_matroska_parser_read_data_len (encode_vint len m ++ rest) 0 len
     = Ret m.
Proof.
  intros Hlen Hm. split.
  - destruct (encode_vint_head len m Hlen Hm) as (b & tl & H1 & _ & H2 & _).
    eauto.
  - exact (read_data_len_encode_at [] rest len m Hlen Hm).
Qed.

Lemma vint_round_trip_witness :
  gst_matroska_parser_read_data_len
    (encode_vint 2 1000 ++ bytes_of [0x00]) 0 2 = Ret 1000.
Proof.
  refine (proj2 (vint_round_trip 2 1000 (bytes_of [0x00]) _ _)).
  - lia.
  - vm_compute. split; [discriminate | reflexivity].
Defined.

(** ** [gst_matroska_read_one_ebml_info] *)



(** A header read that reports 0 has left the size, the payload offset and
    the payload pointer of [*p_info] as they were; only the id may have
    been overwritten (when the size field could not be read).  It reports 0
    exactly when no byte is announced, or a field announces a length above
    8, or the announced size does not exceed the header. *)
Theorem read_one_failure_keeps_info (w : list byte) (buf size : Z)
  (p_info info : GstMatroskaEbmlInfo) :
  gst_matroska_read_one_ebml_info w buf size p_info = Ret (0, info) ->
  info_size info = info_size p_info
  /\ info_data_offset info = info_data_offset p_info
  /\ info_data_buf info = info_data_buf p_info
  /\ (size = 0
      \/ exists b,
           load w buf = Ret b
           /\ (gst_matroska_parser_read_len b > 8
               \/ size <= gst_matroska_parser_read_len b
               \/ exists b',
                    load w (buf + gst_matroska_parser_read_len b) = Ret b'
                    /\ (gst_matroska_parser_read_len b' > 8
                        \/ wrap64 (size - gst_matroska_parser_read_len b)
                           <= gst_matroska_parser_read_len b'))).
Proof.
  unfold gst_matroska_read_one_ebml_info. intros Hrun.
  destruct (Z.eqb_spec size 0) as [Hz|Hnz];
    [inversion Hrun; subst; auto|].
  destruct (load w buf) as [b1| |] eqn:Hb1; cbn [bind] in Hrun;
    try discriminate.
  pose proof (read_len_range b1) as Hr1.
  destruct ((size <=? gst_matroska_parser_read_len b1)
            || (gst_matroska_parser_read_len b1 >? 8)) eqn:Hg1.
  { inversion Hrun; subst. repeat split; try reflexivity.
    right. exists b1. split; [reflexivity|].
    apply orb_true_iff in Hg1. lia. }
  apply orb_false_elim in Hg1. destruct Hg1 as [Hg1a Hg1b].
  destruct (gst_matroska_parser_read_data w buf
              (gst_matroska_parser_read_len b1)) as [id| |] eqn:Hid;
    cbn [bind] in Hrun; try discriminate.
  destruct (load w (buf + gst_matroska_parser_read_len b1)) as [b2| |]
    eqn:Hb2; cbn [bind] in Hrun; try discriminate.
  pose proof (read_len_range b2) as Hr2.
  destruct ((wrap64 (size - gst_matroska_parser_read_len b1)
             <=? gst_matroska_parser_read_len b2)
            || (gst_matroska_parser_read_len b2 >? 8)) eqn:Hg2.
  { inversion Hrun; subst. cbn. repeat split; try reflexivity.
    right. exists b1. split; [reflexivity|]. right. right.
    exists b2. split; [exact Hb2|].
    apply orb_true_iff in Hg2. lia. }
  apply orb_false_elim in Hg2. destruct Hg2 as [Hg2a Hg2b].
  destruct (gst_matroska_parser_read_data_len w
              (buf + gst_matroska_parser_read_len b1)
              (gst_matroska_parser_read_len b2)) as [m| |] eqn:Hm;
    cbn [bind] in Hrun; try discriminate.
  exfalso.
  assert (Hle2 : gst_matroska_parser_read_len b2 <= 8) by lia.
  pose proof (masked_value_bound _ _ _ _ Hb2 Hle2 Hm) as Hbound.
  assert (Hr2' : 1 <= gst_matroska_parser_read_len b2 <= 8) by lia.
  pose proof (check_unknown_length_bound _ _ Hr2' Hbound) as Hsz.
  inversion Hrun as [[Hzero Hinfo]].
  rewrite wrap64_small in Hzero; [lia|].
  change (2 ^ 64) with (2 * 2 ^ 63). lia.
Qed.

Lemma read_one_failure_keeps_info_witness :
  info_size (mkInfo 0xEC 7 8 9) = info_size (mkInfo 5 7 8 9).
Proof.
  refine (proj1 (read_one_failure_keeps_info (bytes_of [0xEC; 0x00]) 0 2
                   (mkInfo 5 7 8 9) (mkInfo 0xEC 7 8 9) _)).
  vm_compute. reflexivity.
Defined.

(** ** Byte sequences and the numbers they denote *)

Lemma be_bytes_add (n : nat) :
  forall v k, be_bytes n (v + k * 256 ^ Z.of_nat n) = be_bytes n v.
Proof.
  induction n as [|n IH]; intros v k; cbn [be_bytes]; [reflexivity|].
  assert (Hpos : 0 < 256 ^ Z.of_nat n) by (apply Z.pow_pos_nonneg; lia).
  rewrite Nat2Z.inj_succ, Z.pow_succ_r by lia.
  replace (v + k * (256 * 256 ^ Z.of_nat n))
    with (v + (k * 256) * 256 ^ Z.of_nat n) by lia.
  rewrite IH, Z.div_add, Z.mod_add by lia. reflexivity.
Qed.

Lemma be_bytes_be_value (l : list byte) :
  be_bytes (length l) (be_value l) = l.
Proof.
  induction l as [|b l IH]; [reflexivity|].
  cbn [length be_bytes]. rewrite be_value_cons.
  pose proof (be_value_bound l) as Hb. pose proof (byte_val_range b) as Hv.
  assert (Hpos : 0 < 256 ^ Z.of_nat (length l))
    by (apply Z.pow_pos_nonneg; lia).
  rewrite (Z.add_comm (byte_val b * _)), be_bytes_add, IH.
  rewrite Z.div_add, Z.div_small, Z.add_0_l, Z.mod_small by lia.
  rewrite byte_of_Z_of_val. reflexivity.
Qed.

(** Byte sequences of one length that denote the same number are equal. *)
Lemma be_value_inj (l l' : list byte) :
  length l = length l' -> be_value l = be_value l' -> l = l'.
Proof.
  intros Hlen Hval.
  rewrite <- (be_bytes_be_value l), <- (be_bytes_be_value l').
  rewrite Hlen, Hval. reflexivity.
Qed.

Lemma load_at (pre rest : list byte) (b : byte) :
  load (pre ++ b :: rest) (Z.of_nat (length pre)) = Ret b.
Proof.
  unfold load. destruct (Z.ltb_spec (Z.of_nat (length pre)) 0); [lia|].
  rewrite Nat2Z.id, lookup_app_r by lia.
  rewrite Nat.sub_diag. reflexivity.
Qed.

Lemma read_data_at (pre l rest : list byte) :
  (1 <= length l <= 8)%nat ->
  gst_matroska_parser_read_data (pre ++ l ++ rest) (Z.of_nat (length pre))
    (Z.of_nat (length l)) = Ret (be_value l).
Proof.
  intros Hl. unfold gst_matroska_parser_read_data.
  replace ((Z.of_nat (length l) =? 0) || (Z.of_nat (length l) >? 8))
    with false by (symmetry; apply orb_false_intro; lia).
  rewrite Nat2Z.id.
  rewrite (read_data_loop_at pre l rest 0 0) by (cbn; lia).
  f_equal.
Qed.

(** ** Reading back a coded header *)

Lemma read_one_encoded (pre rest idb : list byte) (len m size : Z)
  (p_info : GstMatroskaEbmlInfo) :
  well_formed_id idb ->
  1 <= len <= 8 -> 0 <= m < 2 ^ (7 * len) ->
  Z.of_nat (length idb) + len < size < 2 ^ 64 ->
  gst_matroska_read_one_ebml_info
    (pre ++ idb ++ encode_vint len m ++ rest) (Z.of_nat (length pre)) size
    p_info
  = Ret (Z.of_nat (length idb) + len + check_unknown_length len m,
         mkInfo (be_value idb mod 2 ^ 32) (check_unknown_length len m)
           (Z.of_nat (length idb) + len)
           (Z.of_nat (length pre) + Z.of_nat (length idb) + len)).
Proof.
  intros (b & tl & Hidb & Hrl & Hn8) Hlen Hm Hsize.
  destruct (encode_vint_head len m Hlen Hm)
    as (b2 & tl2 & Henc & Htl2 & Hrl2 & _).
  assert (Hn1 : (1 <= length idb)%nat) by (subst idb; cbn; lia).
  unfold gst_matroska_read_one_ebml_info.
  replace (size =? 0) with false by lia.
  assert (Hload1 : load (pre ++ idb ++ encode_vint len m ++ rest)
                     (Z.of_nat (length pre)) = Ret b).
  { rewrite Hidb. cbn [app]. apply load_at. }
  rewrite Hload1. cbn [bind]. rewrite Hrl.
  replace ((size <=? Z.of_nat (length idb)) || (Z.of_nat (length idb) >? 8))
    with false by (symmetry; apply orb_false_intro; lia).
  rewrite read_data_at by lia. cbn [bind].
  assert (Hload2 : load (pre ++ idb ++ encode_vint len m ++ rest)
                     (Z.of_nat (length pre) + Z.of_nat (length idb))
                   = Ret b2).
  { rewrite Henc, app_assoc. cbn [app].
    replace (Z.of_nat (length pre) + Z.of_nat (length idb))
      with (Z.of_nat (length (pre ++ idb))) by (rewrite length_app; lia).
    apply load_at. }
  rewrite Hload2. cbn [bind]. rewrite Hrl2.
  rewrite (wrap64_small (size - Z.of_nat (length idb))) by lia.
  replace ((size - Z.of_nat (length idb) <=? len) || (len >? 8))
    with false by (symmetry; apply orb_false_intro; lia).
  assert (Hsz : gst_matroska_parser_read_data_len
                  (pre ++ idb ++ encode_vint len m ++ rest)
                  (Z.of_nat (length pre) + Z.of_nat (length idb)) len
                = Ret m).
  { rewrite app_assoc.
    replace (Z.of_nat (length pre) + Z.of_nat (length idb))
      with (Z.of_nat (length (pre ++ idb))) by (rewrite length_app; lia).
    apply read_data_len_encode_at; assumption. }
  rewrite Hsz. cbn [bind info_id].
  pose proof (check_unknown_length_bound len m Hlen Hm) as Hb.
  rewrite wrap64_small by (change (2 ^ 64) with (2 * 2 ^ 63); lia).
  unfold wrap32. repeat f_equal; lia.
Qed.

(** Round trip of element headers: wherever in the window the bytes of a
    well-formed id followed by a coded size lie, a header read that is
    announced more than those bytes returns the id (its low 32 bits), the
    size (the sentinel if the size is the reserved pattern), the header
    length as payload offset, and header length plus size as byte count. *)
Theorem header_round_trip (pre rest idb : list byte) (len m size : Z)
  (p_info : GstMatroskaEbmlInfo) :
  well_formed_id idb ->
  1 <= len <= 8 -> 0 <= m < 2 ^ (7 * len) ->
  Z.of_nat (length idb) + len < size < 2 ^ 64 ->
  gst_matroska_read_one_ebml_info
    (pre ++ idb ++ encode_vint len m ++ rest) (Z.of_nat (length pre)) size
    p_info
  = Ret (Z.of_nat (length idb) + len
         + (if m =? reserved_pattern len then UNKNOWN_SIZE else m),
         mkInfo (be_value idb mod 2 ^ 32)
           (if m =? reserved_pattern len then UNKNOWN_SIZE else m)
           (Z.of_nat (length idb) + len)
           (Z.of_nat (length pre) + Z.of_nat (length idb) + len)).
Proof.
  intros Hid Hlen Hm Hsize.
  rewrite (read_one_encoded pre rest idb len m size p_info Hid Hlen Hm Hsize).
  unfold check_unknown_length. rewrite (unknown_length_table len Hlen).
  rewrite (Z.eqb_sym m). reflexivity.
Qed.

Lemma header_round_trip_witness :
  gst_matroska_read_one_ebml_info
    (bytes_of [0x00] ++ bytes_of [0x2A; 0xD7; 0xB1] ++ encode_vint 1 3
     ++ bytes_of [0x0F; 0x42; 0x40])
    (Z.of_nat (length (bytes_of [0x00]))) 7 uninit_info
  = Ret (Z.of_nat (length (bytes_of [0x2A; 0xD7; 0xB1])) + 1
         + (if 3 =? reserved_pattern 1 then UNKNOWN_SIZE else 3),
         mkInfo (be_value (bytes_of [0x2A; 0xD7; 0xB1]) mod 2 ^ 32)
           (if 3 =? reserved_pattern 1 then UNKNOWN_SIZE else 3)
           (Z.of_nat (length (bytes_of [0x2A; 0xD7; 0xB1])) + 1)
           (Z.of_nat (length (bytes_of [0x00]))
            + Z.of_nat (length (bytes_of [0x2A; 0xD7; 0xB1])) + 1)).
Proof.
  apply (header_round_trip (bytes_of [0x00]) (bytes_of [0x0F; 0x42; 0x40])
           (bytes_of [0x2A; 0xD7; 0xB1]) 1 3 7 uninit_info).
  - exists x2a, [xd7; xb1]. repeat split; vm_compute; discriminate.
  - lia.
  - vm_compute. split; [discriminate | reflexivity].
  - vm_compute. split; reflexivity.
Defined.

(** ** The unknown-length sentinel, on the bytes of the size field *)

Lemma pow7_split (len : Z) :
  1 <= len <= 8 -> 2 ^ (7 * len) = 2 ^ (8 - len) * 256 ^ (len - 1).
Proof.
  intros Hlen. change 256 with (2 ^ 8).
  rewrite <- Z.pow_mul_r, <- Z.pow_add_r by lia. f_equal. lia.
Qed.

(** A well-formed size field is the coding of its masked value. *)
Lemma size_field_encoded (sf : list byte) :
  well_formed_size sf ->
  let len := Z.of_nat (length sf) in
  1 <= len <= 8
  /\ 0 <= masked_value sf < 2 ^ (7 * len)
  /\ sf = encode_vint len (masked_value sf).
Proof.
  intros (b & tl & Hsf & Hrl & H8) len.
  assert (Hlen : 1 <= len <= 8).
  { unfold len in *. rewrite Hsf in *. cbn [length] in *. lia. }
  split; [exact Hlen|].
  assert (Hle : gst_matroska_parser_read_len b <= 8) by lia.
  pose proof (read_len_magnitude b Hle) as Hmag. rewrite Hrl in Hmag.
  fold len in Hmag.
  replace (9 - len) with (Z.succ (8 - len)) in Hmag by lia.
  rewrite Z.pow_succ_r in Hmag by lia.
  pose proof (pow7_split len Hlen) as Hp7.
  pose proof (be_value_bound tl) as Htl.
  assert (Hltl : Z.of_nat (length tl) = len - 1).
  { unfold len. rewrite Hsf. cbn [length]. lia. }
  rewrite Hltl in Htl.
  assert (Hval : be_value sf = byte_val b * 256 ^ (len - 1) + be_value tl).
  { rewrite Hsf, be_value_cons, Hltl. reflexivity. }
  unfold masked_value. fold len. split; [nia|].
  unfold encode_vint.
  replace (be_value sf - 2 ^ (7 * len) + 2 ^ (7 * len)) with (be_value sf)
    by lia.
  unfold len. rewrite Nat2Z.id. symmetry. apply be_bytes_be_value.
Qed.

(** Clearing the marker bits of a well-formed size field takes the marker
    bit off the number it denotes. *)
Lemma size_field_cleared (sf : list byte) :
  well_formed_size sf ->
  decodeMasked_spec sf (Z.of_nat (length sf)) = Ret (masked_value sf).
Proof.
  intros Hsf.
  destruct (size_field_encoded sf Hsf) as (Hlen & Hm & _).
  destruct Hsf as (b & tl & Hsf & Hrl & H8).
  set (len := Z.of_nat (length sf)) in *.
  assert (Hle : gst_matroska_parser_read_len b <= 8) by lia.
  destruct (marker_subtracted b Hle) as [Hsub _]. cbv zeta in Hsub.
  pose proof (read_len_magnitude b Hle) as Hmag.
  rewrite Hrl in Hsub, Hmag.
  rewrite Z.shiftl_1_l in Hsub.
  assert (H64 : 2 ^ (9 - len) <= 2 ^ 64) by (apply Z.pow_le_mono_r; lia).
  rewrite wrap64_small in Hsub by lia.
  unfold decodeMasked_spec, clear_marker_bits. rewrite Hsf.
  set (b' := byte_of_Z (Z.land (byte_val b) (Z.ones (8 - len)))) in *.
  assert (Hl : Z.of_nat (length (b' :: tl)) = len).
  { unfold len. rewrite Hsf. reflexivity. }
  pose proof (read_data_at [] (b' :: tl) []) as Hread.
  rewrite app_nil_r in Hread.
  change ([] ++ b' :: tl) with (b' :: tl) in Hread.
  change (Z.of_nat (length (@nil byte))) with 0 in Hread.
  rewrite Hl in Hread. rewrite Hread.
  2:{ assert (Hn : Z.of_nat (length (b' :: tl)) = len) by exact Hl.
      lia. }
  f_equal. unfold masked_value. rewrite !be_value_cons.
  assert (Hlsf : Z.of_nat (length (b :: tl)) = len).
  { unfold len. rewrite Hsf. reflexivity. }
  rewrite Hlsf, <- Hsub.
  assert (Hltl : Z.of_nat (length tl) = len - 1).
  { unfold len. rewrite Hsf. cbn [length]. lia. }
  rewrite Hltl. rewrite (pow7_split len Hlen). lia.
Qed.

(** Every size that fits the [7 * len] data bits is the masked value of a
    well-formed size field of [len] bytes. *)
Lemma encode_vint_size_field (len m : Z) :
  1 <= len <= 8 -> 0 <= m < 2 ^ (7 * len) ->
  well_formed_size (encode_vint len m)
  /\ Z.of_nat (length (encode_vint len m)) = len
  /\ masked_value (encode_vint len m) = m.
Proof.
  intros Hlen Hm.
  destruct (encode_vint_head len m Hlen Hm)
    as (b & tl & Henc & Htl & Hrl & Hval).
  assert (Hl : Z.of_nat (length (encode_vint len m)) = len).
  { unfold encode_vint. rewrite be_bytes_length. lia. }
  split; [|split; [exact Hl|]].
  - exists b, tl. rewrite Hl. split; [exact Henc|]. split; [exact Hrl | lia].
  - unfold masked_value. rewrite Hl, Henc, be_value_cons, Htl.
    rewrite Z2Nat.id by lia. lia.
Qed.

Lemma read_one_size_field (pre rest idb sf : list byte) (size : Z)
  (p_info : GstMatroskaEbmlInfo) :
  well_formed_id idb ->
  well_formed_size sf ->
  Z.of_nat (length idb) + Z.of_nat (length sf) < size < 2 ^ 64 ->
  let len := Z.of_nat (length sf) in
  let m := masked_value sf in
  let w := pre ++ idb ++ sf ++ rest in
  gst_matroska_parser_read_data_len w
    (Z.of_nat (length pre) + Z.of_nat (length idb)) len = Ret m
  /\ exists bytes info,
       gst_matroska_read_one_ebml_info w (Z.of_nat (length pre)) size p_info
       = Ret (bytes, info)
       /\ info_size info
          = if m =? reserved_pattern len then UNKNOWN_SIZE else m.
Proof.
  intros Hid Hsf Hsize len m w.
  destruct (size_field_encoded sf Hsf) as (Hlen & Hm & Henc).
  fold len in Hlen, Hm, Henc. fold m in Hm, Henc.
  split.
  - pose proof (read_data_len_encode_at (pre ++ idb) rest len m Hlen Hm)
      as Hread.
    rewrite <- Henc, <- app_assoc, length_app, Nat2Z.inj_add in Hread.
    exact Hread.
  - pose proof (read_one_encoded pre rest idb len m size p_info Hid Hlen Hm
                  Hsize) as Hread.
    rewrite <- Henc in Hread. fold w in Hread.
    eexists _, _. split; [exact Hread|].
    cbn [info_size]. unfold check_unknown_length.
    rewrite (unknown_length_table len Hlen).
    rewrite (Z.eqb_sym m). reflexivity.
Qed.

(** C4.  Take a size field of [len] bytes, [len] in 1..8 announced by its
    first byte, behind a well-formed id, anywhere in the window.  Its
    masked value [m] is the number its bytes denote without the marker
    bit, which is the number they denote once the top [len] bits of the
    leading byte are cleared ([decodeMasked_spec]), and it is what
    [gst_matroska_parser_read_data_len] returns for the field.  It lies
    between 0 and the reserved all-data-bits pattern of [len], the entry
    of the table [unknown_length] for [len] (0x7F, 0x3FFF, ...,
    0x00FFFFFFFFFFFFFF).  The header read reports the sentinel
    [UNKNOWN_SIZE], never the literal value, when [m] is that pattern, and
    [m] itself for every other value.  Every value from 0 to the pattern
    is the masked value of such a field: of its coding on [len] bytes. *)
Theorem C4_unknown_length_sentinel :
  (forall (pre rest idb sf : list byte) (size : Z)
          (p_info : GstMatroskaEbmlInfo),
     well_formed_id idb ->
     well_formed_size sf ->
     Z.of_nat (length idb) + Z.of_nat (length sf) < size < 2 ^ 64 ->
     let len := Z.of_nat (length sf) in
     let m := masked_value sf in
     let w := pre ++ idb ++ sf ++ rest in
     1 <= len <= 8
     /\ 0 <= m <= reserved_pattern len
     /\ nth (Z.to_nat (len - 1)) unknown_length 0 = reserved_pattern len
     /\ decodeMasked_spec sf len = Ret m
     /\ gst_matroska_parser_read_data_len w
          (Z.of_nat (length pre) + Z.of_nat (length idb)) len = Ret m
     /\ exists bytes info,
          gst_matroska_read_one_ebml_info w (Z.of_nat (length pre)) size
            p_info
          = Ret (bytes, info)
          /\ (m = reserved_pattern len ->
              info_size info = UNKNOWN_SIZE /\ info_size info <> m)
          /\ (m <> reserved_pattern len -> info_size info = m))
  /\ (forall len m : Z,
        1 <= len <= 8 -> 0 <= m <= reserved_pattern len ->
        well_formed_size (encode_vint len m)
        /\ Z.of_nat (length (encode_vint len m)) = len
        /\ masked_value (encode_vint len m) = m)
  /\ map reserved_pattern [1; 2; 3; 4; 5; 6; 7; 8] = unknown_length.
Proof.
  split; [|split; [|reflexivity]].
  - intros pre rest idb sf size p_info Hid Hsf Hsize len m w.
    destruct (size_field_encoded sf Hsf) as (Hlen & Hm & _).
    fold len in Hlen, Hm. fold m in Hm.
    pose proof (reserved_pattern_bound len Hlen) as Hres.
    assert (Hones : reserved_pattern len = 2 ^ (7 * len) - 1).
    { unfold reserved_pattern. rewrite Z.ones_equiv. lia. }
    destruct (read_one_size_field pre rest idb sf size p_info Hid Hsf Hsize)
      as (Hdec & bytes & info & Hread & Hinfo).
    fold len m w in Hdec, Hread, Hinfo.
    split; [exact Hlen|]. split; [lia|].
    split; [exact (unknown_length_table len Hlen)|].
    split; [exact (size_field_cleared sf Hsf)|].
    split; [exact Hdec|].
    exists bytes, info. split; [exact Hread|].
    rewrite Hinfo. split.
    + intros ->. rewrite Z.eqb_refl. split; [reflexivity | lia].
    + intros Hne. destruct (Z.eqb_spec m (reserved_pattern len));
        [contradiction | reflexivity].
  - intros len m Hlen Hm. apply encode_vint_size_field; [exact Hlen|].
    unfold reserved_pattern in Hm. rewrite Z.ones_equiv in Hm. lia.
Qed.

Lemma C4_unknown_length_sentinel_witness :
  (exists bytes info,
     gst_matroska_read_one_ebml_info (bytes_of (segment_bytes ++ [0])) 0 13
       uninit_info
     = Ret (bytes, info)
     /\ info_size info = UNKNOWN_SIZE)
  /\ (exists bytes info,
        gst_matroska_read_one_ebml_info (bytes_of [0xEC; 0x85; 0]) 0 3
          uninit_info
        = Ret (bytes, info)
        /\ info_size info = 5)
  /\ masked_value (encode_vint 2 0x3FFF) = 0x3FFF.
Proof.
  split; [|split].
  - destruct (proj1 C4_unknown_length_sentinel []
                (bytes_of [0]) (bytes_of [0x18; 0x53; 0x80; 0x67])
                (bytes_of [0x01; 0xFF; 0xFF; 0xFF; 0xFF; 0xFF; 0xFF; 0xFF])
                13 uninit_info)
      as (_ & _ & _ & _ & _ & bytes & info & Hread & Hres & _).
    + exists x18, [x53; x80; x67].
      split; [reflexivity|]. split; [reflexivity|]. vm_compute. discriminate.
    + exists x01, [xff; xff; xff; xff; xff; xff; xff].
      split; [reflexivity|]. split; [reflexivity|]. vm_compute. discriminate.
    + vm_compute. split; reflexivity.
    + exists bytes, info. split; [exact Hread|].
      apply Hres. reflexivity.
  - destruct (proj1 C4_unknown_length_sentinel []
                (bytes_of [0]) (bytes_of [0xEC]) (bytes_of [0x85])
                3 uninit_info)
      as (_ & _ & _ & _ & _ & bytes & info & Hread & _ & Hplain).
    + exists xec, []. split; [reflexivity|]. split; [reflexivity|].
      vm_compute. discriminate.
    + exists x85, []. split; [reflexivity|]. split; [reflexivity|].
      vm_compute. discriminate.
    + vm_compute. split; reflexivity.
    + exists bytes, info. split; [exact Hread|].
      apply Hplain. vm_compute. discriminate.
  - apply (proj1 (proj2 C4_unknown_length_sentinel) 2 0x3FFF).
    + lia.
    + vm_compute. split; discriminate.
Defined.

(** ** [gst_matroska_parser_check_id] *)

Lemma check_id_cases (p : GstMatroskaParser) (a : GstAdapter) :
  (gst_adapter_available a < 4 ->
   gst_matroska_parser_check_id p GST_EBML_ID_HEADER 4 a
   = Ret GST_MATROSKA_PARSER_INSUFFICIENT_DATA)
  /\ (4 <= gst_adapter_available a ->
      (take 4 a = ebml_magic ->
       gst_matroska_parser_check_id p GST_EBML_ID_HEADER 4 a
       = Ret GST_MATROSKA_PARSER_OK)
      /\ (take 4 a <> ebml_magic ->
          gst_matroska_parser_check_id p GST_EBML_ID_HEADER 4 a
          = Ret GST_MATROSKA_PARSER_NOT_SUPPORTED)).
Proof.
  unfold gst_matroska_parser_check_id, gst_adapter_available.
  split; intros Hlen.
  - replace (Z.of_nat (length a) <? 4) with true by lia. reflexivity.
  - replace (Z.of_nat (length a) <? 4) with false by lia.
    unfold gst_adapter_map. change (Z.to_nat 4) with 4%nat.
    assert (Hl : length (take 4 a) = 4%nat) by (rewrite length_take; lia).
    pose proof (read_data_at [] (take 4 a) []) as Hread.
    rewrite Hl, app_nil_r in Hread. cbn [app length] in Hread.
    change (Z.of_nat 0) with 0 in Hread. change (Z.of_nat 4) with 4 in Hread.
    rewrite Hread by lia. cbn [bind].
    split; intros Hm.
    + rewrite Hm. reflexivity.
    + destruct (Z.eqb_spec (be_value (take 4 a)) GST_EBML_ID_HEADER)
        as [Heq | Hne]; [|reflexivity].
      exfalso. apply Hm. apply be_value_inj; [exact Hl|exact Heq].
Qed.

(** The check for the EBML magic: with fewer than 4 bytes available the
    answer is INSUFFICIENT_DATA and nothing is read; with 4 or more the
    answer is OK exactly when the first four bytes are 1A 45 DF A3, and
    NOT_SUPPORTED otherwise. *)
Theorem check_id_magic (p : GstMatroskaParser) (a : GstAdapter) :
  (gst_adapter_available a < 4 ->
   gst_matroska_parser_check_id p GST_EBML_ID_HEADER 4 a
   = Ret GST_MATROSKA_PARSER_INSUFFICIENT_DATA)
  /\ (4 <= gst_adapter_available a ->
      (take 4 a = ebml_magic ->
       gst_matroska_parser_check_id p GST_EBML_ID_HEADER 4 a
       = Ret GST_MATROSKA_PARSER_OK)
      /\ (take 4 a <> ebml_magic ->
          gst_matroska_parser_check_id p GST_EBML_ID_HEADER 4 a
          = Ret GST_MATROSKA_PARSER_NOT_SUPPORTED)).
Proof. exact (check_id_cases p a). Qed.

Lemma check_id_magic_witness :
  gst_matroska_parser_check_id zeroed_parser GST_EBML_ID_HEADER 4
    (bytes_of [0x1A; 0x45; 0xDF; 0xA4; 0x00])
  = Ret GST_MATROSKA_PARSER_NOT_SUPPORTED.
Proof.
  refine (proj2 (proj2 (check_id_magic zeroed_parser
                          (bytes_of [0x1A; 0x45; 0xDF; 0xA4; 0x00])) _) _).
  - vm_compute. discriminate.
  - vm_compute. discriminate.
Defined.

(** ** The status machine of [gst_matroska_parser_entry] *)

Lemma entry_header_without_magic (q : GstMatroskaParser) (a : GstAdapter) :
  (gst_adapter_available a < 4 ->
   entry_header q a = Ret (GST_MATROSKA_PARSER_INSUFFICIENT_DATA, Some q))
  /\ (4 <= gst_adapter_available a -> take 4 a <> ebml_magic ->
      entry_header q a = Ret (GST_MATROSKA_PARSER_NOT_SUPPORTED, Some q)).
Proof.
  destruct (check_id_cases q a) as [Hshort Hlong].
  unfold entry_header. split.
  - intros H. rewrite (Hshort H). reflexivity.
  - intros H Hm. rewrite (proj2 (Hlong H) Hm). reflexivity.
Qed.

(** A stream that does not start with the EBML magic is turned away before
    anything is parsed: a parser in INIT is zeroed and moved to HEADER, a
    parser in HEADER is left as it is, and the call returns
    INSUFFICIENT_DATA while fewer than 4 bytes are available and
    NOT_SUPPORTED once 4 bytes are there that are not 1A 45 DF A3.  The
    status stays HEADER, so the next call checks again. *)
Theorem entry_without_magic (p : GstMatroskaParser) (a : GstAdapter) :
  parser_status p = GST_MATROSKA_PARSER_STATUS_INIT
  \/ parser_status p = GST_MATROSKA_PARSER_STATUS_HEADER ->
  let q :=
    match parser_status p with
    | GST_MATROSKA_PARSER_STATUS_INIT =>
        set_status GST_MATROSKA_PARSER_STATUS_HEADER zeroed_parser
    | _ => p
    end in
  parser_status q = GST_MATROSKA_PARSER_STATUS_HEADER
  /\ (gst_adapter_available a < 4 ->
      gst_matroska_parser_entry (Some p) (Some a)
      = Ret (GST_MATROSKA_PARSER_INSUFFICIENT_DATA, Some q))
  /\ (4 <= gst_adapter_available a -> take 4 a <> ebml_magic ->
      gst_matroska_parser_entry (Some p) (Some a)
      = Ret (GST_MATROSKA_PARSER_NOT_SUPPORTED, Some q)).
Proof.
  intros Hst q. unfold gst_matroska_parser_entry. subst q.
  destruct Hst as [Hst | Hst]; rewrite Hst.
  - split; [reflexivity|]. unfold entry_init, gst_matroska_parser_init.
    apply entry_header_without_magic.
  - split; [exact Hst|]. apply entry_header_without_magic.
Qed.

Lemma entry_without_magic_witness :
  gst_matroska_parser_entry
    (Some (mkParser 7 7 7 7 7 7 7 0 None GST_MATROSKA_PARSER_STATUS_INIT
             true 7))
    (Some (bytes_of [0x1A; 0x45; 0xDF]))
  = Ret (GST_MATROSKA_PARSER_INSUFFICIENT_DATA,
         Some (set_status GST_MATROSKA_PARSER_STATUS_HEADER zeroed_parser)).
Proof.
  refine (proj1 (proj2 (entry_without_magic
                          (mkParser 7 7 7 7 7 7 7 0 None
                             GST_MATROSKA_PARSER_STATUS_INIT true 7)
                          (bytes_of [0x1A; 0x45; 0xDF]) _)) _).
  - left. reflexivity.
  - vm_compute. reflexivity.
Defined.

Lemma entry_header_status (q : GstMatroskaParser) (a : GstAdapter)
  (r : GstMatroskaParserResult) (op' : option GstMatroskaParser) :
  entry_header q a = Ret (r, op') ->
  (exists p0,
     gst_matroska_parser_check_id q GST_EBML_ID_HEADER 4 a
     = Ret GST_MATROSKA_PARSER_OK
     /\ entry_data (set_status GST_MATROSKA_PARSER_STATUS_DATA q) a
        = Ret (r, op')
     /\ op' = Some p0)
  \/ ((r = GST_MATROSKA_PARSER_INSUFFICIENT_DATA
       \/ r = GST_MATROSKA_PARSER_NOT_SUPPORTED)
      /\ op' = Some q).
Proof.
  unfold entry_header. intros H.
  destruct (gst_matroska_parser_check_id q GST_EBML_ID_HEADER 4 a)
    as [res| |] eqn:Hc; cbn [bind] in H; try discriminate.
  destruct (check_id_result _ _ _ _ _ Hc) as [-> | [-> | ->]].
  - right. inversion H. auto.
  - right. inversion H. auto.
  - left. destruct (entry_data_inv _ _ _ _ H) as (p0 & _ & [[_ ->] | [_ ->]]);
      eexists; repeat split; eauto.
Qed.

Lemma entry_data_status (q : GstMatroskaParser) (a : GstAdapter)
  (r : GstMatroskaParserResult) (op' : option GstMatroskaParser) :
  parser_status q = GST_MATROSKA_PARSER_STATUS_DATA ->
  entry_data q a = Ret (r, op') ->
  exists p',
    op' = Some p'
    /\ ((r = GST_MATROSKA_PARSER_DONE
         /\ parser_status p' = GST_MATROSKA_PARSER_STATUS_FINISHED)
        \/ (r = GST_MATROSKA_PARSER_OK
            /\ parser_status p' = GST_MATROSKA_PARSER_STATUS_DATA)).
Proof.
  intros Hst H.
  destruct (entry_data_inv _ _ _ _ H) as (p0 & Hx & Hcase).
  unfold gst_matroska_parser_extract_data in Hx.
  destruct (extract_loop_result _ _ _ _ _ Hx) as [_ Hsame].
  cbn [initial_state st_parser] in Hsame.
  destruct Hcase as [[-> ->] | [-> ->]]; eexists; split; try reflexivity.
  - left. split; [reflexivity|]. destruct p0; reflexivity.
  - right. split; [reflexivity|]. congruence.
Qed.

Lemma entry_status_cases (p : GstMatroskaParser) (a : GstAdapter)
  (r : GstMatroskaParserResult) (op' : option GstMatroskaParser) :
  gst_matroska_parser_entry (Some p) (Some a) = Ret (r, op') ->
  exists p',
    op' = Some p'
    /\ ((r = GST_MATROSKA_PARSER_DONE
         /\ parser_status p <> GST_MATROSKA_PARSER_STATUS_FINISHED
         /\ parser_status p' = GST_MATROSKA_PARSER_STATUS_FINISHED)
        \/ (r = GST_MATROSKA_PARSER_OK
            /\ parser_status p <> GST_MATROSKA_PARSER_STATUS_FINISHED
            /\ parser_status p' = GST_MATROSKA_PARSER_STATUS_DATA)
        \/ (r = GST_MATROSKA_PARSER_OK
            /\ parser_status p = GST_MATROSKA_PARSER_STATUS_FINISHED
            /\ p' = p)
        \/ ((r = GST_MATROSKA_PARSER_INSUFFICIENT_DATA
             \/ r = GST_MATROSKA_PARSER_NOT_SUPPORTED)
            /\ (parser_status p = GST_MATROSKA_PARSER_STATUS_INIT
                \/ parser_status p = GST_MATROSKA_PARSER_STATUS_HEADER)
            /\ parser_status p' = GST_MATROSKA_PARSER_STATUS_HEADER)).
Proof.
  unfold gst_matroska_parser_entry. intros H.
  assert (Hhdr : forall q,
             parser_status q = GST_MATROSKA_PARSER_STATUS_HEADER ->
             entry_header q a = Ret (r, op') ->
             exists p',
               op' = Some p'
               /\ ((r = GST_MATROSKA_PARSER_DONE
                    /\ parser_status p' = GST_MATROSKA_PARSER_STATUS_FINISHED)
                   \/ (r = GST_MATROSKA_PARSER_OK
                       /\ parser_status p' = GST_MATROSKA_PARSER_STATUS_DATA)
                   \/ ((r = GST_MATROSKA_PARSER_INSUFFICIENT_DATA
                        \/ r = GST_MATROSKA_PARSER_NOT_SUPPORTED)
                       /\ parser_status p'
                          = GST_MATROSKA_PARSER_STATUS_HEADER))).
  { intros q Hq Hh.
    destruct (entry_header_status _ _ _ _ Hh)
      as [(p0 & _ & Hd & _) | [Hr ->]].
    - assert (Hdata : parser_status
                        (set_status GST_MATROSKA_PARSER_STATUS_DATA q)
                      = GST_MATROSKA_PARSER_STATUS_DATA)
        by (destruct q; reflexivity).
      destruct (entry_data_status _ _ _ _ Hdata Hd) as (p' & -> & Hc).
      exists p'. split; [reflexivity|]. tauto.
    - exists q. split; [reflexivity|]. right. right. auto. }
  destruct (parser_status p) eqn:Hst.
  - unfold entry_init in H.
    destruct (Hhdr (set_status GST_MATROSKA_PARSER_STATUS_HEADER
                      (gst_matroska_parser_init p)) eq_refl H)
      as (p' & -> & Hc).
    exists p'. split; [reflexivity|].
    destruct Hc as [[-> Hs] | [[-> Hs] | [Hr Hs]]].
    + left. repeat split; [discriminate | exact Hs].
    + right. left. repeat split; [discriminate | exact Hs].
    + right. right. right. auto.
  - destruct (Hhdr _ Hst H) as (p' & -> & Hc).
    exists p'. split; [reflexivity|].
    destruct Hc as [[-> Hs] | [[-> Hs] | [Hr Hs]]].
    + left. repeat split; [discriminate | exact Hs].
    + right. left. repeat split; [discriminate | exact Hs].
    + right. right. right. auto.
  - destruct (entry_data_status _ _ _ _ Hst H) as (p' & -> & Hc).
    exists p'. split; [reflexivity|].
    destruct Hc as [[-> Hs] | [-> Hs]].
    + left. repeat split; [discriminate | exact Hs].
    + right. left. repeat split; [discriminate | exact Hs].
  - unfold entry_finished in H. inversion H. subst.
    exists p. split; [reflexivity|]. right. right. left. auto.
Qed.

(** The status only moves forward, INIT to HEADER to DATA to FINISHED: a
    call that returns never leaves the parser in INIT and never lowers the
    status.  The result is one of OK, DONE, INSUFFICIENT_DATA and
    NOT_SUPPORTED (never ERROR or ERROR_PARAM); DONE is returned exactly by
    the call that moves the parser to FINISHED, OK leaves it in DATA or
    FINISHED, and the other two leave it in HEADER. *)
Theorem entry_status_forward (p : GstMatroskaParser) (a : GstAdapter)
  (r : GstMatroskaParserResult) (op' : option GstMatroskaParser) :
  gst_matroska_parser_entry (Some p) (Some a) = Ret (r, op') ->
  exists p',
    op' = Some p'
    /\ status_rank (parser_status p) <= status_rank (parser_status p')
    /\ parser_status p' <> GST_MATROSKA_PARSER_STATUS_INIT
    /\ (r = GST_MATROSKA_PARSER_OK \/ r = GST_MATROSKA_PARSER_DONE
        \/ r = GST_MATROSKA_PARSER_INSUFFICIENT_DATA
        \/ r = GST_MATROSKA_PARSER_NOT_SUPPORTED)
    /\ (r = GST_MATROSKA_PARSER_DONE <->
        parser_status p <> GST_MATROSKA_PARSER_STATUS_FINISHED
        /\ parser_status p' = GST_MATROSKA_PARSER_STATUS_FINISHED)
    /\ (r = GST_MATROSKA_PARSER_OK ->
        parser_status p' = GST_MATROSKA_PARSER_STATUS_DATA
        \/ parser_status p' = GST_MATROSKA_PARSER_STATUS_FINISHED)
    /\ (r = GST_MATROSKA_PARSER_INSUFFICIENT_DATA
        \/ r = GST_MATROSKA_PARSER_NOT_SUPPORTED ->
        parser_status p' = GST_MATROSKA_PARSER_STATUS_HEADER).
Proof.
  intros H. destruct (entry_status_cases _ _ _ _ H) as (p' & -> & Hc).
  exists p'. split; [reflexivity|].
  destruct Hc as [(-> & Hp & Hp') | [(-> & Hp & Hp') | [(-> & Hp & ->)
                 | ([-> | ->] & Hp & Hp')]]];
    rewrite ?Hp'; destruct (parser_status p) eqn:Hst; cbn [status_rank];
    intuition (try discriminate; try congruence; try lia).
Qed.

Lemma entry_status_forward_witness :
  exists p',
    Some sample_finished_parser = Some p'
    /\ status_rank (parser_status zeroed_parser)
       <= status_rank (parser_status p').
Proof.
  destruct (entry_status_forward zeroed_parser sample_stream
              GST_MATROSKA_PARSER_DONE (Some sample_finished_parser))
    as (p' & Hp & Hrank & _).
  - vm_compute. reflexivity.
  - exists p'. split; assumption.
Defined.

(** ** A call seen from the entry point *)

(** A call that reaches the extraction loop is one run of the loop on the
    parser [extraction_input] describes, followed at most by the move to
    FINISHED. *)
Lemma entry_run (p p' q : GstMatroskaParser) (a : GstAdapter)
  (r : GstMatroskaParserResult) :
  gst_matroska_parser_entry (Some p) (Some a) = Ret (r, Some p') ->
  extraction_input p a = Some q ->
  exists p0,
    extract_loop (S (Z.to_nat (gst_adapter_available a))) a
      (initial_state q a) = Ret (r, p0)
    /\ (p' = p0 \/ p' = set_status GST_MATROSKA_PARSER_STATUS_FINISHED p0).
Proof.
  intros Hrun Hq. pose proof (entry_inv _ _ _ _ Hrun) as Hinv.
  rewrite Hq in Hinv.
  destruct (entry_data_inv _ _ _ _ Hinv) as (p0 & Hx & Hp').
  unfold gst_matroska_parser_extract_data in Hx.
  rewrite adapter_map_all in Hx.
  exists p0. split; [exact Hx|].
  destruct Hp' as [(_ & Heq) | (_ & Heq)]; inversion Heq; auto.
Qed.

(** ** The cue array across a call *)

Lemma current_entry_last (p : GstMatroskaParser) (e : option Z) (i : Z)
  (l : list GstMatroskaPointData) (x : GstMatroskaPointData) :
  cue_array_consistent p ->
  parser_array p = Some l ->
  l !! Z.to_nat i = Some x ->
  current_entry p e = Some i ->
  Z.to_nat i = (length l - 1)%nat.
Proof.
  unfold cue_array_consistent, current_entry. intros Hcons Harr Hx Hcur.
  rewrite Harr in Hcons, Hcur. apply lookup_lt_Some in Hx.
  destruct (Z.eqb_spec (parser_cue_point_num p) 0) as [Hz | Hnz];
    cbn [negb] in Hcur.
  - lia.
  - inversion Hcur. lia.
Qed.

Lemma dispatch_cue_effect (w : list byte) (p p1 : GstMatroskaParser)
  (info : GstMatroskaEbmlInfo) (c0 c : Z) (e : option Z) :
  dispatch w p info c0 (current_entry p e) = Ret (Next p1 c) ->
  cue_array_consistent p ->
  parser_cue_point_num p + 1 < 2 ^ 64 ->
  cue_array_consistent p1
  /\ parser_cue_point_num p1
     = parser_cue_point_num p
       + (if info_id info =? GST_MATROSKA_ID_POINTENTRY then 1 else 0)
  /\ (length (cue_list p) <= length (cue_list p1))%nat
  /\ take (length (cue_list p) - 1) (cue_list p1)
     = take (length (cue_list p) - 1) (cue_list p).
Proof.
  intros H Hcons Hfit.
  assert (Hnn : 0 <= parser_cue_point_num p).
  { unfold cue_array_consistent in Hcons.
    destruct (parser_array p); lia. }
  assert (Hrest :
            info_id info <> GST_MATROSKA_ID_POINTENTRY ->
            (parser_array p1 = parser_array p
             \/ exists l i x y,
                  parser_array p = Some l /\ l !! Z.to_nat i = Some x
                  /\ current_entry p e = Some i
                  /\ parser_array p1 = Some (<[Z.to_nat i := y]> l))
            /\ parser_cue_point_num p1 = parser_cue_point_num p).
  { intros Hid. dispatch_cases H; cbn;
      try (exfalso; apply Hid; assumption);
      (split; [|reflexivity]);
      first [ left; reflexivity
            | right; repeat eexists; eassumption ]. }
  destruct (Z.eqb_spec (info_id info) GST_MATROSKA_ID_POINTENTRY)
    as [Hid | Hid].
  - unfold dispatch in H. rewrite Hid in H. cbn in H. inversion H. subst p1.
    unfold cue_array_consistent, cue_list in *. cbn.
    rewrite wrap64_small by lia.
    destruct (parser_array p) as [l|]; cbn.
    + rewrite length_app. cbn. split; [lia|]. split; [reflexivity|].
      split; [lia|]. apply take_app_le. lia.
    + split; [lia|]. split; [reflexivity|]. split; [lia | reflexivity].
  - destruct (Hrest Hid) as [Harr Hcnt]. rewrite Hcnt, Z.add_0_r.
    unfold cue_array_consistent, cue_list in *.
    destruct Harr as [Harr | (l & i & x & y & Hl & Hx & Hcur & Harr)];
      rewrite Harr.
    + rewrite Hcnt. auto.
    + assert (Hi : Z.to_nat i = (length l - 1)%nat).
      { apply (current_entry_last p e i l x); auto. }
      rewrite Hl in *. rewrite length_insert.
      split; [congruence|]. split; [reflexivity|]. split; [lia|].
      apply take_insert_ge. lia.
Qed.

Lemma take_prefix_chain {A : Type} (l0 l1 l2 : list A) :
  (length l0 <= length l1)%nat ->
  take (length l0 - 1) l1 = take (length l0 - 1) l0 ->
  take (length l1 - 1) l2 = take (length l1 - 1) l1 ->
  take (length l0 - 1) l2 = take (length l0 - 1) l0.
Proof.
  intros Hlen H01 H12. rewrite <- H01.
  replace (length l0 - 1)%nat
    with (Nat.min (length l0 - 1) (length l1 - 1)) by lia.
  rewrite <- !take_take, H12. reflexivity.
Qed.

Lemma extract_loop_cue_array (w : list byte) (fuel : nat) :
  forall s res p',
    extract_loop fuel w s = Ret (res, p') ->
    cue_array_consistent (st_parser s) ->
    0 <= st_len s ->
    parser_cue_point_num (st_parser s) + st_len s < 2 ^ 64 ->
    cue_array_consistent p'
    /\ parser_cue_point_num p'
       = parser_cue_point_num (st_parser s)
         + count_id GST_MATROSKA_ID_POINTENTRY (dispatched fuel w s)
    /\ (length (cue_list (st_parser s)) <= length (cue_list p'))%nat
    /\ take (length (cue_list (st_parser s)) - 1) (cue_list p')
       = take (length (cue_list (st_parser s)) - 1) (cue_list (st_parser s)).
Proof.
  induction fuel as [|fuel IH]; intros s res p' Hrun Hcons Hlen Hfit;
    [discriminate|].
  assert (Hnn : 0 <= parser_cue_point_num (st_parser s)).
  { unfold cue_array_consistent in Hcons.
    destruct (parser_array (st_parser s)); lia. }
  cbn [extract_loop] in Hrun.
  destruct (extract_step w s) as [[s'|res' p'']| |] eqn:Hstep;
    cbn [bind] in Hrun; try discriminate.
  - destruct (extract_step_continue _ _ _ Hstep)
      as (info & p1 & c & Hh & _ & Hd & Hc & Hs' & _).
    rewrite (dispatched_unfold _ _ _ _ Hh), Hstep. cbn [count_id].
    destruct (dispatch_cue_effect _ _ _ _ _ _ _ Hd Hcons ltac:(lia))
      as (Hcons1 & Hcnt1 & Hlen1 & Htake1).
    assert (Hp' : cue_array_consistent (st_parser s')
                  /\ parser_cue_point_num (st_parser s')
                     = parser_cue_point_num p1
                  /\ cue_list (st_parser s') = cue_list p1
                  /\ st_len s' = st_len s - c).
    { subst s'. cbn [st_parser st_len]. repeat split.
      - exact Hcons1.
      - apply wrap64_small. lia. }
    destruct Hp' as (Hc' & Hn' & Hl' & Hlen').
    destruct (IH _ _ _ Hrun Hc')
      as (Hcons2 & Hcnt2 & Hlen2 & Htake2).
    { lia. }
    { rewrite Hn', Hcnt1, Hlen'.
      destruct (info_id info =? GST_MATROSKA_ID_POINTENTRY); lia. }
    rewrite Hl' in Hlen2, Htake2.
    split; [exact Hcons2|]. split; [lia|]. split; [lia|].
    apply (take_prefix_chain _ (cue_list p1)); assumption.
  - inversion Hrun; subst res' p''. clear Hrun.
    destruct (extract_step_return _ _ _ _ Hstep)
      as [(Hh & _ & ->) | [(info & Hh & Hid & _ & ->)
                         | (info & p1 & c & Hh & _ & Hd & Hc & _ & -> & _)]].
    + assert (Hnone : dispatched (S fuel) w s = []).
      { cbn [dispatched]. rewrite Hh. reflexivity. }
      rewrite Hnone. cbn [count_id].
      destruct (negb _); cbn; rewrite Z.add_0_r; auto.
    + rewrite (dispatched_unfold _ _ _ _ Hh), Hstep. cbn [count_id].
      rewrite Hid. cbn. rewrite Z.add_0_r. auto.
    + rewrite (dispatched_unfold _ _ _ _ Hh), Hstep. cbn [count_id].
      destruct (dispatch_cue_effect _ _ _ _ _ _ _ Hd Hcons ltac:(lia))
        as (Hcons1 & Hcnt1 & Hlen1 & Htake1).
      cbn. rewrite Z.add_0_r. auto.
Qed.

(** One array element per CuePoint: a call that enters the loop keeps the
    count [cue_point_num] equal to the length of the cue array and raises
    it by exactly the number of CuePoint headers it dispatches.  The array
    only grows, and every cue but the last one present before the call is
    left untouched (the last one is the one later leaves are written
    into). *)
Theorem entry_cue_array_grows (p p' q : GstMatroskaParser) (a : GstAdapter)
  (r : GstMatroskaParserResult) :
  gst_matroska_parser_entry (Some p) (Some a) = Ret (r, Some p') ->
  extraction_input p a = Some q ->
  cue_array_consistent q ->
  parser_cue_point_num q + gst_adapter_available a < 2 ^ 64 ->
  cue_array_consistent p'
  /\ parser_cue_point_num p'
     = parser_cue_point_num q
       + count_id GST_MATROSKA_ID_POINTENTRY (entry_dispatched p a)
  /\ (length (cue_list q) <= length (cue_list p'))%nat
  /\ take (length (cue_list q) - 1) (cue_list p')
     = take (length (cue_list q) - 1) (cue_list q).
Proof.
  intros Hrun Hq Hcons Hfit.
  destruct (entry_run _ _ _ _ _ Hrun Hq) as (p0 & Hx & Hp').
  unfold entry_dispatched. rewrite Hq, adapter_map_all.
  assert (Hlen : 0 <= gst_adapter_available a)
    by (unfold gst_adapter_available; lia).
  destruct (extract_loop_cue_array _ _ _ _ _ Hx Hcons Hlen Hfit)
    as (H1 & H2 & H3 & H4).
  cbn [initial_state st_parser] in *.
  destruct Hp' as [-> | ->]; [auto|].
  destruct p0; cbn in *. auto.
Qed.

Lemma entry_cue_array_grows_witness :
  cue_array_consistent sample_finished_parser
  /\ parser_cue_point_num sample_finished_parser
     = parser_cue_point_num
         (set_status GST_MATROSKA_PARSER_STATUS_DATA
            (set_status GST_MATROSKA_PARSER_STATUS_HEADER zeroed_parser))
       + count_id GST_MATROSKA_ID_POINTENTRY
           (entry_dispatched zeroed_parser sample_stream).
Proof.
  destruct (entry_cue_array_grows zeroed_parser sample_finished_parser
              (set_status GST_MATROSKA_PARSER_STATUS_DATA
                 (set_status GST_MATROSKA_PARSER_STATUS_HEADER zeroed_parser))
              sample_stream GST_MATROSKA_PARSER_DONE)
    as (H1 & H2 & _).
  - vm_compute. reflexivity.
  - vm_compute. reflexivity.
  - vm_compute. reflexivity.
  - vm_compute. reflexivity.
  - split; assumption.
Defined.

(** ** Which element writes which field *)

Lemma count_id_nonneg (id : Z) (l : list GstMatroskaEbmlInfo) :
  0 <= count_id id l.
Proof.
  induction l as [|i l IH]; cbn [count_id]; [lia|].
  destruct (info_id i =? id); lia.
Qed.

Lemma count_id_cons_zero (id : Z) (i : GstMatroskaEbmlInfo)
  (l : list GstMatroskaEbmlInfo) :
  count_id id (i :: l) = 0 -> info_id i <> id /\ count_id id l = 0.
Proof.
  cbn [count_id]. pose proof (count_id_nonneg id l) as Hnn.
  destruct (Z.eqb_spec (info_id i) id); intros H; split; lia || auto.
Qed.

(** A field that neither [set_consume] nor [set_offset] touches, and that
    the [switch] leaves alone for every id outside [ids], is the same after
    the loop when no header with an id of [ids] has been dispatched. *)
Lemma extract_loop_field {A : Type} (f : GstMatroskaParser -> A)
  (ids : list Z) (w : list byte) :
  (forall c p, f (set_consume c p) = f p) ->
  (forall o p, f (set_offset o p) = f p) ->
  (forall p info c0 e p1 c,
     dispatch w p info c0 e = Ret (Next p1 c) ->
     Forall (fun id => info_id info <> id) ids ->
     f p1 = f p) ->
  forall fuel s res p',
    extract_loop fuel w s = Ret (res, p') ->
    Forall (fun id => count_id id (dispatched fuel w s) = 0) ids ->
    f p' = f (st_parser s).
Proof.
  intros Hconsume Hoffset Hdispatch.
  induction fuel as [|fuel IH]; intros s res p' Hrun Hids; [discriminate|].
  cbn [extract_loop] in Hrun.
  destruct (extract_step w s) as [[s'|res' p'']| |] eqn:Hstep;
    cbn [bind] in Hrun; try discriminate.
  - destruct (extract_step_continue _ _ _ Hstep)
      as (info & p1 & c & Hh & _ & Hd & Hc & Hs' & _).
    rewrite (dispatched_unfold _ _ _ _ Hh), Hstep in Hids.
    assert (Hhere : Forall (fun id => info_id info <> id) ids).
    { eapply Forall_impl; [exact Hids|]. intros id Hz.
      exact (proj1 (count_id_cons_zero _ _ _ Hz)). }
    assert (Hlater : Forall
                       (fun id => count_id id (dispatched fuel w s') = 0)
                       ids).
    { eapply Forall_impl; [exact Hids|]. intros id Hz.
      exact (proj2 (count_id_cons_zero _ _ _ Hz)). }
    rewrite (IH _ _ _ Hrun Hlater). subst s'. cbn [st_parser].
    rewrite Hconsume. exact (Hdispatch _ _ _ _ _ _ Hd Hhere).
  - inversion Hrun; subst res' p''. clear Hrun.
    destruct (extract_step_return _ _ _ _ Hstep)
      as [(_ & _ & ->) | [(info & _ & _ & _ & ->)
                         | (info & p1 & c & Hh & _ & Hd & Hc & _ & -> & _)]].
    + destruct (negb _); [apply Hoffset | reflexivity].
    + reflexivity.
    + rewrite (dispatched_unfold _ _ _ _ Hh), Hstep in Hids.
      assert (Hhere : Forall (fun id => info_id info <> id) ids).
      { eapply Forall_impl; [exact Hids|]. intros id Hz.
        exact (proj1 (count_id_cons_zero _ _ _ Hz)). }
      rewrite Hoffset, Hconsume. exact (Hdispatch _ _ _ _ _ _ Hd Hhere).
Qed.

Ltac field_untouched :=
  let H := fresh "H" in
  let Hids := fresh "Hids" in
  intros ? ? ? ? ? ? H Hids;
  repeat match goal with
         | F : Forall _ (_ :: _) |- _ =>
             apply Forall_cons in F; destruct F as [? F]
         end;
  dispatch_cases H; cbn; try reflexivity; try congruence.

Lemma extract_loop_fields (w : list byte) (fuel : nat) (s : loop_state)
  (res : GstMatroskaParserResult) (p' : GstMatroskaParser) :
  extract_loop fuel w s = Ret (res, p') ->
  let none id := count_id id (dispatched fuel w s) = 0 in
  parser_total_length p' = parser_total_length (st_parser s)
  /\ parser_is_discard_ebml_header p'
     = parser_is_discard_ebml_header (st_parser s)
  /\ (none GST_MATROSKA_ID_TIMECODESCALE ->
      parser_time_scale p' = parser_time_scale (st_parser s))
  /\ (none GST_MATROSKA_ID_DURATION ->
      parser_duration p' = parser_duration (st_parser s))
  /\ (none GST_MATROSKA_ID_SEGMENT ->
      parser_segment_offset p' = parser_segment_offset (st_parser s))
  /\ (none GST_MATROSKA_ID_SEEKHEAD ->
      parser_segment_head_offset p'
      = parser_segment_head_offset (st_parser s))
  /\ (none GST_MATROSKA_ID_CUES ->
      parser_len p' = parser_len (st_parser s))
  /\ (none GST_MATROSKA_ID_POINTENTRY ->
      parser_cue_point_num p' = parser_cue_point_num (st_parser s))
  /\ (none GST_MATROSKA_ID_POINTENTRY -> none GST_MATROSKA_ID_CUETIME ->
      none GST_MATROSKA_ID_CUETRACK ->
      none GST_MATROSKA_ID_CUECLUSTERPOSITION ->
      parser_array p' = parser_array (st_parser s)).
Proof.
  intros Hrun none. subst none. cbv beta.
  split.
  { apply (extract_loop_field parser_total_length [] w) with (4 := Hrun);
      [reflexivity | reflexivity | field_untouched | constructor]. }
  split.
  { apply (extract_loop_field parser_is_discard_ebml_header [] w)
      with (4 := Hrun);
      [reflexivity | reflexivity | field_untouched | constructor]. }
  split.
  { intros Hn.
    apply (extract_loop_field parser_time_scale
             [GST_MATROSKA_ID_TIMECODESCALE] w) with (4 := Hrun);
      [reflexivity | reflexivity | field_untouched | auto]. }
  split.
  { intros Hn.
    apply (extract_loop_field parser_duration
             [GST_MATROSKA_ID_DURATION] w) with (4 := Hrun);
      [reflexivity | reflexivity | field_untouched | auto]. }
  split.
  { intros Hn.
    apply (extract_loop_field parser_segment_offset
             [GST_MATROSKA_ID_SEGMENT] w) with (4 := Hrun);
      [reflexivity | reflexivity | field_untouched | auto]. }
  split.
  { intros Hn.
    apply (extract_loop_field parser_segment_head_offset
             [GST_MATROSKA_ID_SEEKHEAD] w) with (4 := Hrun);
      [reflexivity | reflexivity | field_untouched | auto]. }
  split.
  { intros Hn.
    apply (extract_loop_field parser_len
             [GST_MATROSKA_ID_CUES] w) with (4 := Hrun);
      [reflexivity | reflexivity | field_untouched | auto]. }
  split.
  { intros Hn.
    apply (extract_loop_field parser_cue_point_num
             [GST_MATROSKA_ID_POINTENTRY] w) with (4 := Hrun);
      [reflexivity | reflexivity | field_untouched | auto]. }
  intros Hn1 Hn2 Hn3 Hn4.
  apply (extract_loop_field parser_array
           [GST_MATROSKA_ID_POINTENTRY; GST_MATROSKA_ID_CUETIME;
            GST_MATROSKA_ID_CUETRACK; GST_MATROSKA_ID_CUECLUSTERPOSITION] w)
    with (4 := Hrun);
    [reflexivity | reflexivity | field_untouched | auto].
Qed.

(** Each field of the parser is written by its own element only: a call
    that enters the loop never writes [total_length] and
    [is_discard_ebml_header], and leaves the time scale, the duration, the
    segment offset, the seek head offset, the end of the Cues element, the
    cue count and the cue array as they were unless it dispatches a
    TimecodeScale, Duration, Segment, SeekHead, Cues, CuePoint header (for
    the array: a CuePoint or one of the three cue leaves)
    respectively. *)
Theorem entry_fields_written_by_their_elements
  (p p' q : GstMatroskaParser) (a : GstAdapter)
  (r : GstMatroskaParserResult) :
  gst_matroska_parser_entry (Some p) (Some a) = Ret (r, Some p') ->
  extraction_input p a = Some q ->
  let none id := count_id id (entry_dispatched p a) = 0 in
  parser_total_length p' = parser_total_length q
  /\ parser_is_discard_ebml_header p' = parser_is_discard_ebml_header q
  /\ (none GST_MATROSKA_ID_TIMECODESCALE ->
      parser_time_scale p' = parser_time_scale q)
  /\ (none GST_MATROSKA_ID_DURATION ->
      parser_duration p' = parser_duration q)
  /\ (none GST_MATROSKA_ID_SEGMENT ->
      parser_segment_offset p' = parser_segment_offset q)
  /\ (none GST_MATROSKA_ID_SEEKHEAD ->
      parser_segment_head_offset p' = parser_segment_head_offset q)
  /\ (none GST_MATROSKA_ID_CUES -> parser_len p' = parser_len q)
  /\ (none GST_MATROSKA_ID_POINTENTRY ->
      parser_cue_point_num p' = parser_cue_point_num q)
  /\ (none GST_MATROSKA_ID_POINTENTRY -> none GST_MATROSKA_ID_CUETIME ->
      none GST_MATROSKA_ID_CUETRACK ->
      none GST_MATROSKA_ID_CUECLUSTERPOSITION ->
      parser_array p' = parser_array q).
Proof.
  intros Hrun Hq none. subst none. cbv beta.
  destruct (entry_run _ _ _ _ _ Hrun Hq) as (p0 & Hx & Hp').
  unfold entry_dispatched. rewrite Hq, adapter_map_all.
  pose proof (extract_loop_fields _ _ _ _ _ Hx) as Hf.
  cbv zeta in Hf. cbn [initial_state st_parser] in Hf.
  destruct Hp' as [-> | ->]; [exact Hf|].
  destruct p0; exact Hf.
Qed.

Lemma entry_fields_written_by_their_elements_witness :
  parser_total_length
    (mkParser 0 0 0 0 0 12 15 0 None GST_MATROSKA_PARSER_STATUS_FINISHED
       false 0)
  = parser_total_length parser_after_window_1.
Proof.
  refine (proj1 (entry_fields_written_by_their_elements
                   parser_after_window_1
                   (mkParser 0 0 0 0 0 12 15 0 None
                      GST_MATROSKA_PARSER_STATUS_FINISHED false 0)
                   parser_after_window_1 plain_window_2
                   GST_MATROSKA_PARSER_DONE _ _)).
  - vm_compute. reflexivity.
  - vm_compute. reflexivity.
Defined.

(** ** Calls that stay inside the mapped bytes, and calls that do not *)

Lemma entry_data_returns (q : GstMatroskaParser) (a : GstAdapter) :
  gst_adapter_available a < 2 ^ 64 ->
  parser_offset q = 0 ->
  cue_array_consistent q ->
  parser_cue_point_num q + gst_adapter_available a < 2 ^ 64 ->
  exists r p', entry_data q a = Ret (r, Some p').
Proof.
  intros Ha Hoff Hcons Hcnt. unfold entry_data, entry_finished.
  destruct (extract_data_from_start_returns q a Ha Hoff Hcons Hcnt)
    as [[r p0] ->].
  cbn [bind fst snd]. destruct r; eauto.
Qed.

Lemma entry_header_returns (q : GstMatroskaParser) (a : GstAdapter) :
  gst_adapter_available a < 2 ^ 64 ->
  parser_offset q = 0 ->
  cue_array_consistent q ->
  parser_cue_point_num q + gst_adapter_available a < 2 ^ 64 ->
  exists r p', entry_header q a = Ret (r, Some p').
Proof.
  intros Ha Hoff Hcons Hcnt. unfold entry_header.
  destruct (check_id_cases q a) as [Hshort Hlong].
  destruct (Z.ltb_spec (gst_adapter_available a) 4) as [Hlt | Hge].
  - rewrite (Hshort Hlt). cbn [bind]. eauto.
  - destruct (Hlong Hge) as [Hok Hbad].
    destruct (List.list_eq_dec Byte.byte_eq_dec (take 4 a) ebml_magic)
      as [Hm | Hm].
    + rewrite (Hok Hm). cbn [bind].
      apply entry_data_returns; auto.
    + rewrite (Hbad Hm). cbn [bind]. eauto.
Qed.

(** Memory safety of a call that starts at the beginning of the window:
    whatever the bytes are, a call on a parser in INIT or FINISHED, or on
    one whose saved offset is 0 and whose cue count is the length of its
    cue array, returns a result and a parser; no read or write leaves the
    mapped bytes or the cue array. *)
Theorem entry_from_offset_zero_returns (p : GstMatroskaParser)
  (a : GstAdapter) :
  gst_adapter_available a < 2 ^ 64 ->
  parser_status p = GST_MATROSKA_PARSER_STATUS_INIT
  \/ parser_status p = GST_MATROSKA_PARSER_STATUS_FINISHED
  \/ (parser_offset p = 0
      /\ cue_array_consistent p
      /\ parser_cue_point_num p + gst_adapter_available a < 2 ^ 64) ->
  exists r p', gst_matroska_parser_entry (Some p) (Some a) = Ret (r, Some p').
Proof.
  intros Ha Hp. unfold gst_matroska_parser_entry.
  assert (Hnn : 0 <= gst_adapter_available a)
    by (unfold gst_adapter_available; lia).
  destruct (parser_status p) eqn:Hst.
  - unfold entry_init, gst_matroska_parser_init.
    apply entry_header_returns; [exact Ha | reflexivity | reflexivity |].
    cbn. lia.
  - destruct Hp as [Hp | [Hp | (Hoff & Hcons & Hcnt)]]; try discriminate.
    apply entry_header_returns; auto.
  - destruct Hp as [Hp | [Hp | (Hoff & Hcons & Hcnt)]]; try discriminate.
    apply entry_data_returns; auto.
  - unfold entry_finished. eauto.
Qed.

Lemma entry_from_offset_zero_returns_witness :
  exists r p',
    gst_matroska_parser_entry
      (Some (mkParser 0 0 0 0 0 0 12 0 None GST_MATROSKA_PARSER_STATUS_DATA
               false 0))
      (Some truncated_cues_stream)
    = Ret (r, Some p').
Proof.
  apply (entry_from_offset_zero_returns
           (mkParser 0 0 0 0 0 0 12 0 None GST_MATROSKA_PARSER_STATUS_DATA
              false 0)
           truncated_cues_stream).
  - vm_compute. reflexivity.
  - right. right. split; [reflexivity|]. split; [reflexivity|].
    vm_compute. reflexivity.
Defined.

Lemma load_past_end (w : list byte) (i : Z) :
  Z.of_nat (length w) <= i -> load w i = OutOfBounds.
Proof.
  intros Hi. unfold load. destruct (Z.ltb_spec i 0); [reflexivity|].
  rewrite (proj2 (lookup_ge_None w (Z.to_nat i))); [reflexivity | lia].
Qed.

Lemma resumed_call_cases (p : GstMatroskaParser) (a : GstAdapter) :
  parser_status p = GST_MATROSKA_PARSER_STATUS_DATA ->
  0 <= parser_offset p ->
  0 < gst_adapter_available a <= parser_offset p
  \/ (exists b,
        load a (parser_offset p) = Ret b
        /\ gst_matroska_parser_read_len b <= 8
        /\ gst_matroska_parser_read_len b < gst_adapter_available a
        /\ gst_adapter_available a
           < parser_offset p + gst_matroska_parser_read_len b) ->
  gst_matroska_parser_entry (Some p) (Some a) = OutOfBounds.
Proof.
  intros Hst Hoff Hcase.
  unfold gst_matroska_parser_entry. rewrite Hst.
  unfold entry_data, gst_matroska_parser_extract_data.
  rewrite adapter_map_all. cbn [extract_loop].
  unfold extract_step at 1, gst_matroska_read_one_ebml_info.
  cbn [initial_state st_offset st_len st_info st_parser].
  destruct Hcase as [Hnone | (b & Hb & Hl8 & Hfit & Hpast)].
  - replace (gst_adapter_available a =? 0) with false by lia.
    rewrite load_past_end by (unfold gst_adapter_available in Hnone; lia).
    reflexivity.
  - assert (Hin : parser_offset p < gst_adapter_available a).
    { unfold gst_adapter_available.
      destruct (Z.ltb_spec (parser_offset p) (Z.of_nat (length a)))
        as [|Hge]; [assumption|].
      rewrite (load_past_end a _ Hge) in Hb. discriminate. }
    pose proof (read_len_range b) as Hr.
    replace (gst_adapter_available a =? 0) with false by lia.
    rewrite Hb. cbn [bind].
    replace ((gst_adapter_available a <=? gst_matroska_parser_read_len b)
             || (gst_matroska_parser_read_len b >? 8)) with false
      by (symmetry; apply orb_false_intro; lia).
    destruct (read_data_cases a (parser_offset p)
                (gst_matroska_parser_read_len b) Hoff) as [Hin8 _].
    rewrite (proj2 (Hin8 ltac:(lia)));
      [reflexivity | unfold gst_adapter_available in Hpast; lia].
Qed.

(** A first call on the first six bytes of [long_id_window] consumes the
    empty EBML header and saves offset 5. *)
Example long_id_first_call :
  feed_single (take 6 long_id_window)
  = Ret (GST_MATROSKA_PARSER_OK, Some parser_after_empty_header).
Proof. vm_compute. reflexivity. Qed.

(** The header reader gives up on the first byte when it announces more
    than 8 bytes, or no fewer than are available. *)
Lemma resumed_call_gives_up (p : GstMatroskaParser) (a : GstAdapter)
  (b : byte) :
  parser_status p = GST_MATROSKA_PARSER_STATUS_DATA ->
  load a (parser_offset p) = Ret b ->
  8 < gst_matroska_parser_read_len b
  \/ gst_adapter_available a <= gst_matroska_parser_read_len b ->
  gst_matroska_parser_entry (Some p) (Some a)
  = Ret (GST_MATROSKA_PARSER_OK, Some p).
Proof.
  intros Hst Hb Hcase.
  unfold gst_matroska_parser_entry. rewrite Hst.
  unfold entry_data, gst_matroska_parser_extract_data.
  rewrite adapter_map_all. cbn [extract_loop].
  unfold extract_step at 1, gst_matroska_read_one_ebml_info.
  cbn [initial_state st_offset st_len st_info st_parser].
  destruct (gst_adapter_available a =? 0).
  - cbn [bind fst snd adjust_consume]. unfold adjust_consume.
    cbn [negb Z.eqb orb bind fst snd]. rewrite set_offset_same.
    destruct (negb _); reflexivity.
  - rewrite Hb. cbn [bind].
    replace ((gst_adapter_available a <=? gst_matroska_parser_read_len b)
             || (gst_matroska_parser_read_len b >? 8)) with true
      by (symmetry; apply orb_true_iff; lia).
    cbn [bind fst snd]. unfold adjust_consume.
    cbn [negb Z.eqb orb bind fst snd]. rewrite set_offset_same.
    destruct (negb _); reflexivity.
Qed.

(** A resumed call announces to the header reader all the mapped bytes,
    not those left after the saved offset.  So a call in DATA whose saved
    offset is at or past the end of a non-empty window (nothing new has
    arrived since everything was consumed) dereferences the byte after the
    window.  One whose window ends inside the id that starts at the saved
    offset reads that id past the end, provided the announced length of
    the id is at most 8 and below the number of bytes available.  When the
    announced length is above 8, or not below the number of bytes
    available, the header reader gives up before it reads the id, and the
    call returns OK with the parser unchanged. *)
Theorem resumed_call_reads_past_window (p : GstMatroskaParser)
  (a : GstAdapter) :
  parser_status p = GST_MATROSKA_PARSER_STATUS_DATA ->
  0 <= parser_offset p ->
  (0 < gst_adapter_available a <= parser_offset p ->
   gst_matroska_parser_entry (Some p) (Some a) = OutOfBounds)
  /\ (forall b,
        load a (parser_offset p) = Ret b ->
        (gst_matroska_parser_read_len b <= 8 ->
         gst_matroska_parser_read_len b < gst_adapter_available a ->
         gst_adapter_available a
         < parser_offset p + gst_matroska_parser_read_len b ->
         gst_matroska_parser_entry (Some p) (Some a) = OutOfBounds)
        /\ (8 < gst_matroska_parser_read_len b
            \/ gst_adapter_available a <= gst_matroska_parser_read_len b ->
            gst_matroska_parser_entry (Some p) (Some a)
            = Ret (GST_MATROSKA_PARSER_OK, Some p))).
Proof.
  intros Hst Hoff. split.
  - intros Hnone. apply (resumed_call_cases p a Hst Hoff). left. exact Hnone.
  - intros b Hb. split.
    + intros H8 Hfit Hpast. apply (resumed_call_cases p a Hst Hoff).
      right. exists b. auto.
    + exact (resumed_call_gives_up p a b Hst Hb).
Qed.

Lemma resumed_call_reads_past_window_witness :
  gst_matroska_parser_entry (Some parser_after_window_1)
    (Some chained_window_1)
  = OutOfBounds
  /\ gst_matroska_parser_entry (Some parser_after_window_1)
       (Some (chained_window_1 ++ bytes_of [0x1A]))
     = OutOfBounds
  /\ gst_matroska_parser_entry
       (Some parser_after_empty_header) (Some long_id_window)
     = Ret (GST_MATROSKA_PARSER_OK, Some parser_after_empty_header).
Proof.
  split; [|split].
  - apply (resumed_call_reads_past_window parser_after_window_1
             chained_window_1).
    + reflexivity.
    + vm_compute. discriminate.
    + vm_compute. split; [reflexivity | discriminate].
  - apply (proj2 (resumed_call_reads_past_window parser_after_window_1
                    (chained_window_1 ++ bytes_of [0x1A])
                    eq_refl ltac:(vm_compute; discriminate)) x1a).
    + reflexivity.
    + vm_compute. discriminate.
    + vm_compute. reflexivity.
    + vm_compute. reflexivity.
  - apply (proj2 (resumed_call_reads_past_window
                    parser_after_empty_header
                    long_id_window
                    eq_refl ltac:(vm_compute; discriminate)) x01).
    + reflexivity.
    + right. vm_compute. discriminate.
Defined.

(** ** Reading at the cursor *)

Lemma window_split (w rest : list byte) (off : Z) :
  0 <= off ->
  drop (Z.to_nat off) w = rest ->
  rest <> [] ->
  w = take (Z.to_nat off) w ++ rest
  /\ Z.of_nat (length (take (Z.to_nat off) w)) = off.
Proof.
  intros Hoff Hdrop Hne. split.
  - rewrite <- Hdrop. symmetry. apply take_drop.
  - rewrite length_take.
    destruct (Nat.le_gt_cases (length w) (Z.to_nat off)) as [Hle | Hgt];
      [|lia].
    exfalso. apply Hne. rewrite <- Hdrop. apply drop_ge. exact Hle.
Qed.

Lemma encode_vint_length (k m : Z) :
  length (encode_vint k m) = Z.to_nat k.
Proof. unfold encode_vint. apply be_bytes_length. Qed.

Lemma element_length (idb : list byte) (k : Z) (payload : list byte) :
  0 <= k ->
  Z.of_nat (length (element idb k payload))
  = Z.of_nat (length idb) + k + Z.of_nat (length payload).
Proof.
  intros Hk. unfold element.
  rewrite !length_app, encode_vint_length. lia.
Qed.

Lemma well_formed_id_nonempty (idb : list byte) :
  well_formed_id idb -> 1 <= Z.of_nat (length idb) <= 8.
Proof.
  intros (b & tl & -> & _ & H8). cbn [length] in *. lia.
Qed.

Lemma read_one_view (w : list byte) (off : Z) (idb : list byte) (k m : Z)
  (tail : list byte) (size : Z) (p_info : GstMatroskaEbmlInfo) :
  0 <= off ->
  drop (Z.to_nat off) w = idb ++ encode_vint k m ++ tail ->
  well_formed_id idb ->
  1 <= k <= 8 -> 0 <= m < 2 ^ (7 * k) ->
  Z.of_nat (length idb) + k < size < 2 ^ 64 ->
  gst_matroska_read_one_ebml_info w off size p_info
  = Ret (Z.of_nat (length idb) + k + check_unknown_length k m,
         mkInfo (be_value idb mod 2 ^ 32) (check_unknown_length k m)
           (Z.of_nat (length idb) + k)
           (off + Z.of_nat (length idb) + k)).
Proof.
  intros Hoff Hdrop Hid Hk Hm Hsize.
  pose proof (well_formed_id_nonempty _ Hid) as Hn.
  destruct (window_split w _ off Hoff Hdrop) as [Hw Hpre].
  { destruct idb; [cbn in Hn; lia | discriminate]. }
  remember (take (Z.to_nat off) w) as pre eqn:Heqpre. clear Heqpre.
  rewrite Hw, <- Hpre.
  apply (read_one_encoded pre tail idb k m size p_info Hid Hk Hm Hsize).
Qed.

Lemma read_data_view (w : list byte) (p : Z) (l tail : list byte) :
  0 <= p ->
  drop (Z.to_nat p) w = l ++ tail ->
  (1 <= length l <= 8)%nat ->
  gst_matroska_parser_read_data w p (Z.of_nat (length l))
  = Ret (be_value l).
Proof.
  intros Hp Hdrop Hl.
  destruct (window_split w _ p Hp Hdrop) as [Hw Hpre].
  { destruct l; [cbn in Hl; lia | discriminate]. }
  remember (take (Z.to_nat p) w) as pre eqn:Heqpre. clear Heqpre.
  rewrite Hw, <- Hpre. apply read_data_at. exact Hl.
Qed.

Lemma drop_view (w : list byte) (off c : Z) (a tail : list byte) :
  0 <= off -> 0 <= c ->
  drop (Z.to_nat off) w = a ++ tail ->
  Z.of_nat (length a) = c ->
  drop (Z.to_nat (off + c)) w = tail.
Proof.
  intros Hoff Hc Hdrop Hlen.
  rewrite Z2Nat.inj_add by lia. rewrite <- drop_drop, Hdrop.
  replace (Z.to_nat c) with (length a) by lia.
  apply drop_app_length.
Qed.

Lemma check_unknown_length_plain (k m : Z) :
  1 <= k <= 8 -> 0 <= m < 2 ^ (7 * k) - 1 ->
  check_unknown_length k m = m.
Proof.
  intros Hk Hm. unfold check_unknown_length.
  rewrite (unknown_length_table k Hk).
  unfold reserved_pattern. rewrite Z.ones_equiv.
  destruct (Z.eqb_spec (Z.pred (2 ^ (7 * k))) m); [lia | reflexivity].
Qed.

(** ** One iteration on a known element *)

Lemma advance_eq (s : loop_state) (e : option Z)
  (info : GstMatroskaEbmlInfo) (p1 : GstMatroskaParser) (c : Z) :
  0 <= c <= st_len s -> st_len s < 2 ^ 64 ->
  0 <= st_offset s -> st_offset s + c < 2 ^ 64 ->
  0 <= parser_consume p1 -> parser_consume p1 + c < 2 ^ 64 ->
  advance s e info p1 c
  = if negb (parser_len p1 =? 0)
       && (parser_consume p1 + c >=? parser_len p1)
    then Return GST_MATROSKA_PARSER_DONE
           (set_offset (st_offset s + c)
              (set_consume (parser_consume p1 + c) p1))
    else Continue
           (mkState (set_consume (parser_consume p1 + c) p1)
              (st_offset s + c) (st_len s - c) e info).
Proof.
  intros Hc Hlen Hoff Hoff' Hcons Hcons'. unfold advance.
  rewrite !wrap64_small by lia. reflexivity.
Qed.

Lemma extract_step_element (w : list byte) (s : loop_state)
  (idb : list byte) (k m : Z) (tail : list byte) :
  0 <= st_offset s ->
  drop (Z.to_nat (st_offset s)) w = idb ++ encode_vint k m ++ tail ->
  well_formed_id idb ->
  1 <= k <= 8 -> 0 <= m < 2 ^ (7 * k) ->
  Z.of_nat (length idb) + k < st_len s < 2 ^ 64 ->
  let info :=
    mkInfo (be_value idb mod 2 ^ 32) (check_unknown_length k m)
      (Z.of_nat (length idb) + k)
      (st_offset s + Z.of_nat (length idb) + k) in
  let c0 :=
    adjust_consume
      (Z.of_nat (length idb) + k + check_unknown_length k m) info in
  0 < c0 <= st_len s ->
  extract_step w s
  = (d <- dispatch w (st_parser s) info c0
            (current_entry (st_parser s) (st_entry s)) ;;
     match d with
     | Leave res parser => Ret (Return res parser)
     | Next parser consume =>
         Ret (advance s (current_entry (st_parser s) (st_entry s)) info
                parser consume)
     end).
Proof.
  intros Hoff Hdrop Hid Hk Hm Hsize info c0 Hc0.
  unfold extract_step.
  rewrite (read_one_view w _ idb k m tail _ (st_info s) Hoff Hdrop Hid Hk Hm
             Hsize).
  cbn [bind fst snd]. fold info. fold c0.
  replace ((c0 =? 0) || (st_len s <? c0)) with false
    by (symmetry; apply orb_false_intro; lia).
  reflexivity.
Qed.

Lemma adjust_consume_whole (bytes : Z) (info : GstMatroskaEbmlInfo) :
  info_id info <> GST_MATROSKA_ID_SEGMENT ->
  info_id info <> GST_MATROSKA_ID_CUES ->
  info_id info <> GST_MATROSKA_ID_CLUSTER ->
  adjust_consume bytes info = bytes.
Proof.
  intros H1 H2 H3. unfold adjust_consume.
  destruct (negb (bytes =? 0)); [|reflexivity].
  replace (info_id info =? GST_MATROSKA_ID_SEGMENT) with false by lia.
  replace (info_id info =? GST_MATROSKA_ID_CUES) with false by lia.
  replace (info_id info =? GST_MATROSKA_ID_CLUSTER) with false by lia.
  reflexivity.
Qed.

Lemma adjust_consume_header (info : GstMatroskaEbmlInfo) :
  info_id info = GST_MATROSKA_ID_SEGMENT
  \/ info_id info = GST_MATROSKA_ID_CUES ->
  0 <= info_size info ->
  0 < info_data_offset info < 2 ^ 64 ->
  adjust_consume (info_data_offset info + info_size info) info
  = info_data_offset info.
Proof.
  intros Hid Hsz Hoff. unfold adjust_consume.
  replace (info_data_offset info + info_size info =? 0) with false by lia.
  cbn [negb].
  replace ((info_id info =? GST_MATROSKA_ID_SEGMENT)
           || (info_id info =? GST_MATROSKA_ID_CUES)
           || (info_id info =? GST_MATROSKA_ID_CLUSTER)) with true.
  2:{ symmetry. destruct Hid as [-> | ->]; reflexivity. }
  replace (info_data_offset info + info_size info >? info_size info)
    with true by lia.
  replace (info_data_offset info + info_size info - info_size info)
    with (info_data_offset info) by lia.
  apply wrap64_small. lia.
Qed.

Lemma extract_step_next (w : list byte) (s : loop_state)
  (idb : list byte) (k m : Z) (tail : list byte)
  (p1 : GstMatroskaParser) (c : Z) :
  0 <= st_offset s ->
  drop (Z.to_nat (st_offset s)) w = idb ++ encode_vint k m ++ tail ->
  well_formed_id idb ->
  1 <= k <= 8 -> 0 <= m < 2 ^ (7 * k) ->
  Z.of_nat (length idb) + k < st_len s < 2 ^ 64 ->
  let info :=
    mkInfo (be_value idb mod 2 ^ 32) (check_unknown_length k m)
      (Z.of_nat (length idb) + k)
      (st_offset s + Z.of_nat (length idb) + k) in
  let c0 :=
    adjust_consume
      (Z.of_nat (length idb) + k + check_unknown_length k m) info in
  let e := current_entry (st_parser s) (st_entry s) in
  0 < c0 <= st_len s ->
  dispatch w (st_parser s) info c0 e = Ret (Next p1 c) ->
  0 <= c <= st_len s ->
  st_offset s + c < 2 ^ 64 ->
  0 <= parser_consume p1 -> parser_consume p1 + c < 2 ^ 64 ->
  extract_step w s
  = Ret (if negb (parser_len p1 =? 0)
            && (parser_consume p1 + c >=? parser_len p1)
         then Return GST_MATROSKA_PARSER_DONE
                (set_offset (st_offset s + c)
                   (set_consume (parser_consume p1 + c) p1))
         else Continue
                (mkState (set_consume (parser_consume p1 + c) p1)
                   (st_offset s + c) (st_len s - c) e info)).
Proof.
  intros Hoff Hdrop Hid Hk Hm Hsize info c0 e Hc0 Hd Hc Hoffc Hcons Hconsc.
  rewrite (extract_step_element w s idb k m tail Hoff Hdrop Hid Hk Hm Hsize
             Hc0).
  fold info. fold c0. fold e. rewrite Hd. cbn [bind].
  rewrite advance_eq by lia. reflexivity.
Qed.

(** ** The ids as bytes *)

Ltac id_bytes_ok :=
  split; [|split];
  [ eexists _, _; split; [|split];
    [ vm_compute; reflexivity | vm_compute; reflexivity
    | vm_compute; discriminate ]
  | vm_compute; reflexivity
  | vm_compute; reflexivity ].

Lemma id_pointentry_ok :
  well_formed_id id_pointentry
  /\ be_value id_pointentry mod 2 ^ 32 = GST_MATROSKA_ID_POINTENTRY
  /\ Z.of_nat (length id_pointentry) = 1.
Proof. id_bytes_ok. Qed.

Lemma id_cuetime_ok :
  well_formed_id id_cuetime
  /\ be_value id_cuetime mod 2 ^ 32 = GST_MATROSKA_ID_CUETIME
  /\ Z.of_nat (length id_cuetime) = 1.
Proof. id_bytes_ok. Qed.

Lemma id_cuetrackposition_ok :
  well_formed_id id_cuetrackposition
  /\ be_value id_cuetrackposition mod 2 ^ 32
     = GST_MATROSKA_ID_CUETRACKPOSITION
  /\ Z.of_nat (length id_cuetrackposition) = 1.
Proof. id_bytes_ok. Qed.

Lemma id_cuetrack_ok :
  well_formed_id id_cuetrack
  /\ be_value id_cuetrack mod 2 ^ 32 = GST_MATROSKA_ID_CUETRACK
  /\ Z.of_nat (length id_cuetrack) = 1.
Proof. id_bytes_ok. Qed.

Lemma id_cueclusterposition_ok :
  well_formed_id id_cueclusterposition
  /\ be_value id_cueclusterposition mod 2 ^ 32
     = GST_MATROSKA_ID_CUECLUSTERPOSITION
  /\ Z.of_nat (length id_cueclusterposition) = 1.
Proof. id_bytes_ok. Qed.

Lemma ebml_magic_ok :
  well_formed_id ebml_magic
  /\ be_value ebml_magic mod 2 ^ 32 = GST_EBML_ID_HEADER
  /\ Z.of_nat (length ebml_magic) = 4.
Proof. id_bytes_ok. Qed.

Lemma id_segment_ok :
  well_formed_id id_segment
  /\ be_value id_segment mod 2 ^ 32 = GST_MATROSKA_ID_SEGMENT
  /\ Z.of_nat (length id_segment) = 4.
Proof. id_bytes_ok. Qed.

Lemma id_segmentinfo_ok :
  well_formed_id id_segmentinfo
  /\ be_value id_segmentinfo mod 2 ^ 32 = GST_MATROSKA_ID_SEGMENTINFO
  /\ Z.of_nat (length id_segmentinfo) = 4.
Proof. id_bytes_ok. Qed.

Lemma id_timecodescale_ok :
  well_formed_id id_timecodescale
  /\ be_value id_timecodescale mod 2 ^ 32 = GST_MATROSKA_ID_TIMECODESCALE
  /\ Z.of_nat (length id_timecodescale) = 3.
Proof. id_bytes_ok. Qed.

Lemma id_cues_ok :
  well_formed_id id_cues
  /\ be_value id_cues mod 2 ^ 32 = GST_MATROSKA_ID_CUES
  /\ Z.of_nat (length id_cues) = 4.
Proof. id_bytes_ok. Qed.

(** ** The iterations inside a cue point *)

Lemma pow7_ge (k : Z) : 1 <= k -> 128 <= 2 ^ (7 * k).
Proof.
  intros Hk. change 128 with (2 ^ 7).
  apply Z.pow_le_mono_r; lia.
Qed.

Lemma current_entry_with_cues (p : GstMatroskaParser)
  (l : list GstMatroskaPointData) (x : GstMatroskaPointData) (c : Z)
  (e : option Z) :
  current_entry (with_cues p (l ++ [x]) c) e = Some (Z.of_nat (length l)).
Proof.
  unfold current_entry, with_cues. cbn [parser_array parser_cue_point_num
    set_consume set_cue_point_num set_array].
  rewrite length_app. cbn [length].
  destruct (Z.eqb_spec (Z.of_nat (length l + 1)) 0) as [Hz | Hnz]; [lia|].
  cbn [negb]. f_equal. lia.
Qed.

Lemma assign_entry_last (w : list byte) (info : GstMatroskaEbmlInfo)
  (f : Z -> GstMatroskaPointData -> GstMatroskaPointData)
  (p : GstMatroskaParser) (l : list GstMatroskaPointData)
  (x : GstMatroskaPointData) (v : Z) :
  parser_array p = Some (l ++ [x]) ->
  gst_matroska_parser_read_data w (info_data_buf info) (info_size info)
  = Ret v ->
  assign_entry w (Some (Z.of_nat (length l))) info f p
  = Ret (set_array (Some (l ++ [f v x])) p).
Proof.
  intros Harr Hread. unfold assign_entry, store_entry.
  rewrite Hread. cbn [bind]. rewrite Harr, Nat2Z.id.
  rewrite list_lookup_middle by reflexivity.
  rewrite insert_app_r_alt by lia. rewrite Nat.sub_diag. reflexivity.
Qed.

Lemma with_cues_same_length (p : GstMatroskaParser)
  (arr arr' : list GstMatroskaPointData) (c c' : Z) :
  length arr' = length arr ->
  set_consume c' (set_array (Some arr') (with_cues p arr c))
  = with_cues p arr' c'.
Proof.
  intros Hlen. unfold with_cues. rewrite Hlen. reflexivity.
Qed.

Lemma step_cue_leaf (w : list byte) (s : loop_state) (idb : list byte)
  (id k : Z) (n : nat) (v : Z) (tail : list byte)
  (f : Z -> GstMatroskaPointData -> GstMatroskaPointData)
  (p : GstMatroskaParser) (l : list GstMatroskaPointData)
  (x : GstMatroskaPointData) (c : Z) :
  well_formed_id idb /\ be_value idb mod 2 ^ 32 = id
  /\ Z.of_nat (length idb) = 1 ->
  id <> GST_MATROSKA_ID_SEGMENT -> id <> GST_MATROSKA_ID_CUES ->
  id <> GST_MATROSKA_ID_CLUSTER ->
  (forall q info c0 e,
     info_id info = id ->
     dispatch w q info c0 e
     = (p' <- assign_entry w e info f q ;; Ret (Next p' c0))) ->
  st_parser s = with_cues p (l ++ [x]) c ->
  0 <= st_offset s ->
  drop (Z.to_nat (st_offset s)) w = element idb k (be_bytes n v) ++ tail ->
  1 <= k <= 8 -> uint_fits n v ->
  let total := 1 + k + Z.of_nat n in
  total <= st_len s < 2 ^ 64 ->
  st_offset s + total < 2 ^ 64 ->
  0 <= c -> c + total < 2 ^ 64 ->
  extract_step w s
  = Ret (if negb (parser_len p =? 0) && (c + total >=? parser_len p)
         then Return GST_MATROSKA_PARSER_DONE
                (set_offset (st_offset s + total)
                   (with_cues p (l ++ [f v x]) (c + total)))
         else Continue
                (mkState (with_cues p (l ++ [f v x]) (c + total))
                   (st_offset s + total) (st_len s - total)
                   (Some (Z.of_nat (length l)))
                   (mkInfo id (Z.of_nat n) (1 + k) (st_offset s + 1 + k)))).
Proof.
  intros (Hwf & Hidv & Hidl) Hn1 Hn2 Hn3 Hdisp Hp Hoff Hdrop Hk
    [Hn Hv] total Hlen Hoffc Hc Hcc.
  assert (Hpl : length (be_bytes n v) = n) by apply be_bytes_length.
  assert (Hm : 0 <= Z.of_nat n < 2 ^ (7 * k) - 1).
  { pose proof (pow7_ge k ltac:(lia)). lia. }
  unfold element in Hdrop. rewrite Hpl, <- !app_assoc in Hdrop.
  assert (Hcul : check_unknown_length k (Z.of_nat n) = Z.of_nat n)
    by (apply check_unknown_length_plain; lia).
  assert (Hread :
            gst_matroska_parser_read_data w (st_offset s + 1 + k)
              (Z.of_nat n) = Ret v).
  { rewrite <- Hpl at 1.
    rewrite (read_data_view w (st_offset s + 1 + k) (be_bytes n v) tail).
    - rewrite be_value_be_bytes. f_equal. apply Z.mod_small. exact Hv.
    - lia.
    - rewrite app_assoc in Hdrop.
      replace (st_offset s + 1 + k) with (st_offset s + (1 + k)) by lia.
      apply (drop_view w (st_offset s) (1 + k) _ _ Hoff ltac:(lia) Hdrop).
      rewrite length_app, encode_vint_length. lia.
    - lia. }
  pose proof (extract_step_next w s idb k (Z.of_nat n)
                (be_bytes n v ++ tail)
                (set_array (Some (l ++ [f v x])) (st_parser s)) total
                Hoff Hdrop Hwf Hk ltac:(lia) ltac:(lia)) as Hstep.
  cbv zeta in Hstep. rewrite Hcul, Hidv, Hidl in Hstep.
  rewrite adjust_consume_whole in Hstep by (cbn [info_id]; assumption).
  fold total in Hstep.
  rewrite Hstep; clear Hstep.
  - rewrite Hp, current_entry_with_cues.
    rewrite with_cues_same_length
      by (rewrite !length_app; reflexivity).
    reflexivity.
  - lia.
  - rewrite Hdisp by reflexivity.
    rewrite Hp, current_entry_with_cues.
    rewrite (assign_entry_last w _ f _ l x v); [reflexivity | reflexivity |].
    cbn [info_data_buf info_size]. exact Hread.
  - lia.
  - lia.
  - rewrite Hp. cbn. lia.
  - rewrite Hp. cbn. lia.
Qed.

Lemma cue_count_is_length (p : GstMatroskaParser) :
  cue_array_consistent p ->
  parser_cue_point_num p = Z.of_nat (length (cue_list p)).
Proof.
  unfold cue_array_consistent, cue_list.
  destruct (parser_array p); auto.
Qed.

Lemma step_master (w : list byte) (s : loop_state) (idb : list byte)
  (id k : Z) (payload tail : list byte) :
  well_formed_id idb -> be_value idb mod 2 ^ 32 = id ->
  id <> GST_MATROSKA_ID_SEGMENT -> id <> GST_MATROSKA_ID_CUES ->
  id <> GST_MATROSKA_ID_CLUSTER ->
  (forall q info c0 e,
     info_id info = id ->
     dispatch w q info c0 e = Ret (Next q (info_data_offset info))) ->
  0 <= st_offset s ->
  drop (Z.to_nat (st_offset s)) w = element idb k payload ++ tail ->
  1 <= k <= 8 -> Z.of_nat (length payload) < 2 ^ (7 * k) - 1 ->
  let h := Z.of_nat (length idb) + k in
  h < st_len s ->
  h + Z.of_nat (length payload) <= st_len s < 2 ^ 64 ->
  st_offset s + h < 2 ^ 64 ->
  0 <= parser_consume (st_parser s) ->
  parser_consume (st_parser s) + h < 2 ^ 64 ->
  extract_step w s
  = Ret (if negb (parser_len (st_parser s) =? 0)
            && (parser_consume (st_parser s) + h
                >=? parser_len (st_parser s))
         then Return GST_MATROSKA_PARSER_DONE
                (set_offset (st_offset s + h)
                   (set_consume (parser_consume (st_parser s) + h)
                      (st_parser s)))
         else Continue
                (mkState
                   (set_consume (parser_consume (st_parser s) + h)
                      (st_parser s))
                   (st_offset s + h) (st_len s - h)
                   (current_entry (st_parser s) (st_entry s))
                   (mkInfo id (Z.of_nat (length payload)) h
                      (st_offset s + h)))).
Proof.
  intros Hwf Hidv Hn1 Hn2 Hn3 Hdisp Hoff Hdrop Hk Hm h Hh Hlen Hoffc
    Hc Hcc.
  pose proof (well_formed_id_nonempty _ Hwf) as Hidl.
  unfold element in Hdrop.
  assert (Hcul : check_unknown_length k (Z.of_nat (length payload))
                 = Z.of_nat (length payload))
    by (apply check_unknown_length_plain; lia).
  pose proof (extract_step_next w s idb k (Z.of_nat (length payload))
                (payload ++ tail) (st_parser s) h
                Hoff ltac:(rewrite <- !app_assoc in Hdrop; exact Hdrop)
                Hwf Hk ltac:(lia) ltac:(lia)) as Hstep.
  cbv zeta in Hstep. rewrite Hcul, Hidv in Hstep.
  rewrite adjust_consume_whole in Hstep by (cbn [info_id]; assumption).
  fold h in Hstep.
  replace (st_offset s + Z.of_nat (length idb) + k)
    with (st_offset s + h) in Hstep by lia.
  rewrite Hstep; clear Hstep; try lia; [reflexivity|].
  rewrite Hdisp by reflexivity. reflexivity.
Qed.

Lemma dispatch_pointentry (w : list byte) (q : GstMatroskaParser)
  (info : GstMatroskaEbmlInfo) (c0 : Z) (e : option Z) :
  info_id info = GST_MATROSKA_ID_POINTENTRY ->
  dispatch w q info c0 e
  = Ret (Next
           (set_cue_point_num (wrap64 (parser_cue_point_num q + 1))
              (set_array (Some (cue_list q ++ [zeroed_point])) q))
           (info_data_offset info)).
Proof. intros H. unfold dispatch. rewrite H. reflexivity. Qed.

Lemma dispatch_cuetrackposition (w : list byte) (q : GstMatroskaParser)
  (info : GstMatroskaEbmlInfo) (c0 : Z) (e : option Z) :
  info_id info = GST_MATROSKA_ID_CUETRACKPOSITION ->
  dispatch w q info c0 e = Ret (Next q (info_data_offset info)).
Proof. intros H. unfold dispatch. rewrite H. reflexivity. Qed.

Lemma dispatch_segmentinfo (w : list byte) (q : GstMatroskaParser)
  (info : GstMatroskaEbmlInfo) (c0 : Z) (e : option Z) :
  info_id info = GST_MATROSKA_ID_SEGMENTINFO ->
  dispatch w q info c0 e = Ret (Next q (info_data_offset info)).
Proof. intros H. unfold dispatch. rewrite H. reflexivity. Qed.

Lemma dispatch_cuetime (w : list byte) (q : GstMatroskaParser)
  (info : GstMatroskaEbmlInfo) (c0 : Z) (e : option Z) :
  info_id info = GST_MATROSKA_ID_CUETIME ->
  dispatch w q info c0 e
  = (p' <- assign_entry w e info (fun v x => mkPoint v (track_pos x)) q ;;
     Ret (Next p' c0)).
Proof. intros H. unfold dispatch. rewrite H. reflexivity. Qed.

Lemma dispatch_cuetrack (w : list byte) (q : GstMatroskaParser)
  (info : GstMatroskaEbmlInfo) (c0 : Z) (e : option Z) :
  info_id info = GST_MATROSKA_ID_CUETRACK ->
  dispatch w q info c0 e
  = (p' <- assign_entry w e info
             (fun v x =>
                mkPoint (cue_time x)
                  (mkTrackPos v (cluster_pos (track_pos x)))) q ;;
     Ret (Next p' c0)).
Proof. intros H. unfold dispatch. rewrite H. reflexivity. Qed.

Lemma dispatch_cueclusterposition (w : list byte) (q : GstMatroskaParser)
  (info : GstMatroskaEbmlInfo) (c0 : Z) (e : option Z) :
  info_id info = GST_MATROSKA_ID_CUECLUSTERPOSITION ->
  dispatch w q info c0 e
  = (p' <- assign_entry w e info
             (fun v x =>
                mkPoint (cue_time x)
                  (mkTrackPos (track (track_pos x)) v)) q ;;
     Ret (Next p' c0)).
Proof. intros H. unfold dispatch. rewrite H. reflexivity. Qed.

Lemma step_pointentry (w : list byte) (s : loop_state) (k : Z)
  (payload tail : list byte) :
  cue_array_consistent (st_parser s) ->
  parser_cue_point_num (st_parser s) + 1 < 2 ^ 64 ->
  0 <= st_offset s ->
  drop (Z.to_nat (st_offset s)) w
  = element id_pointentry k payload ++ tail ->
  1 <= k <= 8 -> Z.of_nat (length payload) < 2 ^ (7 * k) - 1 ->
  let h := 1 + k in
  h < st_len s ->
  h + Z.of_nat (length payload) <= st_len s < 2 ^ 64 ->
  st_offset s + h < 2 ^ 64 ->
  0 <= parser_consume (st_parser s) ->
  parser_consume (st_parser s) + h < 2 ^ 64 ->
  let p1 :=
    with_cues (st_parser s) (cue_list (st_parser s) ++ [zeroed_point])
      (parser_consume (st_parser s) + h) in
  extract_step w s
  = Ret (if negb (parser_len (st_parser s) =? 0)
            && (parser_consume (st_parser s) + h
                >=? parser_len (st_parser s))
         then Return GST_MATROSKA_PARSER_DONE
                (set_offset (st_offset s + h) p1)
         else Continue
                (mkState p1 (st_offset s + h) (st_len s - h)
                   (current_entry (st_parser s) (st_entry s))
                   (mkInfo GST_MATROSKA_ID_POINTENTRY
                      (Z.of_nat (length payload)) h (st_offset s + h)))).
Proof.
  intros Hcons Hcnt Hoff Hdrop Hk Hm h Hh Hlen Hoffc Hc Hcc p1.
  destruct id_pointentry_ok as (Hwf & Hidv & Hidl).
  unfold element in Hdrop.
  assert (Hcul : check_unknown_length k (Z.of_nat (length payload))
                 = Z.of_nat (length payload))
    by (apply check_unknown_length_plain; lia).
  pose proof (extract_step_next w s id_pointentry k
                (Z.of_nat (length payload)) (payload ++ tail)
                (set_cue_point_num
                   (wrap64 (parser_cue_point_num (st_parser s) + 1))
                   (set_array
                      (Some (cue_list (st_parser s) ++ [zeroed_point]))
                      (st_parser s))) h
                Hoff ltac:(rewrite <- !app_assoc in Hdrop; exact Hdrop)
                Hwf Hk ltac:(lia) ltac:(lia)) as Hstep.
  cbv zeta in Hstep. rewrite Hcul, Hidv, Hidl in Hstep.
  rewrite adjust_consume_whole in Hstep
    by (cbn [info_id]; unfold_ids; lia).
  fold h in Hstep.
  replace (st_offset s + 1 + k) with (st_offset s + h) in Hstep by lia.
  assert (Hp1 : set_consume (parser_consume (st_parser s) + h)
                  (set_cue_point_num
                     (wrap64 (parser_cue_point_num (st_parser s) + 1))
                     (set_array
                        (Some (cue_list (st_parser s) ++ [zeroed_point]))
                        (st_parser s)))
                = p1).
  { subst p1. unfold with_cues. rewrite length_app. cbn [length].
    rewrite (cue_count_is_length _ Hcons) in *.
    rewrite wrap64_small by lia.
    replace (Z.of_nat (length (cue_list (st_parser s))) + 1)
      with (Z.of_nat (length (cue_list (st_parser s)) + 1)) by lia.
    reflexivity. }
  rewrite Hstep; clear Hstep; try lia;
    try (cbn [parser_consume set_cue_point_num set_array]; lia).
  - cbn [parser_len parser_consume set_cue_point_num set_array].
    rewrite Hp1. reflexivity.
  - rewrite dispatch_pointentry by reflexivity. reflexivity.
Qed.

Lemma extract_loop_return (w : list byte) (fuel : nat) (s : loop_state)
  (res : GstMatroskaParserResult) (p : GstMatroskaParser) :
  extract_step w s = Ret (Return res p) ->
  extract_loop (S fuel) w s = Ret (res, p).
Proof. intros H. cbn [extract_loop]. rewrite H. reflexivity. Qed.

Lemma done_test_false (plen x : Z) :
  plen = 0 \/ x < plen ->
  negb (plen =? 0) && (x >=? plen) = false.
Proof.
  intros [-> | H]; [reflexivity|].
  apply andb_false_intro2. lia.
Qed.

Lemma view_into (w : list byte) (off h : Z) (idb : list byte) (k : Z)
  (payload tail : list byte) :
  0 <= off -> 0 <= k ->
  drop (Z.to_nat off) w = element idb k payload ++ tail ->
  h = Z.of_nat (length idb) + k ->
  drop (Z.to_nat (off + h)) w = payload ++ tail.
Proof.
  intros Hoff Hk Hdrop ->. unfold element in Hdrop.
  rewrite <- !app_assoc in Hdrop. rewrite app_assoc in Hdrop.
  eapply drop_view; [exact Hoff | | exact Hdrop |]; [lia|].
  rewrite length_app, encode_vint_length. lia.
Qed.

Lemma view_over (w : list byte) (off total : Z) (idb : list byte) (k : Z)
  (payload tail : list byte) :
  0 <= off -> 0 <= k ->
  drop (Z.to_nat off) w = element idb k payload ++ tail ->
  total = Z.of_nat (length idb) + k + Z.of_nat (length payload) ->
  drop (Z.to_nat (off + total)) w = tail.
Proof.
  intros Hoff Hk Hdrop ->.
  eapply drop_view; [exact Hoff | | exact Hdrop |]; [lia|].
  apply element_length. exact Hk.
Qed.

Lemma uint_element_length (idb : list byte) (k : Z) (n : nat) (v : Z) :
  0 <= k ->
  Z.of_nat (length (element idb k (be_bytes n v)))
  = Z.of_nat (length idb) + k + Z.of_nat n.
Proof.
  intros Hk. rewrite element_length by exact Hk.
  rewrite be_bytes_length. reflexivity.
Qed.

Lemma encode_cue_length (k : Z) (c : cue_source) :
  0 <= k ->
  Z.of_nat (length (encode_cue k c))
  = 5 * (1 + k) + Z.of_nat (n_time c) + Z.of_nat (n_track c)
    + Z.of_nat (n_pos c).
Proof.
  intros Hk. unfold encode_cue.
  rewrite element_length, length_app by exact Hk.
  rewrite Nat2Z.inj_add, uint_element_length, element_length by exact Hk.
  rewrite length_app, Nat2Z.inj_add, !uint_element_length by exact Hk.
  change (Z.of_nat (length id_pointentry)) with 1.
  change (Z.of_nat (length id_cuetime)) with 1.
  change (Z.of_nat (length id_cuetrackposition)) with 1.
  change (Z.of_nat (length id_cuetrack)) with 1.
  change (Z.of_nat (length id_cueclusterposition)) with 1.
  lia.
Qed.

(** The five iterations a cue point takes: its header appends a zeroed
    element to the array, its three leaves fill that element in. *)
Lemma cue_point_run (w : list byte) (s : loop_state) (k : Z)
  (cu : cue_source) (tail : list byte) (fuel : nat) :
  let p := st_parser s in
  let L := Z.of_nat (length (encode_cue k cu)) in
  cue_array_consistent p ->
  parser_cue_point_num p + 1 < 2 ^ 64 ->
  0 <= st_offset s ->
  drop (Z.to_nat (st_offset s)) w = encode_cue k cu ++ tail ->
  1 <= k <= 8 -> cue_fits cu ->
  L <= st_len s < 2 ^ 64 ->
  st_offset s + L < 2 ^ 64 ->
  0 <= parser_consume p -> parser_consume p + L < 2 ^ 64 ->
  parser_len p = 0 \/ parser_consume p + L <= parser_len p ->
  let p' :=
    with_cues p (cue_list p ++ [cue_of cu]) (parser_consume p + L) in
  exists e info,
    extract_loop (S (S (S (S (S fuel))))) w s
    = if negb (parser_len p =? 0)
         && (parser_consume p + L >=? parser_len p)
      then Ret (GST_MATROSKA_PARSER_DONE, set_offset (st_offset s + L) p')
      else extract_loop fuel w
             (mkState p' (st_offset s + L) (st_len s - L) e info).
Proof.
  intros p L Hcons Hcnt Hoff Hdrop Hk (Ht & Htr & Hpos) Hlen Hoffc Hc Hcc
    Hplen p'.
  pose proof (encode_cue_length k cu ltac:(lia)) as HL. fold L in HL.
  destruct Ht as [Hnt Hvt]. destruct Htr as [Hntr Hvtr].
  destruct Hpos as [Hnp Hvp].
  set (a := 1 + k).
  assert (Ha : a = 1 + k) by reflexivity.
  set (nt := Z.of_nat (n_time cu)) in *.
  assert (Hnteq : nt = Z.of_nat (n_time cu)) by reflexivity.
  set (ntr := Z.of_nat (n_track cu)) in *.
  assert (Hntreq : ntr = Z.of_nat (n_track cu)) by reflexivity.
  set (np := Z.of_nat (n_pos cu)) in *.
  assert (Hnpeq : np = Z.of_nat (n_pos cu)) by reflexivity.
  pose proof (pow7_ge k ltac:(lia)) as Hpow.
  (* the bytes at the cursor, element by element *)
  set (Epos := element id_cueclusterposition k
                 (be_bytes (n_pos cu) (src_pos cu))).
  set (Etr := element id_cuetrack k (be_bytes (n_track cu) (src_track cu))).
  set (Q := Etr ++ Epos).
  set (Et := element id_cuetime k (be_bytes (n_time cu) (src_time cu))).
  set (P := Et ++ element id_cuetrackposition k Q).
  assert (HEpos : Z.of_nat (length Epos) = a + np)
    by (subst Epos; rewrite uint_element_length by lia; reflexivity).
  assert (HEtr : Z.of_nat (length Etr) = a + ntr)
    by (subst Etr; rewrite uint_element_length by lia; reflexivity).
  assert (HEt : Z.of_nat (length Et) = a + nt)
    by (subst Et; rewrite uint_element_length by lia; reflexivity).
  assert (HQ : Z.of_nat (length Q) = 2 * a + ntr + np)
    by (subst Q; rewrite length_app; lia).
  assert (HP : Z.of_nat (length P) = 4 * a + nt + ntr + np).
  { subst P. rewrite length_app, Nat2Z.inj_add, element_length by lia.
    change (Z.of_nat (length id_cuetrackposition)) with 1. lia. }
  assert (V0 : drop (Z.to_nat (st_offset s)) w
               = element id_pointentry k P ++ tail) by exact Hdrop.
  assert (V1 : drop (Z.to_nat (st_offset s + a)) w
               = Et ++ element id_cuetrackposition k Q ++ tail).
  { assert (Hk0 : 0 <= k) by lia.
    rewrite (view_into w (st_offset s) a id_pointentry k P tail Hoff Hk0 V0)
      by reflexivity.
    subst P. rewrite <- app_assoc. reflexivity. }
  assert (V2 : drop (Z.to_nat (st_offset s + a + (a + nt))) w
               = element id_cuetrackposition k Q ++ tail).
  { apply (view_over w (st_offset s + a) (a + nt) id_cuetime k
             (be_bytes (n_time cu) (src_time cu))); [lia | lia | exact V1 |].
    rewrite be_bytes_length. reflexivity. }
  assert (V3 : drop (Z.to_nat (st_offset s + a + (a + nt) + a)) w
               = Etr ++ Epos ++ tail).
  { assert (Hk0 : 0 <= k) by lia.
    assert (Ho2 : 0 <= st_offset s + a + (a + nt)) by lia.
    rewrite (view_into w (st_offset s + a + (a + nt)) a
               id_cuetrackposition k Q tail Ho2 Hk0 V2) by reflexivity.
    subst Q. rewrite <- app_assoc. reflexivity. }
  assert (V4 : drop (Z.to_nat (st_offset s + a + (a + nt) + a + (a + ntr))) w
               = Epos ++ tail).
  { apply (view_over w (st_offset s + a + (a + nt) + a) (a + ntr)
             id_cuetrack k (be_bytes (n_track cu) (src_track cu)));
      [lia | lia | exact V3 |].
    rewrite be_bytes_length. reflexivity. }
  (* the five states *)
  set (c := parser_consume p) in *.
  assert (Hceq : c = parser_consume (st_parser s)) by reflexivity.
  set (arr := cue_list p).
  set (e0 := current_entry p (st_entry s)).
  set (i1 := mkInfo GST_MATROSKA_ID_POINTENTRY (Z.of_nat (length P)) a
               (st_offset s + a)).
  set (s1 := mkState (with_cues p (arr ++ [zeroed_point]) (c + a))
               (st_offset s + a) (st_len s - a) e0 i1).
  assert (H1 : extract_step w s = Ret (Continue s1)).
  { rewrite (step_pointentry w s k P tail Hcons Hcnt Hoff V0 Hk); try lia.
    fold p. fold c. fold a.
    rewrite done_test_false by lia. reflexivity. }
  set (x1 := mkPoint (src_time cu) (track_pos zeroed_point)).
  set (i2 := mkInfo GST_MATROSKA_ID_CUETIME nt (1 + k)
               (st_offset s1 + 1 + k)).
  set (s2 := mkState (with_cues p (arr ++ [x1]) (c + a + (a + nt)))
               (st_offset s + a + (a + nt)) (st_len s - a - (a + nt))
               (Some (Z.of_nat (length arr))) i2).
  assert (H2 : extract_step w s1 = Ret (Continue s2)).
  { rewrite (step_cue_leaf w s1 id_cuetime GST_MATROSKA_ID_CUETIME k
               (n_time cu) (src_time cu)
               (element id_cuetrackposition k Q ++ tail)
               (fun v x => mkPoint v (track_pos x))
               p arr zeroed_point (c + a) id_cuetime_ok);
      try (unfold_ids; lia); try reflexivity;
      try (cbn [st_offset st_len s1]; fold a nt; lia);
      [ | intros; apply dispatch_cuetime; assumption | exact V1
        | split; assumption ].
    cbn [st_offset st_len s1]. fold a. fold nt.
    fold p. rewrite done_test_false by lia. reflexivity. }
  set (i3 := mkInfo GST_MATROSKA_ID_CUETRACKPOSITION (Z.of_nat (length Q))
               a (st_offset s2 + a)).
  set (s3 := mkState (with_cues p (arr ++ [x1]) (c + a + (a + nt) + a))
               (st_offset s2 + a) (st_len s2 - a)
               (current_entry (st_parser s2) (st_entry s2)) i3).
  assert (H3 : extract_step w s2 = Ret (Continue s3)).
  { destruct id_cuetrackposition_ok as (Hwf & Hidv & Hidl).
    rewrite (step_master w s2 id_cuetrackposition
               GST_MATROSKA_ID_CUETRACKPOSITION k Q tail Hwf Hidv);
      try (unfold_ids; lia);
      try (cbn [st_offset st_len st_parser s2 with_cues parser_consume
                  set_consume]; rewrite ?Hidl; fold a; lia);
      [ | intros; apply dispatch_cuetrackposition; assumption | exact V2 ].
    rewrite Hidl. fold a.
    cbn [st_parser s2 with_cues parser_consume parser_len set_consume
           set_cue_point_num set_array].
    fold p. rewrite done_test_false by lia. reflexivity. }
  set (x2 := mkPoint (cue_time x1)
               (mkTrackPos (src_track cu) (cluster_pos (track_pos x1)))).
  set (i4 := mkInfo GST_MATROSKA_ID_CUETRACK ntr (1 + k)
               (st_offset s3 + 1 + k)).
  set (s4 := mkState
               (with_cues p (arr ++ [x2])
                  (c + a + (a + nt) + a + (a + ntr)))
               (st_offset s3 + (a + ntr)) (st_len s3 - (a + ntr))
               (Some (Z.of_nat (length arr))) i4).
  assert (H4 : extract_step w s3 = Ret (Continue s4)).
  { rewrite (step_cue_leaf w s3 id_cuetrack GST_MATROSKA_ID_CUETRACK k
               (n_track cu) (src_track cu) (Epos ++ tail)
               (fun v x =>
                  mkPoint (cue_time x)
                    (mkTrackPos v (cluster_pos (track_pos x))))
               p arr x1 (c + a + (a + nt) + a) id_cuetrack_ok);
      try (unfold_ids; lia); try reflexivity;
      try (cbn [st_offset st_len s3 s2]; fold a ntr; lia);
      [ | intros; apply dispatch_cuetrack; assumption | exact V3
        | split; assumption ].
    cbn [st_offset st_len s3 s2]. fold a. fold ntr.
    fold p. rewrite done_test_false by lia. reflexivity. }
  set (x3 := mkPoint (cue_time x2)
               (mkTrackPos (track (track_pos x2)) (src_pos cu))).
  set (i5 := mkInfo GST_MATROSKA_ID_CUECLUSTERPOSITION np (1 + k)
               (st_offset s4 + 1 + k)).
  exists (Some (Z.of_nat (length arr))), i5.
  rewrite (extract_loop_continue _ _ _ _ H1).
  rewrite (extract_loop_continue _ _ _ _ H2).
  rewrite (extract_loop_continue _ _ _ _ H3).
  rewrite (extract_loop_continue _ _ _ _ H4).
  assert (Hx3 : x3 = cue_of cu) by reflexivity.
  assert (H5 : extract_step w s4
               = Ret (if negb (parser_len p =? 0)
                         && (c + L >=? parser_len p)
                      then Return GST_MATROSKA_PARSER_DONE
                             (set_offset (st_offset s + L) p')
                      else Continue
                             (mkState p' (st_offset s + L) (st_len s - L)
                                (Some (Z.of_nat (length arr))) i5))).
  { rewrite (step_cue_leaf w s4 id_cueclusterposition
               GST_MATROSKA_ID_CUECLUSTERPOSITION k
               (n_pos cu) (src_pos cu) tail
               (fun v x =>
                  mkPoint (cue_time x)
                    (mkTrackPos (track (track_pos x)) v))
               p arr x2 (c + a + (a + nt) + a + (a + ntr))
               id_cueclusterposition_ok);
      try (unfold_ids; lia); try reflexivity;
      try (cbn [st_offset st_len s4 s3 s2]; fold a np; lia);
      [ | intros; apply dispatch_cueclusterposition; assumption | exact V4
        | split; assumption ].
    cbn [st_offset st_len s4 s3 s2]. fold a. fold np. fold x3.
    rewrite Hx3. subst p'. fold arr.
    replace (c + a + (a + nt) + a + (a + ntr) + (a + np)) with (c + L)
      by lia.
    replace (st_offset s + a + (a + nt) + a + (a + ntr) + (a + np))
      with (st_offset s + L) by lia.
    replace (st_len s - a - (a + nt) - a - (a + ntr) - (a + np))
      with (st_len s - L) by lia.
    reflexivity. }
  cbn [extract_loop]. rewrite H5.
  destruct (negb (parser_len p =? 0) && (c + L >=? parser_len p));
    reflexivity.
Qed.

Lemma with_cues_consistent (p : GstMatroskaParser)
  (arr : list GstMatroskaPointData) (c : Z) :
  cue_array_consistent (with_cues p arr c).
Proof. reflexivity. Qed.

Lemma encode_cue_nonempty (k : Z) (c : cue_source) :
  0 <= k -> 0 < Z.of_nat (length (encode_cue k c)).
Proof. intros Hk. rewrite encode_cue_length by exact Hk. lia. Qed.

(** The loop over the cue points of a Cues element whose end has been
    recorded: every cue point becomes one array element, and the loop
    completes with DONE right after the last one. *)
Lemma cues_run (w : list byte) (k : Z) (tail : list byte) (fuel : nat) :
  forall (cs : list cue_source) (s : loop_state),
    cs <> [] ->
    let p := st_parser s in
    let L := Z.of_nat (length (encode_cues k cs)) in
    cue_array_consistent p ->
    parser_cue_point_num p + Z.of_nat (length cs) < 2 ^ 64 ->
    0 <= st_offset s ->
    drop (Z.to_nat (st_offset s)) w = encode_cues k cs ++ tail ->
    1 <= k <= 8 -> Forall cue_fits cs ->
    L <= st_len s < 2 ^ 64 ->
    st_offset s + L < 2 ^ 64 ->
    0 <= parser_consume p -> parser_consume p + L < 2 ^ 64 ->
    parser_len p = parser_consume p + L ->
    extract_loop (5 * length cs + fuel) w s
    = Ret (GST_MATROSKA_PARSER_DONE,
           set_offset (st_offset s + L)
             (with_cues p (cue_list p ++ map cue_of cs)
                (parser_consume p + L))).
Proof.
  induction cs as [|cu cs IH]; intros s Hne p L Hcons Hcnt Hoff Hdrop Hk
    Hfits Hlen Hoffc Hc Hcc Hplen; [congruence|].
  apply Forall_cons in Hfits. destruct Hfits as [Hfit Hfits].
  set (L1 := Z.of_nat (length (encode_cue k cu))).
  set (L2 := Z.of_nat (length (encode_cues k cs))).
  assert (HL : L = L1 + L2).
  { subst L L1 L2. cbn [encode_cues]. rewrite length_app. lia. }
  assert (HL1 : 0 < L1) by (apply encode_cue_nonempty; lia).
  assert (HL2 : 0 <= L2) by (subst L2; lia).
  cbn [encode_cues] in Hdrop. rewrite <- app_assoc in Hdrop.
  replace (5 * length (cu :: cs) + fuel)%nat
    with (S (S (S (S (S (5 * length cs + fuel)))))) by (cbn [length]; lia).
  cbn [length] in Hcnt.
  assert (Hcnt1 : parser_cue_point_num (st_parser s) + 1 < 2 ^ 64)
    by (fold p; lia).
  destruct (cue_point_run w s k cu (encode_cues k cs ++ tail)
              (5 * length cs + fuel) Hcons Hcnt1 Hoff Hdrop Hk Hfit)
    as (e & info & Hrun); try (fold L1; fold p; lia).
  fold p in Hrun. fold L1 in Hrun. rewrite Hrun. clear Hrun.
  destruct cs as [|cu' cs'].
  - assert (HL20 : L2 = 0) by reflexivity.
    replace (negb (parser_len p =? 0)
             && (parser_consume p + L1 >=? parser_len p)) with true.
    2:{ symmetry. apply andb_true_intro. split; [|lia].
        apply negb_true_iff. lia. }
    cbn [map]. replace L with L1 by lia. reflexivity.
  - assert (HL2' : 0 < L2).
    { subst L2. cbn [encode_cues]. rewrite length_app.
      pose proof (encode_cue_nonempty k cu' ltac:(lia)). lia. }
    rewrite done_test_false by lia.
    set (p1 := with_cues p (cue_list p ++ [cue_of cu])
                 (parser_consume p + L1)).
    set (s1 := mkState p1 (st_offset s + L1) (st_len s - L1) e info).
    assert (Hcount : parser_cue_point_num p1 = parser_cue_point_num p + 1).
    { subst p1. unfold with_cues.
      cbn [parser_cue_point_num set_consume set_cue_point_num].
      rewrite length_app. cbn [length].
      rewrite (cue_count_is_length p Hcons). lia. }
    rewrite (IH s1); try discriminate.
    + cbn [st_parser st_offset s1]. subst p1.
      cbn [parser_consume with_cues set_consume].
      change (cue_list (with_cues p (cue_list p ++ [cue_of cu])
                          (parser_consume p + L1)))
        with (cue_list p ++ [cue_of cu]).
      rewrite <- app_assoc. cbn [app map]. fold L2.
      replace (st_offset s + L1 + L2) with (st_offset s + L) by lia.
      replace (parser_consume p + L1 + L2) with (parser_consume p + L)
        by lia.
      reflexivity.
    + apply with_cues_consistent.
    + cbn [st_parser s1]. rewrite Hcount.
      cbn [length] in Hcnt |- *. lia.
    + cbn [st_offset s1]. lia.
    + cbn [st_offset s1].
      eapply drop_view; [exact Hoff | | exact Hdrop | reflexivity]. lia.
    + exact Hk.
    + exact Hfits.
    + cbn [st_len s1]. fold L2. lia.
    + cbn [st_offset s1]. fold L2. lia.
    + cbn [st_parser s1]. subst p1. cbn. lia.
    + cbn [st_parser s1]. subst p1. cbn [parser_consume with_cues
        set_consume]. fold L2. lia.
    + cbn [st_parser s1]. subst p1.
      cbn [parser_consume parser_len with_cues set_consume
             set_cue_point_num set_array]. fold L2. fold p. lia.
Qed.

(** ** The iterations in front of the cue points *)

Lemma dispatch_header (w : list byte) (q : GstMatroskaParser)
  (info : GstMatroskaEbmlInfo) (c0 : Z) (e : option Z) :
  info_id info = GST_EBML_ID_HEADER ->
  dispatch w q info c0 e = Ret (Next (set_consume 0 q) c0).
Proof. intros H. unfold dispatch. rewrite H. reflexivity. Qed.

Lemma dispatch_segment (w : list byte) (q : GstMatroskaParser)
  (info : GstMatroskaEbmlInfo) (c0 : Z) (e : option Z) :
  info_id info = GST_MATROSKA_ID_SEGMENT ->
  dispatch w q info c0 e
  = Ret (Next (set_segment_offset (parser_consume q) q)
           (info_data_offset info)).
Proof. intros H. unfold dispatch. rewrite H. reflexivity. Qed.

Lemma dispatch_timecodescale (w : list byte) (q : GstMatroskaParser)
  (info : GstMatroskaEbmlInfo) (c0 : Z) (e : option Z) :
  info_id info = GST_MATROSKA_ID_TIMECODESCALE ->
  dispatch w q info c0 e
  = (v <- gst_matroska_parser_read_data w (info_data_buf info)
            (info_size info) ;;
     Ret (Next (set_time_scale v q) c0)).
Proof. intros H. unfold dispatch. rewrite H. reflexivity. Qed.

Lemma dispatch_cues (w : list byte) (q : GstMatroskaParser)
  (info : GstMatroskaEbmlInfo) (c0 : Z) (e : option Z) :
  info_id info = GST_MATROSKA_ID_CUES ->
  dispatch w q info c0 e
  = Ret (Next
           (set_len
              (wrap64 (parser_consume q + info_data_offset info
                       + info_size info)) q)
           (info_data_offset info)).
Proof. intros H. unfold dispatch. rewrite H. reflexivity. Qed.

Lemma step_ebml_header (w : list byte) (s : loop_state) (k : Z)
  (payload tail : list byte) :
  0 <= st_offset s ->
  drop (Z.to_nat (st_offset s)) w = element ebml_magic k payload ++ tail ->
  1 <= k <= 8 -> Z.of_nat (length payload) < 2 ^ (7 * k) - 1 ->
  let total := 4 + k + Z.of_nat (length payload) in
  4 + k < st_len s ->
  total <= st_len s < 2 ^ 64 ->
  st_offset s + total < 2 ^ 64 ->
  extract_step w s
  = Ret (if negb (parser_len (st_parser s) =? 0)
            && (total >=? parser_len (st_parser s))
         then Return GST_MATROSKA_PARSER_DONE
                (set_offset (st_offset s + total)
                   (set_consume total (st_parser s)))
         else Continue
                (mkState (set_consume total (st_parser s))
                   (st_offset s + total) (st_len s - total)
                   (current_entry (st_parser s) (st_entry s))
                   (mkInfo GST_EBML_ID_HEADER (Z.of_nat (length payload))
                      (4 + k) (st_offset s + 4 + k)))).
Proof.
  intros Hoff Hdrop Hk Hm total Hh Hlen Hoffc.
  destruct ebml_magic_ok as (Hwf & Hidv & Hidl).
  unfold element in Hdrop.
  assert (Hcul : check_unknown_length k (Z.of_nat (length payload))
                 = Z.of_nat (length payload))
    by (apply check_unknown_length_plain; lia).
  pose proof (extract_step_next w s ebml_magic k
                (Z.of_nat (length payload)) (payload ++ tail)
                (set_consume 0 (st_parser s)) total
                Hoff ltac:(rewrite <- !app_assoc in Hdrop; exact Hdrop)
                Hwf Hk ltac:(lia) ltac:(lia)) as Hstep.
  cbv zeta in Hstep. rewrite Hcul, Hidv, Hidl in Hstep.
  rewrite adjust_consume_whole in Hstep
    by (cbn [info_id]; unfold_ids; lia).
  fold total in Hstep.
  rewrite Hstep; clear Hstep; try lia;
    try (cbn [parser_consume set_consume]; lia).
  - reflexivity.
  - rewrite dispatch_header by reflexivity. reflexivity.
Qed.

Lemma step_segment (w : list byte) (s : loop_state) (ks m : Z)
  (tail : list byte) :
  0 <= st_offset s ->
  drop (Z.to_nat (st_offset s)) w = id_segment ++ encode_vint ks m ++ tail ->
  1 <= ks <= 8 -> 0 <= m < 2 ^ (7 * ks) ->
  let h := 4 + ks in
  h < st_len s < 2 ^ 64 ->
  st_offset s + h < 2 ^ 64 ->
  0 <= parser_consume (st_parser s) ->
  parser_consume (st_parser s) + h < 2 ^ 64 ->
  let p1 :=
    set_consume (parser_consume (st_parser s) + h)
      (set_segment_offset (parser_consume (st_parser s)) (st_parser s)) in
  extract_step w s
  = Ret (if negb (parser_len (st_parser s) =? 0)
            && (parser_consume (st_parser s) + h
                >=? parser_len (st_parser s))
         then Return GST_MATROSKA_PARSER_DONE
                (set_offset (st_offset s + h) p1)
         else Continue
                (mkState p1 (st_offset s + h) (st_len s - h)
                   (current_entry (st_parser s) (st_entry s))
                   (mkInfo GST_MATROSKA_ID_SEGMENT
                      (check_unknown_length ks m) h (st_offset s + h)))).
Proof.
  intros Hoff Hdrop Hk Hm h Hlen Hoffc Hc Hcc p1.
  destruct id_segment_ok as (Hwf & Hidv & Hidl).
  pose proof (check_unknown_length_bound ks m Hk Hm) as Hsz.
  pose proof (extract_step_next w s id_segment ks m tail
                (set_segment_offset (parser_consume (st_parser s))
                   (st_parser s)) h
                Hoff Hdrop Hwf Hk Hm ltac:(lia)) as Hstep.
  cbv zeta in Hstep. rewrite Hidv, Hidl in Hstep.
  fold h in Hstep.
  replace (st_offset s + 4 + ks) with (st_offset s + h) in Hstep by lia.
  assert (Hadj : adjust_consume (h + check_unknown_length ks m)
                   (mkInfo GST_MATROSKA_ID_SEGMENT
                      (check_unknown_length ks m) h (st_offset s + h))
                 = h).
  { apply (adjust_consume_header
             (mkInfo GST_MATROSKA_ID_SEGMENT (check_unknown_length ks m) h
                (st_offset s + h)));
      cbn [info_id info_size info_data_offset]; auto; lia. }
  rewrite Hadj in Hstep.
  rewrite Hstep; clear Hstep; try lia;
    try (cbn [parser_consume set_segment_offset]; lia).
  - reflexivity.
  - rewrite dispatch_segment by reflexivity. reflexivity.
Qed.

Lemma step_timecodescale (w : list byte) (s : loop_state) (k : Z)
  (n : nat) (v : Z) (tail : list byte) :
  0 <= st_offset s ->
  drop (Z.to_nat (st_offset s)) w
  = element id_timecodescale k (be_bytes n v) ++ tail ->
  1 <= k <= 8 -> uint_fits n v ->
  let total := 3 + k + Z.of_nat n in
  total <= st_len s < 2 ^ 64 ->
  st_offset s + total < 2 ^ 64 ->
  0 <= parser_consume (st_parser s) ->
  parser_consume (st_parser s) + total < 2 ^ 64 ->
  let p1 :=
    set_consume (parser_consume (st_parser s) + total)
      (set_time_scale v (st_parser s)) in
  extract_step w s
  = Ret (if negb (parser_len (st_parser s) =? 0)
            && (parser_consume (st_parser s) + total
                >=? parser_len (st_parser s))
         then Return GST_MATROSKA_PARSER_DONE
                (set_offset (st_offset s + total) p1)
         else Continue
                (mkState p1 (st_offset s + total) (st_len s - total)
                   (current_entry (st_parser s) (st_entry s))
                   (mkInfo GST_MATROSKA_ID_TIMECODESCALE (Z.of_nat n)
                      (3 + k) (st_offset s + 3 + k)))).
Proof.
  intros Hoff Hdrop Hk [Hn Hv] total Hlen Hoffc Hc Hcc p1.
  destruct id_timecodescale_ok as (Hwf & Hidv & Hidl).
  assert (Hpl : length (be_bytes n v) = n) by apply be_bytes_length.
  assert (Hm : 0 <= Z.of_nat n < 2 ^ (7 * k) - 1).
  { pose proof (pow7_ge k ltac:(lia)). lia. }
  pose proof Hdrop as Hview.
  unfold element in Hdrop. rewrite Hpl, <- !app_assoc in Hdrop.
  assert (Hcul : check_unknown_length k (Z.of_nat n) = Z.of_nat n)
    by (apply check_unknown_length_plain; lia).
  assert (Hread :
            gst_matroska_parser_read_data w (st_offset s + 3 + k)
              (Z.of_nat n) = Ret v).
  { rewrite <- Hpl at 1.
    rewrite (read_data_view w (st_offset s + 3 + k) (be_bytes n v) tail).
    - rewrite be_value_be_bytes. f_equal. apply Z.mod_small. exact Hv.
    - lia.
    - replace (st_offset s + 3 + k) with (st_offset s + (3 + k)) by lia.
      eapply view_into; [exact Hoff | | exact Hview |]; lia.
    - lia. }
  pose proof (extract_step_next w s id_timecodescale k (Z.of_nat n)
                (be_bytes n v ++ tail)
                (set_time_scale v (st_parser s)) total
                Hoff Hdrop Hwf Hk ltac:(lia) ltac:(lia)) as Hstep.
  cbv zeta in Hstep. rewrite Hcul, Hidv, Hidl in Hstep.
  rewrite adjust_consume_whole in Hstep
    by (cbn [info_id]; unfold_ids; lia).
  fold total in Hstep.
  rewrite Hstep; clear Hstep; try lia;
    try (cbn [parser_consume set_time_scale]; lia).
  - reflexivity.
  - rewrite dispatch_timecodescale by reflexivity.
    cbn [info_data_buf info_size]. rewrite Hread. reflexivity.
Qed.

Lemma step_cues (w : list byte) (s : loop_state) (k m : Z)
  (tail : list byte) :
  0 <= st_offset s ->
  drop (Z.to_nat (st_offset s)) w = id_cues ++ encode_vint k m ++ tail ->
  1 <= k <= 8 -> 0 <= m < 2 ^ (7 * k) - 1 ->
  let h := 4 + k in
  h < st_len s < 2 ^ 64 ->
  st_offset s + h < 2 ^ 64 ->
  0 <= parser_consume (st_parser s) ->
  parser_consume (st_parser s) + h + m < 2 ^ 64 ->
  let plen := parser_consume (st_parser s) + h + m in
  let p1 :=
    set_consume (parser_consume (st_parser s) + h)
      (set_len plen (st_parser s)) in
  extract_step w s
  = Ret (if m =? 0
         then Return GST_MATROSKA_PARSER_DONE
                (set_offset (st_offset s + h) p1)
         else Continue
                (mkState p1 (st_offset s + h) (st_len s - h)
                   (current_entry (st_parser s) (st_entry s))
                   (mkInfo GST_MATROSKA_ID_CUES m h (st_offset s + h)))).
Proof.
  intros Hoff Hdrop Hk Hm h Hlen Hoffc Hc Hcc plen p1.
  destruct id_cues_ok as (Hwf & Hidv & Hidl).
  assert (Hcul : check_unknown_length k m = m)
    by (apply check_unknown_length_plain; lia).
  pose proof (extract_step_next w s id_cues k m tail
                (set_len plen (st_parser s)) h
                Hoff Hdrop Hwf Hk ltac:(lia) ltac:(lia)) as Hstep.
  cbv zeta in Hstep. rewrite Hcul, Hidv, Hidl in Hstep.
  fold h in Hstep.
  replace (st_offset s + 4 + k) with (st_offset s + h) in Hstep by lia.
  assert (Hadj : adjust_consume (h + m)
                   (mkInfo GST_MATROSKA_ID_CUES m h (st_offset s + h))
                 = h).
  { apply (adjust_consume_header
             (mkInfo GST_MATROSKA_ID_CUES m h (st_offset s + h)));
      cbn [info_id info_size info_data_offset]; auto; lia. }
  rewrite Hadj in Hstep.
  rewrite Hstep; clear Hstep; try lia;
    try (cbn [parser_consume set_len]; lia).
  - cbn [parser_len parser_consume set_len]. fold p1.
    destruct (Z.eqb_spec m 0) as [Hz | Hnz].
    + replace (negb (plen =? 0)
               && (parser_consume (st_parser s) + h >=? plen)) with true;
        [reflexivity|].
      symmetry. apply andb_true_intro. split; [|lia].
      apply negb_true_iff. lia.
    + rewrite done_test_false by lia. reflexivity.
  - rewrite dispatch_cues by reflexivity.
    cbn [info_data_offset info_size]. fold plen.
    rewrite wrap64_small by lia. reflexivity.
Qed.

(** ** A whole stream *)

Lemma encode_cues_length_ge (k : Z) (cs : list cue_source) :
  0 <= k -> 5 * Z.of_nat (length cs) <= Z.of_nat (length (encode_cues k cs)).
Proof.
  intros Hk. induction cs as [|c cs IH]; cbn [encode_cues length]; [lia|].
  rewrite length_app, Nat2Z.inj_add, encode_cue_length by exact Hk. lia.
Qed.

Ltac parser_simpl :=
  cbv [st_len st_offset st_parser st_entry st_info initial_state
       with_cues set_len set_segment_offset set_segment_head_offset
       set_time_scale set_duration set_offset set_consume
       set_cue_point_num set_array set_status zeroed_parser
       parser_len parser_segment_offset parser_segment_head_offset
       parser_time_scale parser_duration parser_offset parser_consume
       parser_cue_point_num parser_array parser_status
       parser_is_discard_ebml_header parser_total_length].

(** The five iterations from the EBML header to the header of the Cues
    element, which announces [LC] bytes of cue points. *)
Lemma front_run (w : list byte) (k ks : Z) (header_payload : list byte)
  (segment_size : Z) (n_ts : nat) (ts LC : Z) (tail : list byte)
  (fuel : nat) :
  w = element ebml_magic k header_payload
      ++ (id_segment ++ encode_vint ks segment_size)
      ++ element id_segmentinfo k
           (element id_timecodescale k (be_bytes n_ts ts))
      ++ (id_cues ++ encode_vint k LC)
      ++ tail ->
  1 <= k <= 8 -> 1 <= ks <= 8 ->
  Z.of_nat (length header_payload) < 2 ^ (7 * k) - 1 ->
  0 <= segment_size < 2 ^ (7 * ks) ->
  uint_fits n_ts ts ->
  0 <= LC < 2 ^ (7 * k) - 1 ->
  tail <> [] ->
  gst_adapter_available w < 2 ^ 64 ->
  cues_start k ks header_payload n_ts + LC < 2 ^ 64 ->
  let start := cues_start k ks header_payload n_ts in
  let p5 :=
    mkParser (start + LC) (4 + k + Z.of_nat (length header_payload)) 0 ts 0
      0 start 0 None GST_MATROSKA_PARSER_STATUS_DATA false 0 in
  gst_adapter_available w = start + Z.of_nat (length tail)
  /\ drop (Z.to_nat start) w = tail
  /\ exists e info,
       extract_loop (S (S (S (S (S fuel))))) w
         (initial_state
            (set_status GST_MATROSKA_PARSER_STATUS_DATA
               (set_status GST_MATROSKA_PARSER_STATUS_HEADER zeroed_parser))
            w)
       = if LC =? 0
         then Ret (GST_MATROSKA_PARSER_DONE, set_offset start p5)
         else extract_loop fuel w
                (mkState p5 start (gst_adapter_available w - start) e info).
Proof.
  intros Hw Hk Hks Hhp Hss Hts HLC Htail Havail Hend start p5.
  set (q := set_status GST_MATROSKA_PARSER_STATUS_DATA
              (set_status GST_MATROSKA_PARSER_STATUS_HEADER zeroed_parser)).
  set (H := 4 + k + Z.of_nat (length header_payload)) in *.
  set (hs := 4 + ks). set (hi := 4 + k).
  set (hts := 3 + k + Z.of_nat n_ts). set (hc := 4 + k).
  assert (HH : H = 4 + k + Z.of_nat (length header_payload))
    by reflexivity.
  assert (Hhs : hs = 4 + ks) by reflexivity.
  assert (Hhi : hi = 4 + k) by reflexivity.
  assert (Hhts : hts = 3 + k + Z.of_nat n_ts) by reflexivity.
  assert (Hhc : hc = 4 + k) by reflexivity.
  assert (Hstart : start = H + hs + hi + hts + hc) by reflexivity.
  set (Ets := element id_timecodescale k (be_bytes n_ts ts)) in *.
  assert (HEts : Z.of_nat (length Ets) = hts).
  { subst Ets. rewrite uint_element_length by lia. reflexivity. }
  assert (Htl : 0 < Z.of_nat (length tail)).
  { destruct tail; [congruence | cbn [length]; lia]. }
  assert (HA : gst_adapter_available w
               = start + Z.of_nat (length tail)).
  { unfold gst_adapter_available. rewrite Hw.
    rewrite !length_app, !Nat2Z.inj_add, !encode_vint_length.
    rewrite !element_length by lia. fold Ets. rewrite HEts.
    change (Z.of_nat (length ebml_magic)) with 4.
    change (Z.of_nat (length id_segment)) with 4.
    change (Z.of_nat (length id_segmentinfo)) with 4.
    change (Z.of_nat (length id_cues)) with 4. lia. }
  set (A := gst_adapter_available w) in *.
  destruct Hts as [Hnts Hvts].
  (* the bytes at the cursor, element by element *)
  assert (W0 : drop (Z.to_nat 0) w
               = element ebml_magic k header_payload
                 ++ id_segment ++ encode_vint ks segment_size
                 ++ element id_segmentinfo k Ets
                 ++ id_cues ++ encode_vint k LC ++ tail).
  { rewrite Hw. rewrite <- !app_assoc. reflexivity. }
  assert (W1 : drop (Z.to_nat (0 + H)) w
               = id_segment ++ encode_vint ks segment_size
                 ++ element id_segmentinfo k Ets
                 ++ id_cues ++ encode_vint k LC ++ tail).
  { eapply view_over; [| | exact W0 |]; [lia | lia |].
    change (Z.of_nat (length ebml_magic)) with 4. lia. }
  assert (W2 : drop (Z.to_nat (0 + H + hs)) w
               = element id_segmentinfo k Ets
                 ++ id_cues ++ encode_vint k LC ++ tail).
  { rewrite app_assoc in W1.
    eapply drop_view; [| | exact W1 |]; [lia | lia |].
    rewrite length_app, encode_vint_length.
    change (length id_segment) with 4%nat. lia. }
  assert (W3 : drop (Z.to_nat (0 + H + hs + hi)) w
               = Ets ++ id_cues ++ encode_vint k LC ++ tail).
  { eapply view_into; [| | exact W2 |]; [lia | lia |].
    change (Z.of_nat (length id_segmentinfo)) with 4. lia. }
  assert (W4 : drop (Z.to_nat (0 + H + hs + hi + hts)) w
               = id_cues ++ encode_vint k LC ++ tail).
  { eapply drop_view; [| | exact W3 |]; [lia | lia | exact HEts]. }
  assert (W5 : drop (Z.to_nat (0 + H + hs + hi + hts + hc)) w = tail).
  { rewrite app_assoc in W4.
    eapply drop_view; [| | exact W4 |]; [lia | lia |].
    rewrite length_app, encode_vint_length.
    change (length id_cues) with 4%nat. lia. }
  pose proof (pow7_ge k ltac:(lia)) as Hpow.
  split; [exact HA|].
  split; [rewrite Hstart; exact W5|].
  (* the five iterations *)
  set (s0 := initial_state q w).
  set (s1 := mkState (set_consume H q) (0 + H) (A - H)
               (current_entry q None)
               (mkInfo GST_EBML_ID_HEADER
                  (Z.of_nat (length header_payload)) (4 + k) (0 + 4 + k))).
  assert (H1 : extract_step w s0 = Ret (Continue s1)).
  { rewrite (step_ebml_header w s0 k header_payload _ ltac:(cbn; lia) W0);
      try (unfold s0, q; parser_simpl; fold A; lia).
    reflexivity. }
  set (p2 := set_consume (H + hs) (set_segment_offset H (set_consume H q))).
  set (s2 := mkState p2 (0 + H + hs) (A - H - hs)
               (current_entry (st_parser s1) (st_entry s1))
               (mkInfo GST_MATROSKA_ID_SEGMENT
                  (check_unknown_length ks segment_size) hs
                  (0 + H + hs))).
  assert (H2 : extract_step w s1 = Ret (Continue s2)).
  { rewrite (step_segment w s1 ks segment_size _ ltac:(cbn; lia) W1);
      try (unfold s1, q; parser_simpl; lia).
    reflexivity. }
  set (p3 := set_consume (H + hs + hi) p2).
  set (s3 := mkState p3 (0 + H + hs + hi) (A - H - hs - hi)
               (current_entry (st_parser s2) (st_entry s2))
               (mkInfo GST_MATROSKA_ID_SEGMENTINFO (Z.of_nat (length Ets))
                  hi (0 + H + hs + hi))).
  assert (H3 : extract_step w s2 = Ret (Continue s3)).
  { destruct id_segmentinfo_ok as (Hwf & Hidv & Hidl).
    rewrite (step_master w s2 id_segmentinfo GST_MATROSKA_ID_SEGMENTINFO k
               Ets (id_cues ++ encode_vint k LC ++ tail) Hwf Hidv);
      try (unfold_ids; lia);
      try (unfold s2, p2, q; parser_simpl; rewrite ?Hidl; lia);
      [ | intros; apply dispatch_segmentinfo; assumption | exact W2 ].
    rewrite Hidl. reflexivity. }
  set (p4 := set_consume (H + hs + hi + hts) (set_time_scale ts p3)).
  set (s4 := mkState p4 (0 + H + hs + hi + hts) (A - H - hs - hi - hts)
               (current_entry (st_parser s3) (st_entry s3))
               (mkInfo GST_MATROSKA_ID_TIMECODESCALE (Z.of_nat n_ts)
                  (3 + k) (0 + H + hs + hi + 3 + k))).
  assert (H4 : extract_step w s3 = Ret (Continue s4)).
  { rewrite (step_timecodescale w s3 k n_ts ts
               (id_cues ++ encode_vint k LC ++ tail)
               ltac:(cbn; lia) W3 Hk);
      try (unfold s3, p3, p2, q; parser_simpl; lia);
      [ reflexivity | split; assumption ]. }
  set (e5 := current_entry (st_parser s4) (st_entry s4)).
  set (i5 := mkInfo GST_MATROSKA_ID_CUES LC hc
               (0 + H + hs + hi + hts + hc)).
  exists e5, i5.
  assert (Hp5 : set_consume (H + hs + hi + hts + hc)
                  (set_len (H + hs + hi + hts + hc + LC) p4) = p5).
  { subst p5 p4 p3 p2 q. parser_simpl. rewrite Hstart.
    f_equal; lia. }
  assert (H5 : extract_step w s4
               = Ret (if LC =? 0
                      then Return GST_MATROSKA_PARSER_DONE
                             (set_offset start p5)
                      else Continue (mkState p5 start (A - start) e5 i5))).
  { rewrite (step_cues w s4 k LC tail ltac:(cbn; lia) W4 Hk);
      try (unfold s4, p4, p3, p2, q; parser_simpl; lia).
    change (st_offset s4) with (0 + H + hs + hi + hts).
    change (st_len s4) with (A - H - hs - hi - hts).
    change (current_entry (st_parser s4) (st_entry s4)) with e5.
    change (st_parser s4) with p4.
    change (parser_consume p4) with (H + hs + hi + hts).
    change (4 + k) with hc.
    rewrite Hp5. subst i5.
    replace (0 + H + hs + hi + hts + hc) with start by lia.
    replace (A - H - hs - hi - hts - hc) with (A - start) by lia.
    reflexivity. }
  rewrite (extract_loop_continue _ _ _ _ H1).
  rewrite (extract_loop_continue _ _ _ _ H2).
  rewrite (extract_loop_continue _ _ _ _ H3).
  rewrite (extract_loop_continue _ _ _ _ H4).
  cbn [extract_loop]. rewrite H5.
  destruct (LC =? 0); reflexivity.
Qed.


(** ** A window that ends inside the cue points *)

Lemma cues_walk (w : list byte) (k : Z) (tail : list byte) (fuel : nat) :
  forall (cs : list cue_source) (s : loop_state),
    cs <> [] ->
    let p := st_parser s in
    let L := Z.of_nat (length (encode_cues k cs)) in
    cue_array_consistent p ->
    parser_cue_point_num p + Z.of_nat (length cs) < 2 ^ 64 ->
    0 <= st_offset s ->
    drop (Z.to_nat (st_offset s)) w = encode_cues k cs ++ tail ->
    1 <= k <= 8 -> Forall cue_fits cs ->
    L <= st_len s < 2 ^ 64 ->
    st_offset s + L < 2 ^ 64 ->
    0 <= parser_consume p -> parser_consume p + L < 2 ^ 64 ->
    parser_len p = 0 \/ parser_consume p + L < parser_len p ->
    exists e info,
      extract_loop (5 * length cs + fuel) w s
      = extract_loop fuel w
          (mkState
             (with_cues p (cue_list p ++ map cue_of cs)
                (parser_consume p + L))
             (st_offset s + L) (st_len s - L) e info).
Proof.
  induction cs as [|cu cs IH]; intros s Hne p L Hcons Hcnt Hoff Hdrop Hk
    Hfits Hlen Hoffc Hc Hcc Hplen; [congruence|].
  apply Forall_cons in Hfits. destruct Hfits as [Hfit Hfits].
  set (L1 := Z.of_nat (length (encode_cue k cu))).
  set (L2 := Z.of_nat (length (encode_cues k cs))).
  assert (HL : L = L1 + L2).
  { subst L L1 L2. cbn [encode_cues]. rewrite length_app. lia. }
  assert (HL1 : 0 < L1) by (apply encode_cue_nonempty; lia).
  assert (HL2 : 0 <= L2) by (subst L2; lia).
  cbn [encode_cues] in Hdrop. rewrite <- app_assoc in Hdrop.
  replace (5 * length (cu :: cs) + fuel)%nat
    with (S (S (S (S (S (5 * length cs + fuel)))))) by (cbn [length]; lia).
  cbn [length] in Hcnt.
  assert (Hcnt1 : parser_cue_point_num (st_parser s) + 1 < 2 ^ 64)
    by (fold p; lia).
  destruct (cue_point_run w s k cu (encode_cues k cs ++ tail)
              (5 * length cs + fuel) Hcons Hcnt1 Hoff Hdrop Hk Hfit)
    as (e & info & Hrun); try (fold L1; fold p; lia).
  fold p in Hrun. fold L1 in Hrun. rewrite Hrun. clear Hrun.
  rewrite done_test_false by lia.
  destruct cs as [|cu' cs'].
  - assert (HL20 : L2 = 0) by reflexivity.
    exists e, info. cbn [map length Nat.mul Nat.add].
    replace L with L1 by lia. reflexivity.
  - set (p1 := with_cues p (cue_list p ++ [cue_of cu])
                 (parser_consume p + L1)).
    set (s1 := mkState p1 (st_offset s + L1) (st_len s - L1) e info).
    assert (Hcount : parser_cue_point_num p1 = parser_cue_point_num p + 1).
    { subst p1. unfold with_cues.
      cbn [parser_cue_point_num set_consume set_cue_point_num].
      rewrite length_app. cbn [length].
      rewrite (cue_count_is_length p Hcons). lia. }
    destruct (IH s1) as (e' & info' & Hrun); try discriminate.
    + apply with_cues_consistent.
    + cbn [st_parser s1]. rewrite Hcount.
      cbn [length] in Hcnt |- *. lia.
    + cbn [st_offset s1]. lia.
    + cbn [st_offset s1].
      eapply drop_view; [exact Hoff | | exact Hdrop | reflexivity]. lia.
    + exact Hk.
    + exact Hfits.
    + cbn [st_len s1]. fold L2. lia.
    + cbn [st_offset s1]. fold L2. lia.
    + cbn [st_parser s1]. subst p1. cbn. lia.
    + cbn [st_parser s1]. subst p1. cbn [parser_consume with_cues
        set_consume]. fold L2. lia.
    + cbn [st_parser s1]. subst p1.
      cbn [parser_consume parser_len with_cues set_consume
             set_cue_point_num set_array]. fold L2. fold p. lia.
    + exists e', info'. rewrite Hrun.
      cbn [st_parser st_offset st_len s1]. subst p1.
      cbn [parser_consume with_cues set_consume].
      change (cue_list (with_cues p (cue_list p ++ [cue_of cu])
                          (parser_consume p + L1)))
        with (cue_list p ++ [cue_of cu]).
      rewrite <- app_assoc. cbn [app map]. fold L2.
      replace (st_offset s + L1 + L2) with (st_offset s + L) by lia.
      replace (st_len s - L1 - L2) with (st_len s - L) by lia.
      replace (parser_consume p + L1 + L2) with (parser_consume p + L)
        by lia.
      reflexivity.
Qed.

Lemma load_view (w : list byte) (off : Z) (b : byte) (l : list byte) :
  0 <= off ->
  drop (Z.to_nat off) w = b :: l ->
  load w off = Ret b.
Proof.
  intros Hoff Hdrop. unfold load.
  destruct (Z.ltb_spec off 0); [lia|].
  pose proof (lookup_drop w (Z.to_nat off) 0) as Hl.
  rewrite Hdrop, Nat.add_0_r in Hl. cbn in Hl. rewrite <- Hl.
  reflexivity.
Qed.

(** A header whose size field is cut short by the end of the announced
    bytes: the header read reports 0. *)
Lemma read_one_short (w : list byte) (off : Z) (idb : list byte)
  (b2 : byte) (tail : list byte) (size : Z)
  (p_info : GstMatroskaEbmlInfo) :
  0 <= off ->
  drop (Z.to_nat off) w = idb ++ b2 :: tail ->
  well_formed_id idb ->
  Z.of_nat (length idb) < size < 2 ^ 64 ->
  size - Z.of_nat (length idb) <= gst_matroska_parser_read_len b2 ->
  exists info,
    gst_matroska_read_one_ebml_info w off size p_info = Ret (0, info).
Proof.
  intros Hoff Hdrop Hwf Hsize Hshort.
  pose proof (well_formed_id_nonempty _ Hwf) as Hn.
  destruct Hwf as (b & tl & Hidb & Hrl & Hn8).
  unfold gst_matroska_read_one_ebml_info.
  replace (size =? 0) with false by lia.
  assert (Hb : load w off = Ret b).
  { apply (load_view w off b (tl ++ b2 :: tail) Hoff).
    rewrite Hdrop, Hidb. reflexivity. }
  rewrite Hb. cbn [bind]. rewrite Hrl.
  replace ((size <=? Z.of_nat (length idb)) || (Z.of_nat (length idb) >? 8))
    with false by (symmetry; apply orb_false_intro; lia).
  rewrite (read_data_view w off idb (b2 :: tail) Hoff Hdrop) by lia.
  cbn [bind].
  assert (Hb2 : load w (off + Z.of_nat (length idb)) = Ret b2).
  { apply (load_view w _ b2 tail); [lia|].
    eapply drop_view; [exact Hoff | | exact Hdrop | reflexivity]. lia. }
  rewrite Hb2. cbn [bind].
  rewrite (wrap64_small (size - Z.of_nat (length idb))) by lia.
  replace ((size - Z.of_nat (length idb)
            <=? gst_matroska_parser_read_len b2)
           || (gst_matroska_parser_read_len b2 >? 8)) with true.
  2:{ symmetry. apply orb_true_intro. left. lia. }
  eexists. reflexivity.
Qed.

Lemma extract_step_nothing_read (w : list byte) (s : loop_state)
  (info : GstMatroskaEbmlInfo) :
  gst_matroska_read_one_ebml_info w (st_offset s) (st_len s) (st_info s)
  = Ret (0, info) ->
  extract_step w s
  = Ret (Return GST_MATROSKA_PARSER_OK
           (if negb (st_offset s =? 0)
            then set_offset (st_offset s) (st_parser s)
            else st_parser s)).
Proof. intros H. unfold extract_step. rewrite H. reflexivity. Qed.

(** A header whose element ends the announced bytes with nothing behind
    the size field: the header reader wants one byte more than the size
    field and reports 0, so the loop stops with OK. *)
Lemma extract_step_header_at_end (w : list byte) (s : loop_state)
  (idb : list byte) (k m : Z) (tail : list byte) :
  0 <= st_offset s ->
  drop (Z.to_nat (st_offset s)) w = idb ++ encode_vint k m ++ tail ->
  well_formed_id idb ->
  1 <= k <= 8 -> 0 <= m < 2 ^ (7 * k) ->
  Z.of_nat (length idb) < st_len s <= Z.of_nat (length idb) + k ->
  extract_step w s
  = Ret (Return GST_MATROSKA_PARSER_OK
           (if negb (st_offset s =? 0)
            then set_offset (st_offset s) (st_parser s)
            else st_parser s)).
Proof.
  intros Hoff Hdrop Hwf Hk Hm Hlen.
  pose proof (well_formed_id_nonempty _ Hwf) as Hn.
  destruct (encode_vint_head k m Hk Hm) as (b2 & tl2 & Henc & _ & Hrl & _).
  assert (Hview : drop (Z.to_nat (st_offset s)) w
                  = idb ++ b2 :: (tl2 ++ tail)).
  { rewrite Hdrop, Henc. reflexivity. }
  destruct (read_one_short w (st_offset s) idb b2 _ (st_len s) (st_info s)
              Hoff Hview Hwf) as [info Hread]; [lia | lia |].
  exact (extract_step_nothing_read w s info Hread).
Qed.

(** The iteration at a cue point that is only partly inside the announced
    bytes: the loop stops with OK and touches nothing but the saved
    offset. *)
Lemma partial_cue_step (w : list byte) (s : loop_state) (k : Z)
  (cu : cue_source) (j : Z) :
  0 <= st_offset s ->
  drop (Z.to_nat (st_offset s)) w
  = take (Z.to_nat j) (encode_cue k cu) ->
  st_len s = j ->
  0 <= j < Z.of_nat (length (encode_cue k cu)) ->
  1 <= k <= 8 -> cue_fits cu ->
  extract_step w s
  = Ret (Return GST_MATROSKA_PARSER_OK
           (if negb (st_offset s =? 0)
            then set_offset (st_offset s) (st_parser s)
            else st_parser s)).
Proof.
  intros Hoff Hdrop Hlen Hj Hk (Ht & Htr & Hpos).
  pose proof (encode_cue_length k cu ltac:(lia)) as HL.
  destruct Ht as [Hnt _]. destruct Htr as [Hntr _].
  destruct Hpos as [Hnp _].
  pose proof (pow7_ge k ltac:(lia)) as Hpow.
  destruct id_pointentry_ok as (Hwf & Hidv & Hidl).
  unfold encode_cue in Hdrop, HL, Hj.
  set (P := element id_cuetime k (be_bytes (n_time cu) (src_time cu))
            ++ element id_cuetrackposition k
                 (element id_cuetrack k
                    (be_bytes (n_track cu) (src_track cu))
                  ++ element id_cueclusterposition k
                       (be_bytes (n_pos cu) (src_pos cu)))) in *.
  assert (HP : Z.of_nat (length (element id_pointentry k P))
               = 1 + k + Z.of_nat (length P)).
  { rewrite element_length by lia. rewrite Hidl. reflexivity. }
  rewrite HP in HL, Hj.
  unfold element in Hdrop.
  destruct (encode_vint_head k (Z.of_nat (length P)) Hk ltac:(lia))
    as (b2 & tl2 & Henc & Htl2 & Hrl2 & _).
  destruct (Z.eq_dec j 0) as [-> | Hj0].
  - apply (extract_step_nothing_read w s (st_info s)).
    unfold gst_matroska_read_one_ebml_info. rewrite Hlen. reflexivity.
  - destruct (Z.le_gt_cases j (1 + k)) as [Hshort | Hlong].
    + change id_pointentry with [xbb] in *.
      destruct (Z.eq_dec j 1) as [-> | Hj1].
      * assert (Hb : load w (st_offset s) = Ret xbb).
        { apply (load_view w _ xbb [] Hoff). rewrite Hdrop. reflexivity. }
        apply (extract_step_nothing_read w s (st_info s)).
        unfold gst_matroska_read_one_ebml_info. rewrite Hlen.
        change (1 =? 0) with false. cbv iota. rewrite Hb. reflexivity.
      * set (j' := (Z.to_nat j - 2)%nat).
        assert (Hj' : Z.to_nat j = S (S j')) by lia.
        assert (Hview : drop (Z.to_nat (st_offset s)) w
                        = [xbb] ++ b2 :: take j' (tl2 ++ P)).
        { rewrite Hdrop, Henc, Hj'. reflexivity. }
        destruct (read_one_short w (st_offset s) [xbb] b2 _ (st_len s)
                    (st_info s) Hoff Hview Hwf) as [info Hread].
        { rewrite Hlen. cbn [length]. lia. }
        { rewrite Hlen, Hrl2. cbn [length]. lia. }
        exact (extract_step_nothing_read w s info Hread).
    + assert (Hview : drop (Z.to_nat (st_offset s)) w
                      = id_pointentry
                        ++ encode_vint k (Z.of_nat (length P))
                        ++ take (Z.to_nat (j - 1 - k)) P).
      { rewrite Hdrop.
        rewrite take_app_ge by (change (length id_pointentry) with 1%nat;
                                lia).
        f_equal.
        rewrite take_app_ge by (rewrite encode_vint_length;
                                change (length id_pointentry) with 1%nat;
                                lia).
        f_equal. f_equal. rewrite encode_vint_length.
        change (length id_pointentry) with 1%nat. lia. }
      unfold extract_step.
      rewrite (read_one_view w (st_offset s) id_pointentry k
                 (Z.of_nat (length P)) _ (st_len s) (st_info s) Hoff Hview
                 Hwf Hk) by lia.
      cbn [bind fst snd].
      rewrite check_unknown_length_plain by lia.
      rewrite adjust_consume_whole
        by (cbn [info_id]; rewrite Hidv; unfold_ids; lia).
      rewrite Hidl.
      replace ((1 + k + Z.of_nat (length P) =? 0)
               || (st_len s <? 1 + k + Z.of_nat (length P))) with true.
      2:{ symmetry. apply orb_true_intro. right. lia. }
      reflexivity.
Qed.

Lemma encode_cues_app (k : Z) (cs1 cs2 : list cue_source) :
  encode_cues k (cs1 ++ cs2) = encode_cues k cs1 ++ encode_cues k cs2.
Proof.
  induction cs1 as [|c cs1 IH]; cbn [encode_cues app]; [reflexivity|].
  rewrite IH, app_assoc. reflexivity.
Qed.

Lemma cues_window_extract (k ks : Z) (header_payload : list byte)
  (segment_size : Z) (n_ts : nat) (ts : Z) (done : list cue_source)
  (cu : cue_source) (later : list cue_source) (rest : list byte) (j : Z) :
  let cs := done ++ cu :: later in
  let stream :=
    cues_first_stream k ks header_payload segment_size n_ts ts cs rest in
  let n :=
    cues_start k ks header_payload n_ts
    + Z.of_nat (length (encode_cues k done)) + j in
  1 <= k <= 8 -> 1 <= ks <= 8 ->
  Z.of_nat (length header_payload) < 2 ^ (7 * k) - 1 ->
  0 <= segment_size < 2 ^ (7 * ks) ->
  uint_fits n_ts ts ->
  Forall cue_fits cs ->
  Z.of_nat (length (encode_cues k cs)) < 2 ^ (7 * k) - 1 ->
  0 <= j < Z.of_nat (length (encode_cue k cu)) ->
  0 < Z.of_nat (length (encode_cues k done)) + j ->
  gst_adapter_available stream < 2 ^ 64 ->
  gst_matroska_parser_extract_data
    (set_status GST_MATROSKA_PARSER_STATUS_DATA
       (set_status GST_MATROSKA_PARSER_STATUS_HEADER zeroed_parser))
    (take (Z.to_nat n) stream)
  = Ret (GST_MATROSKA_PARSER_OK,
         cues_window_result k ks header_payload n_ts ts cs done).
Proof.
  intros cs stream n Hk Hks Hhp Hss Hts Hfits HLC Hj Hsome Havail.
  set (LC := Z.of_nat (length (encode_cues k cs))) in *.
  set (L1 := Z.of_nat (length (encode_cues k done))) in *.
  set (B := encode_cue k cu) in *.
  set (start := cues_start k ks header_payload n_ts) in *.
  set (Ets := element id_timecodescale k (be_bytes n_ts ts)).
  assert (HEts : Z.of_nat (length Ets) = 3 + k + Z.of_nat n_ts).
  { subst Ets. rewrite uint_element_length by lia. reflexivity. }
  set (X := element ebml_magic k header_payload
            ++ (id_segment ++ encode_vint ks segment_size)
            ++ element id_segmentinfo k Ets
            ++ (id_cues ++ encode_vint k LC)
            ++ encode_cues k done).
  assert (HX : Z.of_nat (length X) = start + L1).
  { subst X. rewrite !length_app, !Nat2Z.inj_add, !encode_vint_length.
    rewrite !element_length by lia. rewrite HEts. fold L1.
    change (Z.of_nat (length ebml_magic)) with 4.
    change (Z.of_nat (length id_segment)) with 4.
    change (Z.of_nat (length id_segmentinfo)) with 4.
    change (Z.of_nat (length id_cues)) with 4.
    unfold start, cues_start. lia. }
  assert (Hcs : encode_cues k cs
                = encode_cues k done ++ B ++ encode_cues k later).
  { unfold cs. rewrite encode_cues_app. reflexivity. }
  assert (HLCsum : LC = L1 + Z.of_nat (length B)
                        + Z.of_nat (length (encode_cues k later))).
  { unfold LC. rewrite Hcs, !length_app. unfold L1. lia. }
  assert (Hstream : stream = X ++ B ++ encode_cues k later ++ rest).
  { unfold stream, cues_first_stream, X.
    change (element id_cues k (encode_cues k cs))
      with (id_cues ++ encode_vint k LC ++ encode_cues k cs).
    rewrite Hcs. rewrite <- !app_assoc. reflexivity. }
  set (w := take (Z.to_nat n) stream).
  assert (Hwx : w = X ++ take (Z.to_nat j) B).
  { unfold w. rewrite Hstream.
    replace (Z.to_nat n) with (length X + Z.to_nat j)%nat
      by (unfold n; lia).
    rewrite take_app_add. f_equal. apply take_app_le. lia. }
  assert (Hw : w = element ebml_magic k header_payload
                   ++ (id_segment ++ encode_vint ks segment_size)
                   ++ element id_segmentinfo k
                        (element id_timecodescale k (be_bytes n_ts ts))
                   ++ (id_cues ++ encode_vint k LC)
                   ++ encode_cues k done ++ take (Z.to_nat j) B).
  { rewrite Hwx. unfold X. fold Ets. rewrite <- !app_assoc. reflexivity. }
  assert (Htake : Z.of_nat (length (take (Z.to_nat j) B)) = j)
    by (rewrite length_take; lia).
  assert (Htl : Z.of_nat (length (encode_cues k done
                                  ++ take (Z.to_nat j) B)) = L1 + j)
    by (rewrite length_app; lia).
  assert (Htail : encode_cues k done ++ take (Z.to_nat j) B <> []).
  { intros Hnil. rewrite Hnil in Htl. cbn in Htl. lia. }
  assert (Hlenstream : gst_adapter_available stream
                       = start + LC + Z.of_nat (length rest)).
  { unfold gst_adapter_available. rewrite Hstream.
    rewrite !length_app, !Nat2Z.inj_add, HX. lia. }
  assert (HAw : gst_adapter_available w = start + L1 + j).
  { unfold gst_adapter_available. rewrite Hwx, length_app. lia. }
  assert (HLC0 : 0 <= LC) by (unfold LC; lia).
  assert (HL10 : 0 <= L1) by (unfold L1; lia).
  assert (Hstart0 : 23 <= start) by (unfold start, cues_start; lia).
  assert (Hgedone : 5 * Z.of_nat (length done) <= L1)
    by (apply encode_cues_length_ge; lia).
  destruct (front_run w k ks header_payload segment_size n_ts ts LC
              (encode_cues k done ++ take (Z.to_nat j) B)
              (5 * length done + 1)
              Hw Hk Hks Hhp Hss Hts (conj HLC0 HLC) Htail)
    as (HA & W5 & e & info & Hrun); [lia | fold start; lia |].
  fold start in HA, W5, Hrun. rewrite Htl in HA.
  replace (LC =? 0) with false in Hrun by lia.
  unfold gst_matroska_parser_extract_data. rewrite adapter_map_all.
  fold w.
  apply (extract_loop_more_fuel w
           (S (S (S (S (S (5 * length done + 1))))))); [|lia].
  rewrite Hrun. clear Hrun.
  match goal with
  | |- extract_loop _ _ ?s = _ => set (s5 := s)
  end.
  assert (Hfits1 : Forall cue_fits done /\ cue_fits cu).
  { unfold cs in Hfits. apply Forall_app in Hfits.
    destruct Hfits as [H1 H2]. apply Forall_cons in H2. tauto. }
  destruct Hfits1 as [Hfits1 Hfitcu].
  assert (Hcase : done = [] \/ done <> [])
    by (destruct done; [left; reflexivity | right; discriminate]).
  destruct Hcase as [Hnil | Hne].
  - assert (HL1z : L1 = 0) by (unfold L1; rewrite Hnil; reflexivity).
    rewrite Hnil in W5. cbn [encode_cues app] in W5.
    replace (5 * length done + 1)%nat with 1%nat
      by (rewrite Hnil; reflexivity).
    rewrite (extract_loop_return w 0 s5 GST_MATROSKA_PARSER_OK
               (set_offset start (st_parser s5))).
    + f_equal. f_equal. unfold cues_window_result. fold start. fold LC.
      fold L1. rewrite Hnil.
      unfold s5. parser_simpl. cbn [length].
      f_equal; lia.
    + rewrite (partial_cue_step w s5 k cu j); try assumption.
      * unfold s5. cbv [st_offset st_parser].
        replace (start =? 0) with false by lia. reflexivity.
      * unfold s5. cbv [st_offset]. lia.
      * unfold s5. cbv [st_len]. lia.
  - destruct (cues_walk w k (take (Z.to_nat j) B) 1 done s5 Hne)
      as (e' & info' & Hwalk);
      try (unfold s5; parser_simpl; fold L1; lia);
      try assumption; try reflexivity.
    rewrite Hwalk. clear Hwalk.
    match goal with
    | |- extract_loop _ _ ?s = _ => set (s6 := s)
    end.
    rewrite (extract_loop_return w 0 s6 GST_MATROSKA_PARSER_OK
               (set_offset (start + L1) (st_parser s6))).
    + f_equal. f_equal. unfold cues_window_result. fold start. fold LC.
      fold L1. unfold s6, s5, cue_list. parser_simpl.
      cbn [app]. rewrite length_map.
      destruct done; [congruence|]. f_equal; lia.
    + rewrite (partial_cue_step w s6 k cu j); try assumption.
      * unfold s6, s5. cbv [st_offset st_parser]. fold L1.
        replace (start + L1 =? 0) with false by lia. reflexivity.
      * unfold s6, s5. cbv [st_offset]. fold L1. lia.
      * unfold s6, s5. cbv [st_offset]. fold L1.
        eapply drop_view; [| | exact W5 | reflexivity]; lia.
      * unfold s6, s5. cbv [st_len]. fold L1. lia.
Qed.

(** A window that ends inside the cue points.  When the bytes of a
    stream with its cues in front are available only up to some point
    inside the cue point that follows the cue points [done] (at its first
    byte at the earliest when [done] is empty, otherwise anywhere from its
    start on), one call on a parser in INIT returns OK and leaves exactly:
    the time scale, one array element for each complete cue point and none
    for the one cut short, the announced end of the Cues element as [len],
    and the start of the incomplete cue point as [consume] and as the
    offset to resume at; the status is DATA. *)
Theorem cues_first_window_parsed (p : GstMatroskaParser) (k ks : Z)
  (header_payload : list byte) (segment_size : Z) (n_ts : nat) (ts : Z)
  (done : list cue_source) (cu : cue_source) (later : list cue_source)
  (rest : list byte) (j : Z) :
  let cs := done ++ cu :: later in
  let stream :=
    cues_first_stream k ks header_payload segment_size n_ts ts cs rest in
  let n :=
    cues_start k ks header_payload n_ts
    + Z.of_nat (length (encode_cues k done)) + j in
  parser_status p = GST_MATROSKA_PARSER_STATUS_INIT ->
  1 <= k <= 8 -> 1 <= ks <= 8 ->
  Z.of_nat (length header_payload) < 2 ^ (7 * k) - 1 ->
  0 <= segment_size < 2 ^ (7 * ks) ->
  uint_fits n_ts ts ->
  Forall cue_fits cs ->
  Z.of_nat (length (encode_cues k cs)) < 2 ^ (7 * k) - 1 ->
  0 <= j < Z.of_nat (length (encode_cue k cu)) ->
  0 < Z.of_nat (length (encode_cues k done)) + j ->
  gst_adapter_available stream < 2 ^ 64 ->
  gst_matroska_parser_entry (Some p) (Some (take (Z.to_nat n) stream))
  = Ret (GST_MATROSKA_PARSER_OK,
         Some (cues_window_result k ks header_payload n_ts ts cs done)).
Proof.
  intros cs stream n Hst Hk Hks Hhp Hss Hts Hfits HLC Hj Hsome Havail.
  unfold gst_matroska_parser_entry. rewrite Hst.
  unfold entry_init, gst_matroska_parser_init, entry_header.
  set (w := take (Z.to_nat n) stream).
  assert (Hn : 4 <= n) by (unfold n, cues_start; lia).
  assert (Hlen : n <= Z.of_nat (length stream)).
  { unfold stream, cues_first_stream.
    rewrite !length_app, !Nat2Z.inj_add, !encode_vint_length.
    rewrite !element_length, be_bytes_length by lia.
    unfold cs. rewrite encode_cues_app. cbn [encode_cues].
    rewrite !length_app, !Nat2Z.inj_add.
    change (Z.of_nat (length id_timecodescale)) with 3.
    change (Z.of_nat (length ebml_magic)) with 4.
    change (Z.of_nat (length id_segment)) with 4.
    change (Z.of_nat (length id_segmentinfo)) with 4.
    change (Z.of_nat (length id_cues)) with 4.
    unfold n, cues_start. lia. }
  assert (Hmagic : take 4 w = ebml_magic).
  { unfold w. rewrite take_take.
    replace (Nat.min 4 (Z.to_nat n)) with 4%nat by lia. reflexivity. }
  assert (Hfour : 4 <= gst_adapter_available w).
  { unfold gst_adapter_available, w. rewrite length_take. lia. }
  rewrite (proj1 (proj2 (check_id_cases _ w) Hfour) Hmagic).
  cbn [bind]. unfold entry_data. unfold w, n, stream, cs.
  rewrite (cues_window_extract k ks header_payload segment_size n_ts ts
             done cu later rest j Hk Hks Hhp Hss Hts Hfits HLC Hj Hsome
             Havail).
  reflexivity.
Qed.

Lemma cues_first_window_parsed_witness :
  gst_matroska_parser_entry (Some zeroed_parser)
    (Some (take (Z.to_nat
                   (cues_start 1 8 (bytes_of [0x42; 0x86; 0x81; 0x01]) 3
                    + Z.of_nat (length (encode_cues 1 [mkCue 0 1 1 1 0 1]))
                    + 7))
             (cues_first_stream 1 8 (bytes_of [0x42; 0x86; 0x81; 0x01])
                (2 ^ 56 - 1) 3 1000000
                ([mkCue 0 1 1 1 0 1] ++ mkCue 5000000000 5 1 1 4096 2 :: [])
                (bytes_of cluster_bytes))))
  = Ret (GST_MATROSKA_PARSER_OK,
         Some (cues_window_result 1 8 (bytes_of [0x42; 0x86; 0x81; 0x01])
                 3 1000000
                 ([mkCue 0 1 1 1 0 1] ++ mkCue 5000000000 5 1 1 4096 2 :: [])
                 [mkCue 0 1 1 1 0 1])).
Proof.
  apply (cues_first_window_parsed zeroed_parser 1 8
           (bytes_of [0x42; 0x86; 0x81; 0x01]) (2 ^ 56 - 1) 3 1000000
           [mkCue 0 1 1 1 0 1] (mkCue 5000000000 5 1 1 4096 2) []
           (bytes_of cluster_bytes) 7).
  - reflexivity.
  - lia.
  - lia.
  - vm_compute. reflexivity.
  - vm_compute. split; [discriminate | reflexivity].
  - split; [lia | vm_compute; split; [discriminate | reflexivity]].
  - repeat constructor; vm_compute; try lia; discriminate.
  - vm_compute. reflexivity.
  - vm_compute. split; [discriminate | reflexivity].
  - vm_compute. reflexivity.
  - vm_compute. reflexivity.
Defined.

(** ** A Cues element met anywhere in a call *)

Lemma cues_element_run (w : list byte) (s : loop_state) (k : Z)
  (cs : list cue_source) (tail : list byte) :
  let p := st_parser s in
  let LC := Z.of_nat (length (encode_cues k cs)) in
  let total := 4 + k + LC in
  0 <= st_offset s ->
  drop (Z.to_nat (st_offset s)) w
  = element id_cues k (encode_cues k cs) ++ tail ->
  1 <= k <= 8 -> Forall cue_fits cs ->
  LC < 2 ^ (7 * k) - 1 ->
  total <= st_len s < 2 ^ 64 ->
  (cs = [] -> total < st_len s) ->
  st_offset s + total < 2 ^ 64 ->
  0 <= parser_consume p -> parser_consume p + total < 2 ^ 64 ->
  cue_array_consistent p ->
  parser_cue_point_num p + Z.of_nat (length cs) < 2 ^ 64 ->
  exists p',
    extract_loop (S (5 * length cs)) w s
    = Ret (GST_MATROSKA_PARSER_DONE, p')
    /\ cue_list p' = cue_list p ++ map cue_of cs
    /\ cue_array_consistent p'
    /\ parser_cue_point_num p'
       = parser_cue_point_num p + Z.of_nat (length cs)
    /\ parser_len p' = parser_consume p + total
    /\ parser_consume p' = parser_consume p + total
    /\ parser_offset p' = st_offset s + total
    /\ parser_time_scale p' = parser_time_scale p
    /\ parser_duration p' = parser_duration p
    /\ parser_segment_offset p' = parser_segment_offset p
    /\ parser_segment_head_offset p' = parser_segment_head_offset p
    /\ parser_status p' = parser_status p
    /\ parser_is_discard_ebml_header p' = parser_is_discard_ebml_header p
    /\ parser_total_length p' = parser_total_length p.
Proof.
  intros p LC total Hoff Hdrop Hk Hfits HLC Hlen Hlen0 Hoffc Hc Hcc
    Hcons Hcnt.
  assert (HLC0 : 0 <= LC) by (unfold LC; lia).
  assert (Hview : drop (Z.to_nat (st_offset s)) w
                  = id_cues ++ encode_vint k LC ++ encode_cues k cs ++ tail).
  { rewrite Hdrop. unfold element. fold LC. rewrite <- !app_assoc.
    reflexivity. }
  assert (Hh : 4 + k < st_len s).
  { destruct cs as [|c cs'].
    { specialize (Hlen0 eq_refl). unfold total, LC in Hlen0.
      cbn [encode_cues length] in Hlen0. lia. }
    assert (0 < LC); [|lia].
    unfold LC. cbn [encode_cues]. rewrite length_app.
    pose proof (encode_cue_nonempty k c ltac:(lia)). lia. }
  pose proof (step_cues w s k LC (encode_cues k cs ++ tail) Hoff Hview Hk
                (conj HLC0 HLC) (conj Hh (proj2 Hlen)) ltac:(lia) Hc
                ltac:(fold p; lia)) as Hstep.
  cbv zeta in Hstep. fold p in Hstep.
  set (p1 := set_consume (parser_consume p + (4 + k))
               (set_len (parser_consume p + (4 + k) + LC) p)) in *.
  destruct cs as [|c cs'].
  - replace (LC =? 0) with true in Hstep by reflexivity.
    assert (HLCz : LC = 0) by reflexivity.
    exists (set_offset (st_offset s + (4 + k)) p1). split.
    { apply extract_loop_return. exact Hstep. }
    unfold cue_list, cue_array_consistent in *. subst p1.
    cbn [set_offset set_consume set_len parser_array parser_cue_point_num
         parser_len parser_consume parser_offset parser_time_scale
         parser_duration parser_segment_offset parser_segment_head_offset
         parser_status parser_is_discard_ebml_header parser_total_length
         map length].
    rewrite app_nil_r.
    repeat split; try reflexivity; try assumption; lia.
  - assert (HLCpos : 0 < LC).
    { unfold LC. cbn [encode_cues]. rewrite length_app.
      pose proof (encode_cue_nonempty k c ltac:(lia)). lia. }
    replace (LC =? 0) with false in Hstep by lia.
    match type of Hstep with
    | _ = Ret (Continue ?s1') => set (s1 := s1') in *
    end.
    pose proof (cues_run w k tail 0 (c :: cs') s1 ltac:(discriminate))
      as Hrun.
    cbv zeta in Hrun.
    change (st_parser s1) with p1 in Hrun.
    change (st_offset s1) with (st_offset s + (4 + k)) in Hrun.
    change (st_len s1) with (st_len s - (4 + k)) in Hrun.
    fold LC in Hrun.
    change (parser_consume p1) with (parser_consume p + (4 + k)) in Hrun.
    change (parser_len p1) with (parser_consume p + (4 + k) + LC) in Hrun.
    change (parser_cue_point_num p1) with (parser_cue_point_num p) in Hrun.
    change (cue_list p1) with (cue_list p) in Hrun.
    eexists. split.
    { rewrite (extract_loop_continue _ _ _ _ Hstep).
      replace (5 * length (c :: cs'))%nat
        with (5 * length (c :: cs') + 0)%nat by lia.
      apply Hrun; try assumption; try lia.
      rewrite app_assoc in Hview.
      eapply drop_view; [exact Hoff | | exact Hview |]; [lia|].
      rewrite length_app, encode_vint_length.
      change (length id_cues) with 4%nat. lia. }
    unfold cue_list, cue_array_consistent, with_cues. subst p1.
    cbn [set_offset set_consume set_len set_array set_cue_point_num
         parser_array parser_cue_point_num
         parser_len parser_consume parser_offset parser_time_scale
         parser_duration parser_segment_offset parser_segment_head_offset
         parser_status parser_is_discard_ebml_header parser_total_length].
    fold (cue_list p).
    rewrite length_app, length_map, (cue_count_is_length p Hcons).
    repeat split; try reflexivity; lia.
Qed.

(** Wherever in a call the loop arrives at a Cues element that lies
    entirely inside the bytes still announced (after arbitrary elements in
    front of it), and that holds at least one cue point or has at least
    one announced byte behind it, the call completes with DONE: the cue
    points of the element are appended to the cue array, one element each
    and in stream order, with their time, track and cluster position;
    [len], [consume] and the saved offset are the end of the element; the
    status is FINISHED and nothing else in the parser changes.  What
    follows the element is not looked at.  An empty Cues element that ends
    the announced bytes is not dispatched: the call returns OK with the
    parser as it stood, only the cursor saved as offset (when it is not
    0). *)
Theorem cues_element_parsed (p q : GstMatroskaParser) (a : GstAdapter)
  (s : loop_state) (k : Z) (cs : list cue_source) (tail : list byte) :
  let LC := Z.of_nat (length (encode_cues k cs)) in
  let total := 4 + k + LC in
  extraction_input p a = Some q ->
  reaches a (initial_state q a) s ->
  0 <= st_offset s ->
  drop (Z.to_nat (st_offset s)) a
  = element id_cues k (encode_cues k cs) ++ tail ->
  1 <= k <= 8 -> Forall cue_fits cs ->
  LC < 2 ^ (7 * k) - 1 ->
  total <= st_len s < 2 ^ 64 ->
  st_offset s + total < 2 ^ 64 ->
  0 <= parser_consume (st_parser s) ->
  parser_consume (st_parser s) + total < 2 ^ 64 ->
  cue_array_consistent (st_parser s) ->
  parser_cue_point_num (st_parser s) + Z.of_nat (length cs) < 2 ^ 64 ->
  ((cs = [] -> total < st_len s) ->
   exists p',
     gst_matroska_parser_entry (Some p) (Some a)
     = Ret (GST_MATROSKA_PARSER_DONE, Some p')
     /\ cue_list p' = cue_list (st_parser s) ++ map cue_of cs
     /\ cue_array_consistent p'
     /\ parser_cue_point_num p'
        = parser_cue_point_num (st_parser s) + Z.of_nat (length cs)
     /\ parser_len p' = parser_consume (st_parser s) + total
     /\ parser_consume p' = parser_consume (st_parser s) + total
     /\ parser_offset p' = st_offset s + total
     /\ parser_time_scale p' = parser_time_scale (st_parser s)
     /\ parser_duration p' = parser_duration (st_parser s)
     /\ parser_segment_offset p' = parser_segment_offset (st_parser s)
     /\ parser_segment_head_offset p'
        = parser_segment_head_offset (st_parser s)
     /\ parser_status p' = GST_MATROSKA_PARSER_STATUS_FINISHED
     /\ parser_is_discard_ebml_header p'
        = parser_is_discard_ebml_header (st_parser s)
     /\ parser_total_length p' = parser_total_length (st_parser s))
  /\ (cs = [] -> st_len s = total ->
      gst_matroska_parser_entry (Some p) (Some a)
      = Ret (GST_MATROSKA_PARSER_OK,
             Some (if negb (st_offset s =? 0)
                   then set_offset (st_offset s) (st_parser s)
                   else st_parser s))).
Proof.
  intros LC total Hq Hreach Hoff Hdrop Hk Hfits HLC Hlen Hoffc Hc Hcc
    Hcons Hcnt.
  split.
  - intros Hlen0.
    destruct (cues_element_run a s k cs tail Hoff Hdrop Hk Hfits HLC Hlen
                Hlen0 Hoffc Hc Hcc Hcons Hcnt)
      as (p0 & Hrun & H1 & H2 & H3 & H4 & H5 & H6 & H7 & H8 & H9 & H10 & H11
          & H12 & H13).
    destruct (reaches_loop _ _ _ Hreach _ _ Hrun) as [fuel0 Hrun0].
    pose proof (extract_data_of_run _ _ _ _ Hrun0) as Hx.
    pose proof (entry_of_extract _ _ _ _ _ Hq Hx) as Hentry.
    cbv iota in Hentry.
    exists (set_status GST_MATROSKA_PARSER_STATUS_FINISHED p0).
    split; [exact Hentry|].
    split; [exact H1|]. split; [exact H2|]. split; [exact H3|].
    split; [exact H4|]. split; [exact H5|]. split; [exact H6|].
    split; [exact H7|]. split; [exact H8|]. split; [exact H9|].
    split; [exact H10|]. split; [reflexivity|].
    split; [exact H12 | exact H13].
  - intros Hcs Htot. subst cs.
    assert (HLCz : LC = 0) by reflexivity.
    destruct id_cues_ok as (Hwf & _ & Hidl).
    assert (Hpos : 0 < 2 ^ (7 * k)) by (apply Z.pow_pos_nonneg; lia).
    assert (Hview : drop (Z.to_nat (st_offset s)) a
                    = id_cues ++ encode_vint k 0 ++ tail).
    { rewrite Hdrop. unfold element. cbn [encode_cues length app].
      rewrite <- !app_assoc. reflexivity. }
    pose proof (extract_step_header_at_end a s id_cues k 0 tail Hoff Hview
                  Hwf Hk ltac:(lia) ltac:(rewrite Hidl; lia)) as Hstep.
    pose proof (extract_loop_return a 0 s _ _ Hstep) as Hrun.
    destruct (reaches_loop _ _ _ Hreach _ _ Hrun) as [fuel0 Hrun0].
    pose proof (extract_data_of_run _ _ _ _ Hrun0) as Hx.
    exact (entry_of_extract _ _ _ _ _ Hq Hx).
Qed.

Lemma cues_element_parsed_witness :
  (exists p',
     gst_matroska_parser_entry (Some zeroed_parser) (Some sample_stream)
     = Ret (GST_MATROSKA_PARSER_DONE, Some p')
     /\ cue_list p'
        = cue_list (mkParser 0 9 0 1000000 0 0 33 0 None
                      GST_MATROSKA_PARSER_STATUS_DATA false 0)
          ++ map cue_of [mkCue 0 1 1 1 0 1; mkCue 5000000000 5 1 1 4096 2])
  /\ gst_matroska_parser_entry (Some zeroed_parser) (Some empty_cues_stream)
     = Ret (GST_MATROSKA_PARSER_OK,
            Some (mkParser 0 9 0 1000000 0 33 33 0 None
                    GST_MATROSKA_PARSER_STATUS_DATA false 0)).
Proof.
  split.
  - destruct (cues_element_parsed zeroed_parser
                (set_status GST_MATROSKA_PARSER_STATUS_DATA
                   (set_status GST_MATROSKA_PARSER_STATUS_HEADER
                      zeroed_parser))
                sample_stream
                (mkState
                   (mkParser 0 9 0 1000000 0 0 33 0 None
                      GST_MATROSKA_PARSER_STATUS_DATA false 0)
                   33 42 None (mkInfo 0x2AD7B1 3 4 30))
                1 [mkCue 0 1 1 1 0 1; mkCue 5000000000 5 1 1 4096 2]
                (bytes_of cluster_bytes))
      as [Hdone _].
    + vm_compute. reflexivity.
    + eapply reaches_step; [vm_compute; reflexivity|].
      eapply reaches_step; [vm_compute; reflexivity|].
      eapply reaches_step; [vm_compute; reflexivity|].
      eapply reaches_step; [vm_compute; reflexivity|].
      apply reaches_here.
    + vm_compute. discriminate.
    + vm_compute. reflexivity.
    + lia.
    + repeat constructor; vm_compute; try lia; discriminate.
    + vm_compute. reflexivity.
    + vm_compute. split; [discriminate | reflexivity].
    + vm_compute. reflexivity.
    + vm_compute. discriminate.
    + vm_compute. reflexivity.
    + reflexivity.
    + vm_compute. reflexivity.
    + destruct (Hdone ltac:(discriminate)) as (p' & Hrun & Hcues & _).
      exists p'. split; assumption.
  - destruct (cues_element_parsed zeroed_parser
                (set_status GST_MATROSKA_PARSER_STATUS_DATA
                   (set_status GST_MATROSKA_PARSER_STATUS_HEADER
                      zeroed_parser))
                empty_cues_stream
                (mkState
                   (mkParser 0 9 0 1000000 0 0 33 0 None
                      GST_MATROSKA_PARSER_STATUS_DATA false 0)
                   33 5 None (mkInfo 0x2AD7B1 3 4 30))
                1 [] [])
      as [_ Hok].
    + vm_compute. reflexivity.
    + eapply reaches_step; [vm_compute; reflexivity|].
      eapply reaches_step; [vm_compute; reflexivity|].
      eapply reaches_step; [vm_compute; reflexivity|].
      eapply reaches_step; [vm_compute; reflexivity|].
      apply reaches_here.
    + vm_compute. discriminate.
    + vm_compute. reflexivity.
    + lia.
    + constructor.
    + vm_compute. reflexivity.
    + vm_compute. split; [discriminate | reflexivity].
    + vm_compute. reflexivity.
    + vm_compute. discriminate.
    + vm_compute. reflexivity.
    + reflexivity.
    + vm_compute. reflexivity.
    + exact (Hok eq_refl eq_refl).
Defined.

Lemma extract_step_cluster (w : list byte) (s : loop_state)
  (info : GstMatroskaEbmlInfo) :
  header_at w s = Some info ->
  info_id info = GST_MATROSKA_ID_CLUSTER ->
  extract_step w s
  = Ret (Return GST_MATROSKA_PARSER_DONE (st_parser s)).
Proof.
  unfold header_at, extract_step. intros Hh Hid.
  destruct (gst_matroska_read_one_ebml_info w (st_offset s) (st_len s)
              (st_info s)) as [r| |]; try discriminate.
  cbn [bind].
  destruct ((adjust_consume (fst r) (snd r) =? 0)
            || (st_len s <? adjust_consume (fst r) (snd r)));
    [discriminate|].
  inversion Hh as [Hinfo]. unfold dispatch. rewrite Hinfo, Hid.
  reflexivity.
Qed.

(** A Cluster header ends the parse.  Wherever in a call the loop reads
    the header of a Cluster, the call returns DONE and moves the parser to
    FINISHED; apart from the status the parser is as the elements in front
    of the Cluster left it: no cue is added, [consume] is the position of
    the Cluster, and the saved offset is not updated.  Cues that follow
    the Cluster are never read. *)
Theorem cluster_stops_parse (p q : GstMatroskaParser) (a : GstAdapter)
  (s : loop_state) (info : GstMatroskaEbmlInfo) :
  extraction_input p a = Some q ->
  reaches a (initial_state q a) s ->
  header_at a s = Some info ->
  info_id info = GST_MATROSKA_ID_CLUSTER ->
  gst_matroska_parser_entry (Some p) (Some a)
  = Ret (GST_MATROSKA_PARSER_DONE,
         Some (set_status GST_MATROSKA_PARSER_STATUS_FINISHED (st_parser s)))
  /\ parser_offset (st_parser s) = parser_offset q.
Proof.
  intros Hq Hreach Hh Hid.
  pose proof (extract_loop_return a 0 s _ _ (extract_step_cluster _ _ _ Hh
                                               Hid)) as Hrun.
  destruct (reaches_loop _ _ _ Hreach _ _ Hrun) as [fuel0 Hrun0].
  pose proof (extract_data_of_run _ _ _ _ Hrun0) as Hx.
  split; [exact (entry_of_extract _ _ _ _ _ Hq Hx)|].
  clear - Hreach.
  remember (initial_state q a) as s0 eqn:Hs0.
  assert (Hinit : parser_offset (st_parser s0) = parser_offset q)
    by (subst s0; reflexivity).
  clear Hs0. induction Hreach as [s | s s' s'' Hstep _ IH]; [exact Hinit|].
  apply IH.
  destruct (extract_step_continue _ _ _ Hstep)
    as (info & p1 & c & _ & _ & Hd & _ & Hs' & _).
  destruct (dispatch_next _ _ _ _ _ _ _ Hd) as (_ & _ & Hoff & _).
  subst s'. cbn [st_parser parser_offset set_consume]. congruence.
Qed.

Lemma cluster_stops_parse_witness :
  gst_matroska_parser_entry (Some zeroed_parser)
    (Some truncated_cues_stream)
  = Ret (GST_MATROSKA_PARSER_DONE,
         Some (set_status GST_MATROSKA_PARSER_STATUS_FINISHED
                 (st_parser
                    (mkState
                       (mkParser 57 9 0 0 0 0 26 0 None
                          GST_MATROSKA_PARSER_STATUS_DATA false 0)
                       26 6 None (mkInfo 0x1C53BB6B 31 5 26))))).
Proof.
  refine (proj1 (cluster_stops_parse zeroed_parser
                   (set_status GST_MATROSKA_PARSER_STATUS_DATA
                      (set_status GST_MATROSKA_PARSER_STATUS_HEADER
                         zeroed_parser))
                   truncated_cues_stream
                   (mkState
                      (mkParser 57 9 0 0 0 0 26 0 None
                         GST_MATROSKA_PARSER_STATUS_DATA false 0)
                      26 6 None (mkInfo 0x1C53BB6B 31 5 26))
                   (mkInfo 0x1F43B675 1 5 31) _ _ _ _)).
  - vm_compute. reflexivity.
  - eapply reaches_step; [vm_compute; reflexivity|].
    eapply reaches_step; [vm_compute; reflexivity|].
    eapply reaches_step; [vm_compute; reflexivity|].
    apply reaches_here.
  - vm_compute. reflexivity.
  - reflexivity.
Defined.

(** ** A whole stream, from the entry point *)





(** ** How many headers a call dispatches *)

Lemma dispatched_length (w : list byte) (fuel : nat) :
  forall s,
    0 <= st_len s < 2 ^ 64 ->
    2 * Z.of_nat (length (dispatched fuel w s)) <= st_len s.
Proof.
  induction fuel as [|fuel IH]; intros s Hlen; [cbn; lia|].
  cbn [dispatched].
  destruct (header_at w s) as [info|] eqn:Hh; [|cbn; lia].
  destruct (header_at_some _ _ _ Hh)
    as (bytes & _ & Hbytes & Hoff & Hfit & Hsz & Hadj & Hcases).
  destruct (extract_step w s) as [[s'|res p']| |] eqn:Hstep;
    cbn [length]; try lia.
  destruct (extract_step_continue _ _ _ Hstep)
    as (info' & p1 & c & Hh' & _ & Hd & Hc & Hs' & _).
  rewrite Hh in Hh'. inversion Hh'; subst info'.
  destruct (dispatch_next _ _ _ _ _ _ _ Hd) as (Hcc & _).
  rewrite <- Hbytes in Hcc.
  assert (Hc2 : 2 <= c) by lia.
  assert (Hlen' : st_len s' = st_len s - c).
  { subst s'. cbn [st_len]. apply wrap64_small. lia. }
  specialize (IH s' ltac:(lia)). lia.
Qed.

(** A call dispatches at most one header for every two bytes of the
    window: each iteration that continues moves the cursor by at least the
    two bytes of a header, so the loop ends within available / 2
    iterations. *)
Theorem entry_dispatches_at_most_half (p : GstMatroskaParser)
  (a : GstAdapter) :
  gst_adapter_available a < 2 ^ 64 ->
  2 * Z.of_nat (length (entry_dispatched p a)) <= gst_adapter_available a.
Proof.
  intros Ha. unfold entry_dispatched.
  assert (Hnn : 0 <= gst_adapter_available a)
    by (unfold gst_adapter_available; lia).
  destruct (extraction_input p a) as [q|]; [|cbn; lia].
  rewrite adapter_map_all.
  apply (dispatched_length a _ (initial_state q a)).
  cbn [initial_state st_len]. lia.
Qed.

Lemma entry_dispatches_at_most_half_witness :
  2 * Z.of_nat (length (entry_dispatched zeroed_parser sample_stream))
  <= gst_adapter_available sample_stream.
Proof.
  apply (entry_dispatches_at_most_half zeroed_parser sample_stream).
  vm_compute. reflexivity.
Defined.

(** ** Elements the loop has no case for *)

Lemma dispatch_default (w : list byte) (q : GstMatroskaParser)
  (info : GstMatroskaEbmlInfo) (c0 : Z) (e : option Z) :
  Forall (fun id => info_id info <> id) handled_ids ->
  dispatch w q info c0 e = Ret (Next q c0).
Proof.
  unfold handled_ids. intros H.
  repeat match goal with
         | F : Forall _ (_ :: _) |- _ =>
             apply Forall_cons in F; destruct F as [? F]
         end.
  unfold dispatch.
  repeat match goal with
         | Hne : info_id info <> ?x |- context [info_id info =? ?x] =>
             rewrite (proj2 (Z.eqb_neq (info_id info) x) Hne)
         end.
  reflexivity.
Qed.

Lemma step_unhandled (w : list byte) (s : loop_state)
  (e : list byte * list byte) (k : Z) (tail : list byte) :
  unhandled k e ->
  0 <= st_offset s ->
  drop (Z.to_nat (st_offset s)) w = element (fst e) k (snd e) ++ tail ->
  1 <= k <= 8 ->
  let total := Z.of_nat (length (element (fst e) k (snd e))) in
  total <= st_len s < 2 ^ 64 ->
  Z.of_nat (length (fst e)) + k < st_len s ->
  st_offset s + total < 2 ^ 64 ->
  0 <= parser_consume (st_parser s) ->
  parser_consume (st_parser s) + total < 2 ^ 64 ->
  parser_len (st_parser s) = 0
  \/ parser_consume (st_parser s) + total < parser_len (st_parser s) ->
  exists en info,
    extract_step w s
    = Ret (Continue
             (mkState
                (set_consume (parser_consume (st_parser s) + total)
                   (st_parser s))
                (st_offset s + total) (st_len s - total) en info)).
Proof.
  intros (Hwf & Hids & Hm) Hoff Hdrop Hk total Hlen Hh Hoffc Hc Hcc Hplen.
  assert (Htotal : total = Z.of_nat (length (fst e)) + k
                           + Z.of_nat (length (snd e)))
    by (apply element_length; lia).
  unfold element in Hdrop. rewrite <- !app_assoc in Hdrop.
  assert (Hcul : check_unknown_length k (Z.of_nat (length (snd e)))
                 = Z.of_nat (length (snd e)))
    by (apply check_unknown_length_plain; lia).
  assert (Hneq : be_value (fst e) mod 2 ^ 32 <> GST_MATROSKA_ID_SEGMENT
                 /\ be_value (fst e) mod 2 ^ 32 <> GST_MATROSKA_ID_CUES
                 /\ be_value (fst e) mod 2 ^ 32 <> GST_MATROSKA_ID_CLUSTER).
  { pose proof Hids as Hall. unfold handled_ids in Hall.
    repeat match goal with
           | F : Forall _ (_ :: _) |- _ =>
               apply Forall_cons in F; destruct F as [? F]
           end.
    auto. }
  pose proof (extract_step_next w s (fst e) k (Z.of_nat (length (snd e)))
                (snd e ++ tail) (st_parser s) total
                Hoff Hdrop Hwf Hk ltac:(lia) ltac:(lia)) as Hstep.
  cbv zeta in Hstep. rewrite Hcul in Hstep.
  rewrite adjust_consume_whole in Hstep by (cbn [info_id]; tauto).
  rewrite <- Htotal in Hstep.
  rewrite Hstep; clear Hstep; try lia.
  - rewrite done_test_false by lia. eauto.
  - apply dispatch_default. exact Hids.
Qed.

Lemma encode_others_cons_length (k : Z) (e : list byte * list byte)
  (es : list (list byte * list byte)) :
  Z.of_nat (length (encode_others k (e :: es)))
  = Z.of_nat (length (element (fst e) k (snd e)))
    + Z.of_nat (length (encode_others k es)).
Proof. cbn [encode_others]. rewrite length_app. lia. Qed.

Lemma set_consume_same (p : GstMatroskaParser) :
  set_consume (parser_consume p + 0) p = p.
Proof. destruct p. unfold set_consume. cbn. rewrite Z.add_0_r. reflexivity. Qed.

Lemma unhandled_run (w : list byte) (k : Z) (tail : list byte) :
  forall (es : list (list byte * list byte)) (s : loop_state),
    let L := Z.of_nat (length (encode_others k es)) in
    Forall (unhandled k) es ->
    0 <= st_offset s ->
    drop (Z.to_nat (st_offset s)) w = encode_others k es ++ tail ->
    1 <= k <= 8 ->
    L < st_len s < 2 ^ 64 ->
    st_offset s + L < 2 ^ 64 ->
    0 <= parser_consume (st_parser s) ->
    parser_consume (st_parser s) + L < 2 ^ 64 ->
    parser_len (st_parser s) = 0
    \/ parser_consume (st_parser s) + L < parser_len (st_parser s) ->
    exists s',
      reaches w s s'
      /\ st_parser s'
         = set_consume (parser_consume (st_parser s) + L) (st_parser s)
      /\ st_offset s' = st_offset s + L
      /\ st_len s' = st_len s - L
      /\ drop (Z.to_nat (st_offset s')) w = tail.
Proof.
  induction es as [|e es IH]; intros s L Hun Hoff Hdrop Hk Hlen Hoffc Hc
    Hcc Hplen.
  - exists s. subst L. cbn [encode_others length app] in *.
    change (Z.of_nat 0) with 0.
    rewrite set_consume_same, !Z.add_0_r, Z.sub_0_r.
    repeat split; [apply reaches_here | exact Hdrop].
  - apply Forall_cons in Hun. destruct Hun as [He Hes].
    pose proof (encode_others_cons_length k e es) as HL. fold L in HL.
    set (L1 := Z.of_nat (length (element (fst e) k (snd e)))) in *.
    set (L2 := Z.of_nat (length (encode_others k es))) in *.
    assert (HL1 : L1 = Z.of_nat (length (fst e)) + k
                       + Z.of_nat (length (snd e)))
      by (apply element_length; lia).
    assert (HL2 : 0 <= L2) by (unfold L2; lia).
    cbn [encode_others] in Hdrop. rewrite <- app_assoc in Hdrop.
    destruct (step_unhandled w s e k (encode_others k es ++ tail) He Hoff
                Hdrop Hk) as (en & info & Hstep);
      try (fold L1; lia).
    fold L1 in Hstep.
    match type of Hstep with
    | _ = Ret (Continue ?s1') => set (s1 := s1') in *
    end.
    destruct (IH s1) as (s' & Hreach & Hp & Ho & Hl & Hd);
      try assumption;
      try (unfold s1; cbn [st_offset st_len st_parser parser_consume
                             parser_len set_consume]; fold L2; lia).
    + unfold s1. cbn [st_offset].
      eapply drop_view; [exact Hoff | | exact Hdrop | reflexivity]. lia.
    + exists s'. split; [eapply reaches_step; eassumption|].
      split; [|split; [|split; [|exact Hd]]].
      2:{ rewrite Ho. unfold s1. cbn [st_offset]. fold L2. lia. }
      2:{ rewrite Hl. unfold s1. cbn [st_len]. fold L2. lia. }
      rewrite Hp. unfold s1.
      cbn [st_offset st_len st_parser parser_consume]. fold L2.
      unfold set_consume.
      cbn [parser_len parser_segment_offset parser_segment_head_offset
           parser_time_scale parser_duration parser_offset parser_consume
           parser_cue_point_num parser_array parser_status
           parser_is_discard_ebml_header parser_total_length].
      f_equal. lia.
Qed.

(** Elements the loop has no case for are passed over.  From any state of
    the loop whose cursor is at a run of such elements (any ids outside the
    thirteen of the [switch], any payloads) that lies inside the announced
    bytes with at least one more byte behind it, the loop arrives at the
    state right behind the run: the cursor, the announced length and
    [consume] have moved by the length of the run, nothing else in the
    parser has changed, and every payload has been stepped over. *)
Theorem unhandled_elements_skipped (w : list byte) (k : Z)
  (es : list (list byte * list byte)) (tail : list byte)
  (s : loop_state) :
  let L := Z.of_nat (length (encode_others k es)) in
  Forall (unhandled k) es ->
  0 <= st_offset s ->
  drop (Z.to_nat (st_offset s)) w = encode_others k es ++ tail ->
  1 <= k <= 8 ->
  L < st_len s < 2 ^ 64 ->
  st_offset s + L < 2 ^ 64 ->
  0 <= parser_consume (st_parser s) ->
  parser_consume (st_parser s) + L < 2 ^ 64 ->
  parser_len (st_parser s) = 0
  \/ parser_consume (st_parser s) + L < parser_len (st_parser s) ->
  exists s',
    reaches w s s'
    /\ st_parser s'
       = set_consume (parser_consume (st_parser s) + L) (st_parser s)
    /\ st_offset s' = st_offset s + L
    /\ st_len s' = st_len s - L
    /\ drop (Z.to_nat (st_offset s')) w = tail.
Proof. exact (unhandled_run w k tail es s). Qed.

Lemma unhandled_elements_skipped_witness :
  exists s',
    reaches chained_window_2
      (mkState
         (mkParser 0 0 0 0 0 0 9 0 None GST_MATROSKA_PARSER_STATUS_DATA
            false 0)
         9 18 None (mkInfo GST_EBML_ID_HEADER 4 5 5))
      s'
    /\ st_offset s' = 9 + Z.of_nat (length (encode_others 1
                                              [(bytes_of [0xEC],
                                                bytes_of [0x00])])).
Proof.
  destruct (unhandled_elements_skipped chained_window_2 1
              [(bytes_of [0xEC], bytes_of [0x00])]
              (bytes_of (ebml_header_bytes ++ cluster_bytes))
              (mkState
                 (mkParser 0 0 0 0 0 0 9 0 None
                    GST_MATROSKA_PARSER_STATUS_DATA false 0)
                 9 18 None (mkInfo GST_EBML_ID_HEADER 4 5 5)))
    as (s' & Hreach & _ & Hoff & _).
  - apply Forall_cons. split; [|apply Forall_nil; exact I].
    split; [|split].
    + exists xec, []. split; [reflexivity|].
      split; vm_compute; [reflexivity | discriminate].
    + unfold handled_ids.
      repeat (apply Forall_cons; split; [vm_compute; discriminate|]).
      apply Forall_nil. exact I.
    + vm_compute. reflexivity.
  - vm_compute. discriminate.
  - vm_compute. reflexivity.
  - lia.
  - vm_compute. split; reflexivity.
  - vm_compute. reflexivity.
  - vm_compute. discriminate.
  - vm_compute. reflexivity.
  - left. reflexivity.
  - exists s'. split; assumption.
Defined.


(** ** Elements of unknown size *)

Lemma check_unknown_length_reserved (k : Z) :
  1 <= k <= 8 ->
  check_unknown_length k (reserved_pattern k) = UNKNOWN_SIZE.
Proof.
  intros Hk. unfold check_unknown_length.
  rewrite (unknown_length_table k Hk), Z.eqb_refl. reflexivity.
Qed.

Lemma extract_step_unknown_size (w : list byte) (s : loop_state)
  (idb : list byte) (k : Z) (tail : list byte) :
  0 <= st_offset s ->
  drop (Z.to_nat (st_offset s)) w
  = idb ++ encode_vint k (reserved_pattern k) ++ tail ->
  well_formed_id idb -> 1 <= k <= 8 ->
  be_value idb mod 2 ^ 32 <> GST_MATROSKA_ID_SEGMENT ->
  be_value idb mod 2 ^ 32 <> GST_MATROSKA_ID_CUES ->
  be_value idb mod 2 ^ 32 <> GST_MATROSKA_ID_CLUSTER ->
  Z.of_nat (length idb) + k < st_len s < 2 ^ 63 ->
  extract_step w s
  = Ret (Return GST_MATROSKA_PARSER_OK
           (if negb (st_offset s =? 0)
            then set_offset (st_offset s) (st_parser s)
            else st_parser s)).
Proof.
  intros Hoff Hdrop Hwf Hk Hn1 Hn2 Hn3 Hlen.
  pose proof (well_formed_id_nonempty _ Hwf) as Hidl.
  assert (Hrp : 0 <= reserved_pattern k < 2 ^ (7 * k)).
  { unfold reserved_pattern. rewrite Z.ones_equiv.
    assert (0 < 2 ^ (7 * k)) by (apply Z.pow_pos_nonneg; lia). lia. }
  unfold extract_step.
  rewrite (read_one_view w (st_offset s) idb k (reserved_pattern k) tail
             (st_len s) (st_info s) Hoff Hdrop Hwf Hk Hrp)
    by (change (2 ^ 64) with (2 * 2 ^ 63); lia).
  cbn [bind fst snd].
  rewrite check_unknown_length_reserved by exact Hk.
  rewrite adjust_consume_whole by (cbn [info_id]; assumption).
  replace ((Z.of_nat (length idb) + k + UNKNOWN_SIZE =? 0)
           || (st_len s <? Z.of_nat (length idb) + k + UNKNOWN_SIZE))
    with true; [reflexivity|].
  symmetry. apply orb_true_intro. right.
  change UNKNOWN_SIZE with (2 ^ 63 - 1). lia.
Qed.

(** An element of unknown size stalls the parse unless it is a Segment, a
    Cues or a Cluster element.  Wherever in a call the loop arrives at the
    header of any other element whose size field holds the reserved
    all-ones pattern, the element counts as 2^63 - 1 bytes long and is
    never complete: the call returns OK with the parser as it stood, only
    the cursor saved as offset (when it is not 0); the element is not
    dispatched and nothing behind it is reached, however many bytes of it
    are available. *)
Theorem unknown_size_element_stalls (p q : GstMatroskaParser)
  (a : GstAdapter) (s : loop_state) (idb : list byte) (k : Z)
  (tail : list byte) :
  extraction_input p a = Some q ->
  reaches a (initial_state q a) s ->
  0 <= st_offset s ->
  drop (Z.to_nat (st_offset s)) a
  = idb ++ encode_vint k (reserved_pattern k) ++ tail ->
  well_formed_id idb -> 1 <= k <= 8 ->
  be_value idb mod 2 ^ 32 <> GST_MATROSKA_ID_SEGMENT ->
  be_value idb mod 2 ^ 32 <> GST_MATROSKA_ID_CUES ->
  be_value idb mod 2 ^ 32 <> GST_MATROSKA_ID_CLUSTER ->
  Z.of_nat (length idb) + k < st_len s < 2 ^ 63 ->
  gst_matroska_parser_entry (Some p) (Some a)
  = Ret (GST_MATROSKA_PARSER_OK,
         Some (if negb (st_offset s =? 0)
               then set_offset (st_offset s) (st_parser s)
               else st_parser s)).
Proof.
  intros Hq Hreach Hoff Hdrop Hwf Hk Hn1 Hn2 Hn3 Hlen.
  pose proof (extract_loop_return a 0 s _ _
                (extract_step_unknown_size a s idb k tail Hoff Hdrop Hwf Hk
                   Hn1 Hn2 Hn3 Hlen)) as Hrun.
  destruct (reaches_loop _ _ _ Hreach _ _ Hrun) as [fuel0 Hrun0].
  pose proof (extract_data_of_run _ _ _ _ Hrun0) as Hx.
  exact (entry_of_extract _ _ _ _ _ Hq Hx).
Qed.

Lemma unknown_size_element_stalls_witness :
  gst_matroska_parser_entry (Some zeroed_parser) (Some unknown_size_stream)
  = Ret (GST_MATROSKA_PARSER_OK,
         Some (if negb (st_offset
                          (mkState
                             (mkParser 0 0 0 0 0 0 9 0 None
                                GST_MATROSKA_PARSER_STATUS_DATA false 0)
                             9 4 None (mkInfo GST_EBML_ID_HEADER 4 5 5))
                        =? 0)
               then set_offset 9
                      (mkParser 0 0 0 0 0 0 9 0 None
                         GST_MATROSKA_PARSER_STATUS_DATA false 0)
               else mkParser 0 0 0 0 0 0 9 0 None
                      GST_MATROSKA_PARSER_STATUS_DATA false 0)).
Proof.
  apply (unknown_size_element_stalls zeroed_parser
           (set_status GST_MATROSKA_PARSER_STATUS_DATA
              (set_status GST_MATROSKA_PARSER_STATUS_HEADER zeroed_parser))
           unknown_size_stream
           (mkState
              (mkParser 0 0 0 0 0 0 9 0 None
                 GST_MATROSKA_PARSER_STATUS_DATA false 0)
              9 4 None (mkInfo GST_EBML_ID_HEADER 4 5 5))
           (bytes_of [0xEC]) 1 (bytes_of [0x00; 0x00])).
  - vm_compute. reflexivity.
  - eapply reaches_step; [vm_compute; reflexivity|]. apply reaches_here.
  - vm_compute. discriminate.
  - vm_compute. reflexivity.
  - exists xec, []. split; [reflexivity|].
    split; vm_compute; [reflexivity | discriminate].
  - lia.
  - vm_compute. discriminate.
  - vm_compute. discriminate.
  - vm_compute. discriminate.
  - vm_compute. split; reflexivity.
Defined.
